(** * cozy-apps-registry: version grammar, LRU+TTL cache, archive validation
      and discovery queries

    A shallow embedding of [lru/lru.go], [registry/registry.go] and
    [registry/finders.go], and the properties of the specification stated
    over it.

    Conventions.
    - Go [string] is [string] (a sequence of bytes), Go [[]byte] is
      [list byte], Go [int]/[int64] and [time.Time]/[time.Duration]
      (nanoseconds) are [Z].
    - A Go function that can panic returns [option]; [None] is the panic.
    - A call that blocks for ever on the cache mutex is [Blocked].
    - The clock is an argument: a cache operation is given the reading of
      [time.Now()], and a discovery operation the instant [now] at which
      it runs, which stands for every reading it takes.
    - Library code the repository calls but does not contain (SHA-256,
      [encoding/json], the tar and gzip readers, the document store) is a
      [Variable] of the section that uses it, or an input record holding
      what the library delivered. *)

From Stdlib Require Import ZArith Lia List Ascii String Bool.
From Stdlib.Strings Require Import Byte.
From Stdlib Require OrdersEx.
From stdpp Require Import base option list gmap strings.

Local Open Scope string_scope.
Local Open Scope Z_scope.

(* stdpp keeps [simpl] from unfolding string concatenation; the proofs
   below compute with it. *)
#[local] Arguments String.append !s1 s2 /.

(* ===================================================================== *)
(** ** The parts of Go's [strings] package the registry uses *)
(* ===================================================================== *)

Module GoStrings.

(** [strings.HasPrefix(s, prefix)] *)
Fixpoint HasPrefix (s prefix : string) : bool :=
  match prefix, s with
  | EmptyString, _ => true
  | String p prefix', String c s' => Ascii.eqb c p && HasPrefix s' prefix'
  | String _ _, EmptyString => false
  end.

(** [strings.Index(s, substr)]: position of the first occurrence, or -1. *)
Fixpoint Index (s substr : string) : Z :=
  if HasPrefix s substr then 0
  else match s with
       | EmptyString => -1
       | String _ s' => let i := Index s' substr in
                        if i <? 0 then -1 else i + 1
       end.

(** [strings.Contains(s, substr)] is [Index(s, substr) >= 0]. *)
Definition Contains (s substr : string) : bool := 0 <=? Index s substr.

Fixpoint take (n : nat) (s : string) : string :=
  match n, s with
  | S n', String c s' => String c (take n' s')
  | _, _ => EmptyString
  end.

Fixpoint drop (n : nat) (s : string) : string :=
  match n, s with
  | S n', String _ s' => drop n' s'
  | _, _ => s
  end.

(** The slice expression [s[:i]]; it panics unless [0 <= i <= len(s)]. *)
Definition slice_to (s : string) (i : Z) : option string :=
  if (0 <=? i) && (i <=? Z.of_nat (String.length s))
  then Some (take (Z.to_nat i) s) else None.

(** The slice expression [s[i:]]; it panics unless [0 <= i <= len(s)]. *)
Definition slice_from (s : string) (i : Z) : option string :=
  if (0 <=? i) && (i <=? Z.of_nat (String.length s))
  then Some (drop (Z.to_nat i) s) else None.

(** [strings.SplitN(s, sep, n)] for a non-empty [sep] and [n >= 0]: cut at
    the first [n-1] occurrences of [sep], the last piece is the
    remainder. *)
Fixpoint SplitN (s sep : string) (n : nat) : list string :=
  match n with
  | O => []
  | S O => [s]
  | S n' =>
      let m := Index s sep in
      if m <? 0 then [s]
      else take (Z.to_nat m) s
           :: SplitN (drop (Z.to_nat m + String.length sep) s) sep n'
  end.

(** [strings.Split(s, sep)] for a non-empty [sep]: [SplitN] with no bound;
    a string of length [n] has at most [n + 1] pieces. *)
Definition Split (s sep : string) : list string :=
  SplitN s sep (S (String.length s)).

(** Go compares strings with [<] byte by byte. *)
Definition lt (a b : string) : bool := String.ltb a b.

(** [strings.ToLower] on ASCII strings, such as the slugs [validSlugReg]
    accepts: [A-Z] is shifted to [a-z], any other byte is kept. *)
Definition lower_ascii (c : ascii) : ascii :=
  let n := nat_of_ascii c in
  if ((65 <=? n) && (n <=? 90))%nat then ascii_of_nat (n + 32) else c.

Fixpoint ToLower (s : string) : string :=
  match s with
  | EmptyString => EmptyString
  | String c s' => String (lower_ascii c) (ToLower s')
  end.

(** How often the character [c] occurs in [s]. *)
Fixpoint count (c : ascii) (s : string) : nat :=
  match s with
  | EmptyString => O
  | String d s' => ((if Ascii.eqb d c then 1 else 0) + count c s')%nat
  end.

(** [lacks c s]: the character [c] does not occur in [s]. *)
Fixpoint lacks (c : ascii) (s : string) : Prop :=
  match s with
  | EmptyString => True
  | String d s' => d <> c /\ lacks c s'
  end.

End GoStrings.

(* ===================================================================== *)
(** ** Regular expressions, as much of Go's [regexp] as the two patterns of
       [registry.go] need *)
(* ===================================================================== *)

Module Regexp.

(** One character position of a pattern. *)
Inductive charclass : Type :=
| CLit (c : ascii)                       (* a literal, such as [\.] or [-] *)
| CRanges (rs : list (ascii * ascii))    (* a bracket, such as [[a-f0-9]] *)
| CAnyNotNL.                             (* any byte but the newline *)

Inductive regex : Type :=
| NoMatch
| EmptyMatch
| Chr (cc : charclass)
| Concat (r1 r2 : regex)
| Alternate (r1 r2 : regex)
| Star (r : regex).

(** [r?] *)
Definition Quest (r : regex) : regex := Alternate EmptyMatch r.

(** [r{0,n}] *)
Fixpoint upto (r : regex) (n : nat) : regex :=
  match n with
  | O => EmptyMatch
  | S n' => Quest (Concat r (upto r n'))
  end.

(** [r{lo,lo+extra}] *)
Fixpoint Repeat (r : regex) (lo extra : nat) : regex :=
  match lo with
  | O => upto r extra
  | S lo' => Concat r (Repeat r lo' extra)
  end.

(** An unescaped [.]: one rune other than the newline. Go's [regexp] reads
    the string as UTF-8: a rune is an ASCII byte, a well-formed sequence
    of two to four bytes, or a byte outside any well-formed sequence,
    which is read as a rune of its own. *)
Definition AnyCharNotNL : regex :=
  let cont := Chr (CRanges [("128", "191")]%char) in
  Alternate (Chr CAnyNotNL)
    (Alternate
       (Concat (Chr (CRanges [("194", "223")]%char)) cont)
       (Alternate
          (Concat
             (Alternate
                (Concat (Chr (CLit "224")) (Chr (CRanges [("160", "191")]%char)))
                (Alternate
                   (Concat (Chr (CRanges [("225", "236"); ("238", "239")]%char)) cont)
                   (Concat (Chr (CLit "237")) (Chr (CRanges [("128", "159")]%char)))))
             cont)
          (Concat
             (Alternate
                (Concat (Chr (CLit "240")) (Chr (CRanges [("144", "191")]%char)))
                (Alternate
                   (Concat (Chr (CRanges [("241", "243")]%char)) cont)
                   (Concat (Chr (CLit "244")) (Chr (CRanges [("128", "143")]%char)))))
             (Concat cont cont)))).

(** A literal string. *)
Fixpoint Literal (s : string) : regex :=
  match s with
  | EmptyString => EmptyMatch
  | String c s' => Concat (Chr (CLit c)) (Literal s')
  end.

Definition in_range (c : ascii) (r : ascii * ascii) : bool :=
  ((nat_of_ascii (fst r) <=? nat_of_ascii c)
   && (nat_of_ascii c <=? nat_of_ascii (snd r)))%nat.

Definition accepts (cc : charclass) (c : ascii) : bool :=
  match cc with
  | CLit d => Ascii.eqb c d
  | CRanges rs => existsb (in_range c) rs
  | CAnyNotNL => negb (Ascii.eqb c "010"%char)
  end.

Fixpoint nullable (r : regex) : bool :=
  match r with
  | NoMatch => false
  | EmptyMatch => true
  | Chr _ => false
  | Concat r1 r2 => nullable r1 && nullable r2
  | Alternate r1 r2 => nullable r1 || nullable r2
  | Star _ => true
  end.

(** Brzozowski derivative: what is left of [r] after reading [c]. *)
Fixpoint deriv (c : ascii) (r : regex) : regex :=
  match r with
  | NoMatch => NoMatch
  | EmptyMatch => NoMatch
  | Chr cc => if accepts cc c then EmptyMatch else NoMatch
  | Concat r1 r2 =>
      if nullable r1
      then Alternate (Concat (deriv c r1) r2) (deriv c r2)
      else Concat (deriv c r1) r2
  | Alternate r1 r2 => Alternate (deriv c r1) (deriv c r2)
  | Star r1 => Concat (deriv c r1) (Star r1)
  end.

(** [MatchString] for a pattern anchored with [^] and [$]: the whole
    string has to match. *)
Fixpoint MatchString (r : regex) (s : string) : bool :=
  match s with
  | EmptyString => nullable r
  | String c s' => MatchString (deriv c r) s'
  end.

(** The language of a pattern, as a relation. *)
Inductive Lang : regex -> string -> Prop :=
| LEmpty : Lang EmptyMatch ""
| LChr cc c : accepts cc c = true -> Lang (Chr cc) (String c "")
| LConcat r1 r2 s1 s2 :
    Lang r1 s1 -> Lang r2 s2 -> Lang (Concat r1 r2) (s1 ++ s2)
| LAltL r1 r2 s : Lang r1 s -> Lang (Alternate r1 r2) s
| LAltR r1 r2 s : Lang r2 s -> Lang (Alternate r1 r2) s
| LStarNil r : Lang (Star r) ""
| LStarCons r s1 s2 :
    Lang r s1 -> Lang (Star r) s2 -> Lang (Star r) (s1 ++ s2).


(** [avoids c r]: no character position of [r] accepts [c]. *)
Fixpoint avoids (c : ascii) (r : regex) : bool :=
  match r with
  | NoMatch | EmptyMatch => true
  | Chr cc => negb (accepts cc c)
  | Concat r1 r2 | Alternate r1 r2 => avoids c r1 && avoids c r2
  | Star r1 => avoids c r1
  end.

End Regexp.

(* ===================================================================== *)
(** ** registry.go: the version grammar *)
(* ===================================================================== *)

Module VersionGrammar.
Import GoStrings Regexp.

Definition digit19 : regex := Chr (CRanges [("1", "9")]%char).
Definition digit09 : regex := Chr (CRanges [("0", "9")]%char).
Definition hexlow : regex := Chr (CRanges [("a", "f"); ("0", "9")]%char).

(** [(0|[1-9][0-9]{0,4})] *)
Definition number : regex :=
  Alternate (Literal "0") (Concat digit19 (Repeat digit09 0 4)).

(** [validVersionReg]:
    [^(0|[1-9][0-9]{0,4})\.(0|[1-9][0-9]{0,4})\.(0|[1-9][0-9]{0,4})
      (-dev\.[a-f0-9]{1,40}|-beta.(0|[1-9][0-9]{0,4}))?$].
    The dot after [-dev] is escaped, the dot after [-beta] is not. *)
Definition validVersionReg : regex :=
  Concat number
    (Concat (Literal ".")
       (Concat number
          (Concat (Literal ".")
             (Concat number
                (Quest
                   (Alternate
                      (Concat (Literal "-dev.") (Repeat hexlow 1 39))
                      (Concat (Literal "-beta")
                         (Concat AnyCharNotNL number)))))))).

(** [validSlugReg]: [^[A-Za-z][A-Za-z0-9\-]*$] *)
Definition validSlugReg : regex :=
  Concat (Chr (CRanges [("A", "Z"); ("a", "z")]%char))
    (Star (Chr (CRanges [("A", "Z"); ("a", "z"); ("0", "9"); ("-", "-")]%char))).

Definition devSuffix : string := "-dev.".
Definition betaSuffix : string := "-beta.".

Inductive Channel : Type := Stable | Beta | Dev.

Definition Channel_eqb (a b : Channel) : bool :=
  match a, b with
  | Stable, Stable | Beta, Beta | Dev, Dev => true
  | _, _ => false
  end.

Definition GetVersionChannel (version : string) : Channel :=
  if Contains version devSuffix then Dev
  else if Contains version betaSuffix then Beta
  else Stable.

(** The switch of [SplitVersion]: the version without its channel
    suffix. *)
Definition preSuffix (version : string) : option string :=
  match GetVersionChannel version with
  | Beta => slice_to version (Index version betaSuffix)
  | Dev => slice_to version (Index version devSuffix)
  | Stable => Some version
  end.

(** [SplitVersion]; [None] is the index-out-of-range panic of [s[1]] or
    [s[2]] (or of the slice expression). *)
Definition SplitVersion (version : string) : option (string * string * string) :=
  version' ← preSuffix version;
  match SplitN version' "." 3 with
  | s0 :: s1 :: s2 :: _ => Some (s0, s1, s2)
  | _ => None
  end.

Definition VersionMatch (ver1 ver2 : string) : option bool :=
  '(a0, a1, a2) ← SplitVersion ver1;
  '(b0, b1, b2) ← SplitVersion ver2;
  Some (String.eqb a0 b0 && String.eqb a1 b1 && String.eqb a2 b2).

Definition VersionLess (ver1 ver2 : string) : option bool :=
  '(a0, a1, a2) ← SplitVersion ver1;
  '(b0, b1, b2) ← SplitVersion ver2;
  Some (if lt a0 b0 then true
        else if String.eqb a0 b0 && lt a1 b1 then true
        else if String.eqb a0 b0 && String.eqb a1 b1 && lt a2 b2 then true
        else false).


Definition channelToStr (channel : Channel) : string :=
  match channel with
  | Stable => "stable"
  | Beta => "beta"
  | Dev => "dev"
  end.

End VersionGrammar.

(* ===================================================================== *)
(** ** lru/lru.go *)
(* ===================================================================== *)

Module Lru.

(** The outcome of a call that takes the cache mutex: it returns, or the
    goroutine waits for ever on [c.mu.Lock()] ([sync.Mutex] is not
    reentrant). *)
Inductive Run (A : Type) : Type :=
| Returns (a : A)
| Blocked.
Arguments Returns {A} a.
Arguments Blocked {A}.

#[export] Instance Run_ret : MRet Run := fun A a => Returns a.
#[export] Instance Run_bind : MBind Run := fun A B f m =>
  match m with
  | Returns a => f a
  | Blocked => Blocked
  end.

Record entry : Type := mkEntry {
  key : string;
  value : list byte;
  date : Z                      (* [time.Time], in nanoseconds *)
}.

(** [ll] is the [container/list] of entries, front first; [cache] is the
    map from a key to its element, which in Go points into [ll]: a write
    through the element is written to both here. [mu] is [true] while the
    mutex is held. *)
Record Cache : Type := mkCache {
  MaxEntries : Z;
  TTL : Z;
  mu : bool;
  ll : list entry;
  cache : gmap string entry
}.

Definition New (maxEntries ttl : Z) : Cache :=
  {| MaxEntries := maxEntries; TTL := ttl; mu := false;
     ll := []; cache := ∅ |}.

Definition Lock (c : Cache) : Run Cache :=
  if mu c then Blocked
  else Returns {| MaxEntries := MaxEntries c; TTL := TTL c; mu := true;
                  ll := ll c; cache := cache c |}.

Definition Unlock (c : Cache) : Cache :=
  {| MaxEntries := MaxEntries c; TTL := TTL c; mu := false;
     ll := ll c; cache := cache c |}.

Definition other_key (k : string) (e : entry) : bool :=
  negb (String.eqb (key e) k).

(** [c.ll.Remove(e)] for the element that carries key [k]. An element is
    told by its key, which the list holds once ([coherent] below). *)
Definition ll_Remove (k : string) (l : list entry) : list entry :=
  List.filter (other_key k) l.

(** [c.ll.MoveToFront(ele)] followed by the writes to the element: the
    element of key [key e], as updated to [e], becomes the front. *)
Definition ll_MoveToFront (e : entry) (l : list entry) : list entry :=
  e :: ll_Remove (key e) l.

Definition removeElement (c : Cache) (e : entry) : Cache :=
  {| MaxEntries := MaxEntries c; TTL := TTL c; mu := mu c;
     ll := ll_Remove (key e) (ll c);
     cache := delete (key e) (cache c) |}.

(** [RemoveOldest] takes the mutex itself. *)
Definition RemoveOldest (c : Cache) : Run Cache :=
  c ← Lock c;
  Returns (Unlock (match last (ll c) with
                   | Some ele => removeElement c ele
                   | None => c
                   end)).

(** [Add], at time [now]. With the mutex held it calls [RemoveOldest]
    when the list has grown past [MaxEntries]. *)
Definition Add (c : Cache) (k : string) (v : list byte) (now : Z) : Run Cache :=
  c ← Lock c;
  c ← match cache c !! k with
      | Some ele =>
          let ele' := {| key := key ele; value := v; date := now |} in
          Returns {| MaxEntries := MaxEntries c; TTL := TTL c; mu := mu c;
                     ll := ll_MoveToFront ele' (ll c);
                     cache := <[k := ele']> (cache c) |}
      | None =>
          let ele := {| key := k; value := v; date := now |} in
          let c := {| MaxEntries := MaxEntries c; TTL := TTL c; mu := mu c;
                      ll := ele :: ll c;
                      cache := <[k := ele]> (cache c) |} in
          if negb (MaxEntries c =? 0)
             && (MaxEntries c <? Z.of_nat (length (ll c)))
          then RemoveOldest c
          else Returns c
      end;
  Returns (Unlock c).

(** [Get], at time [now]: the value, the [ok] flag and the cache after
    the call. A miss returns the zero value [nil]. *)
Definition Get (c : Cache) (k : string) (now : Z)
  : Run (list byte * bool * Cache) :=
  c ← Lock c;
  match cache c !! k with
  | Some ele =>
      if (TTL c =? 0) || (now - date ele <=? TTL c)
      then
        let ele' := {| key := key ele; value := value ele; date := now |} in
        Returns (value ele, true,
                 Unlock {| MaxEntries := MaxEntries c; TTL := TTL c;
                           mu := mu c;
                           ll := ll_MoveToFront ele' (ll c);
                           cache := <[k := ele']> (cache c) |})
      else Returns ([], false, Unlock (removeElement c ele))
  | None => Returns ([], false, Unlock c)
  end.

Definition Remove (c : Cache) (k : string) : Run Cache :=
  c ← Lock c;
  Returns (Unlock (match cache c !! k with
                   | Some ele => removeElement c ele
                   | None => c
                   end)).

(** Successive [Add]s of the keys [kvs], each with its value and the time
    of the call. *)
Fixpoint AddAll (c : Cache) (kvs : list (string * list byte * Z)) : Run Cache :=
  match kvs with
  | [] => Returns c
  | (k, v, now) :: rest => c' ← Add c k v now; AddAll c' rest
  end.

(** The map is keyed by the keys of the entries it holds. *)
Definition keyed (c : Cache) : Prop :=
  forall k e, cache c !! k = Some e -> key e = k.

(** The map and the list hold the same entries, and the list holds a key
    once. *)
Definition coherent (c : Cache) : Prop :=
  keyed c /\
  (forall k e, cache c !! k = Some e -> e ∈ ll c) /\
  (forall e, e ∈ ll c -> cache c !! key e = Some e) /\
  NoDup (key <$> ll c).

(** The keys held by the list, most recently used first. *)
Definition keys (c : Cache) : list string := key <$> ll c.

End Lru.

(* ===================================================================== *)
(** ** encoding/hex, as [downloadVersion] uses it *)
(* ===================================================================== *)

Module GoHex.

(** The value of a hexadecimal digit, either case. *)
Definition fromHexChar (c : ascii) : option nat :=
  let n := nat_of_ascii c in
  if ((48 <=? n) && (n <=? 57))%nat then Some (n - 48)%nat
  else if ((97 <=? n) && (n <=? 102))%nat then Some (n - 87)%nat
  else if ((65 <=? n) && (n <=? 70))%nat then Some (n - 55)%nat
  else None.

(** [hex.DecodeString(s)]: the bytes decoded before the first invalid or
    unpaired character, and whether an error is reported. The caller in
    [downloadVersion] drops the error and keeps the bytes. *)
Fixpoint DecodeString (s : string) : list byte * bool :=
  match s with
  | EmptyString => ([], false)
  | String _ EmptyString => ([], true)
  | String p (String q s') =>
      match fromHexChar p, fromHexChar q with
      | Some a, Some b =>
          let '(bs, err) := DecodeString s' in
          (byte_of_ascii (ascii_of_nat (16 * a + b)) :: bs, err)
      | _, _ => ([], true)
      end
  end.

End GoHex.

(* ===================================================================== *)
(** ** registry.go and finders.go: data *)
(* ===================================================================== *)

Module Registry.
Import GoStrings Regexp VersionGrammar Lru.

Definition maxApplicationSize : Z := 20 * 1024 * 1024.
Definition maxLimit : Z := 200.
Definition StatusUnprocessableEntity : Z := 422.

Definition validFilters : list string :=
  ["type"; "editor"; "category"; "tags"; "locales"].

Definition validSorts : list string :=
  ["slug"; "type"; "editor"; "category"; "created_at"; "updated_at"].

(** The names of [appsIndexes]. *)
Definition appsIndexes : list string :=
  ["by-slug"; "by-type"; "by-editor"; "by-category"; "by-created_at";
   "by-updated_at"].

(** Modelled from the spec: [stringInArray], called by [GetAppsList] and
    [IsValidApp] and declared outside the files at hand; membership of a
    string in a list of strings. *)
Definition stringInArray (a : string) (l : list string) : bool :=
  existsb (String.eqb a) l.

(** One entry of the composite error [errm] of [downloadVersion]. *)
Inductive Violation : Type :=
| FieldEmpty (field : string)
    (* "%q field is empty" *)
| FieldMismatch (version optsVersion : string)
    (* "version" field does not match (%q != %q) *)
| PackageMismatch (version packVersion : string).
    (* version from package.json (%q != %q) *)

(** The message of an [errshttp] error of [downloadVersion]. *)
Inductive Reason : Type :=
| CouldNotReach
| BadStatus (code : Z)
| FileTooBig
| PackageNotValid
| ChecksumMismatch
| NoManifest
| ManifestNotJSON
| ManifestMismatch (errm : list Violation).

Inductive error : Type :=
| ErrAppNotFound
| ErrAppSlugInvalid
| ErrVersionNotFound
| ErrVersionInvalid
| ErrChannelInvalid
| HTTPError (code : Z) (why : Reason)   (* [errshttp.NewError(code, ...)] *)
| ErrStore (what : string).             (* an error of the document store or
                                           of a decoder, handed on as is *)

Definition NewError (code : Z) (why : Reason) : error := HTTPError code why.

(** [x, err := f(); if err != nil { return err }] *)
#[export] Instance error_bind : MBind (sum error) := fun A B f m =>
  match m with
  | inl e => inl e
  | inr a => f a
  end.

Definition is_ErrVersionNotFound (e : error) : bool :=
  match e with ErrVersionNotFound => true | _ => false end.

Record AppVersions : Type := mkAppVersions {
  av_Stable : list string;
  av_Beta : list string;
  av_Dev : list string
}.

Record VersionOptions : Type := mkVersionOptions {
  opt_Version : string;
  opt_URL : string;
  opt_Sha256 : string
}.

(** The [Version] document. [ver_Attachments] is the field that
    [FindLatestVersion] clears; it holds the names of the attachments the
    store lists under [_attachments]. *)
Record Version : Type := mkVersion {
  ver_ID : string;
  ver_Rev : string;
  ver_Attachments : list string;
  ver_Slug : string;
  ver_Editor : string;
  ver_Type : string;
  ver_Version : string;
  ver_Manifest : list byte;
  ver_CreatedAt : Z;
  ver_URL : string;
  ver_Size : Z;
  ver_Sha256 : string;
  ver_TarPrefix : string
}.

Record App : Type := mkApp {
  app_ID : string;
  app_Rev : string;
  app_Slug : string;
  app_Type : string;
  app_Editor : string;
  app_Category : string;
  app_Versions : option AppVersions;
  app_LatestVersion : option Version;
  app_Label : string;
  app_DataUsageCommitment : string;
  app_DataUsageCommitmentBy : string
}.

Record AppsListOptions : Type := mkAppsListOptions {
  Limit : Z;
  Cursor : Z;
  Sort : string;
  Filters : list (string * string);    (* the map, in iteration order *)
  LatestVersionChannel : Channel;
  VersionsChannel : Channel
}.

(** What a public operation yields besides the caches. *)
Inductive Res (A : Type) : Type :=
| Ok (a : A)
| Err (e : error)
| Panic.
Arguments Ok {A} a.
Arguments Err {A} e.
Arguments Panic {A}.

Definition getAppID (appSlug : string) : string := ToLower appSlug.

Definition getVersionID (appSlug version : string) : string :=
  getAppID appSlug ++ "-" ++ version.

Definition versViewDocName (appName : string) : string :=
  "versions-" ++ appName.

(* ------------------------------------------------------------------- *)
(** *** The document store, as the discovery operations see it *)

(** A row of a view query: [rows.ID()], what [rows.ScanValue] and
    [rows.ScanDoc] deliver ([None] is their error). *)
Record Row : Type := mkRow {
  row_ID : string;
  row_Value : option string;
  row_Doc : option (list byte)
}.

Record Rows : Type := mkRows {
  TotalRows : nat;          (* [rows.TotalRows()] as read before iterating *)
  rows : list Row
}.

Record QueryOptions : Type := mkQueryOptions {
  q_limit : Z;
  q_descending : bool;
  q_include_docs : bool
}.

(** A row of a [Find] query on the apps database. *)
Record AppRow : Type := mkAppRow {
  arow_ID : string;
  arow_Doc : option App
}.

Inductive Condition : Type :=
| GtNull                         (* {"$gt": null} *)
| All (vals : list string)       (* {"$all": [...]} *)
| Equals (val : string).

(** The request [GetAppsList] sends to [db.Find]. *)
Record FindRequest : Type := mkFindRequest {
  use_index : string;
  selector : list (string * Condition);
  skip : Z;
  sort : list (string * string);
  limit : Z
}.

(** A [Space]: [Find] on its apps database, and the outcome of
    [versionViewQuery] on its versions database (the design document,
    the view and the options), lazily created views included. *)
Record Space : Type := mkSpace {
  AppsDB_Find : FindRequest -> error + list AppRow;
  versionViewQuery : string -> string -> QueryOptions -> error + Rows
}.

(** The two package-level caches of finders.go. *)
Record Caches : Type := mkCaches {
  cacheVersionsLatest : Cache;
  cacheVersionsList : Cache
}.

Definition initialCaches : Caches :=
  {| cacheVersionsLatest := Lru.New 256 (5 * 60 * 1000000000);
     cacheVersionsList := Lru.New 256 (5 * 60 * 1000000000) |}.

(* ------------------------------------------------------------------- *)
(** *** The archive, as [downloadVersion] reads it *)

Definition TypeReg : ascii := "0"%char.
Definition TypeDir : ascii := "5"%char.

Record Header : Type := mkHeader {
  Typeflag : ascii;
  Name : string;
  Size : Z
}.

(** One successful [tarReader.Next()]: the header, and what
    [ioutil.ReadAll(tarReader)] returns for the entry if it is called
    ([None] is a read error). *)
Record TarEntry : Type := mkTarEntry {
  hdr : Header;
  content : option (list byte)
}.

(** The error of the [tarReader.Next()] call that ends the loop. *)
Inductive TarEnd : Type :=
| EOF
| ErrUnexpectedEOF
| ErrTar.

(** What the HTTP client and the reader stack deliver for one download:
    the response, whether [gzip.NewReader] accepts the body, the entries
    the tar reader yields on the reader that was selected and how it
    ends, and what the two tee readers have seen when the loop is left:
    [written] bytes counted, [sum] their SHA-256 as [h.Sum(nil)]. The
    tees sit behind [io.LimitReader(res.Body, maxApplicationSize)], so
    they never see more than [maxApplicationSize] bytes. *)
Record Fetch : Type := mkFetch {
  requestErr : bool;        (* [http.NewRequest] or [versionClient.Do] fails *)
  StatusCode : Z;
  ContentType : string;
  gzipErr : bool;
  entries : list TarEntry;
  ending : TarEnd;
  written : Z;
  sum : list byte
}.

Definition Fetch_wf (f : Fetch) : Prop :=
  0 <= written f <= maxApplicationSize.


(** [bytes.Equal] *)
Fixpoint bytes_Equal (a b : list byte) : bool :=
  match a, b with
  | [], [] => true
  | x :: a', y :: b' => Byte.eqb x y && bytes_Equal a' b'
  | _, _ => false
  end.

(** A value of a decoded JSON object, as far as its dynamic type. *)
Inductive JSONValue : Type :=
| JString (s : string)
| JNumber (n : Z)
| JBool (b : bool)
| JNull
| JArray
| JObject.

(** The type assertion [v.(string)] on [manifest[field]]. *)
Definition asString (m : gmap string JSONValue) (field : string)
  : string * bool :=
  match m !! field with
  | Some (JString s) => (s, true)
  | _ => ("", false)
  end.

(* ------------------------------------------------------------------- *)
(** *** registry.go: [downloadVersion] *)

Section Download.

(** [json.Unmarshal(manifestContent, &manifest)] into a
    [map[string]interface{}]; [None] is its error. *)
Variable json_Unmarshal_manifest : list byte -> option (gmap string JSONValue).

(** [json.Unmarshal(packageContent, &pack)] into
    [struct { Version string }]: [pack.Version], or [None] for its
    error. *)
Variable json_Unmarshal_package : list byte -> option string.

(** The variables of the loop over the tar entries. *)
Record scan : Type := mkScan {
  prefix : string;
  appType : string;
  manifestContent : list byte;
  packVersion : string
}.

Definition scan0 : scan :=
  {| prefix := ""; appType := ""; manifestContent := []; packVersion := "" |}.

(** Lines 508-512: the prefix after an entry whose top segment is
    [top]. *)
Definition next_prefix (prefix top : string) : string :=
  if String.eqb prefix "" then top
  else if negb (String.eqb prefix top) then ""
  else prefix.

(** The common-root bookkeeping of lines 507-514: the new [prefix] and
    the logical [name]. *)
Definition track_prefix (prefix name : string) : string * string :=
  match SplitN name "/" 2 with
  | [a; b] => (next_prefix prefix a, b)
  | _ => (prefix, name)
  end.

(** One turn of the loop after a successful [tarReader.Next()]. *)
Definition scan_entry (st : scan) (e : TarEntry) : error + scan :=
  if negb (Ascii.eqb (Typeflag (hdr e)) TypeReg)
     && negb (Ascii.eqb (Typeflag (hdr e)) TypeDir)
  then inr st
  else
    let '(prefix', name) := track_prefix (prefix st) (Name (hdr e)) in
    let st := {| prefix := prefix'; appType := appType st;
                 manifestContent := manifestContent st;
                 packVersion := packVersion st |} in
    st ← (if String.eqb name "manifest.webapp"
             || String.eqb name "manifest.konnector"
          then
            let appType' := if String.eqb name "manifest.webapp"
                            then "webapp" else "konnector" in
            match content e with
            | None => inl (NewError StatusUnprocessableEntity CouldNotReach)
            | Some body =>
                inr {| prefix := prefix st; appType := appType';
                       manifestContent := body;
                       packVersion := packVersion st |}
            end
          else inr st);
    if String.eqb name "package.json"
    then
      match content e with
      | None => inl (NewError StatusUnprocessableEntity CouldNotReach)
      | Some packageContent =>
          match json_Unmarshal_package packageContent with
          | None => inl (NewError StatusUnprocessableEntity PackageNotValid)
          | Some version =>
              inr {| prefix := prefix st; appType := appType st;
                     manifestContent := manifestContent st;
                     packVersion := version |}
          end
      end
    else inr st.

(** The loop, up to the [Next()] call that fails. *)
Fixpoint scan_entries (st : scan) (es : list TarEntry) : error + scan :=
  match es with
  | [] => inr st
  | e :: es' => st' ← scan_entry st e; scan_entries st' es'
  end.

(** The version block of lines 583-610: the violations it appends to
    [errm]; [None] is the panic of [VersionMatch]. *)
Definition check_versions (optsVersion : string)
    (manifest : gmap string JSONValue) (packVersion : string)
  : option (list Violation) :=
  let '(version, ok) := asString manifest "version" in
  match_ ← (if negb ok then Some false
            else if negb (Channel_eqb (GetVersionChannel optsVersion) Dev)
                 then Some (String.eqb optsVersion version)
                 else VersionMatch optsVersion version);
  let errm1 := if negb match_ then [FieldMismatch version optsVersion]
               else [] in
  if negb (String.eqb packVersion "")
  then
    match_ ← (if negb (Channel_eqb (GetVersionChannel optsVersion) Dev)
              then Some (negb (String.eqb optsVersion packVersion))
              else VersionMatch optsVersion packVersion);
    Some (errm1 ++ (if negb match_
                    then [PackageMismatch version packVersion]
                    else []))%list
  else Some errm1.

(** Lines 563-615: the manifest against the options. *)
Definition reconcile (optsVersion : string)
    (manifest : gmap string JSONValue) (packVersion : string)
  : option (list Violation) :=
  let '(editorName, ok) := asString manifest "editor" in
  let errm_editor := if negb ok || String.eqb editorName ""
                     then [FieldEmpty "editor"] else [] in
  let '(slug, ok) := asString manifest "slug" in
  let errm_slug := if negb ok || String.eqb slug ""
                   then [FieldEmpty "slug"] else [] in
  errm_version ← check_versions optsVersion manifest packVersion;
  Some (errm_editor ++ errm_slug ++ errm_version)%list.

(** [downloadVersion(opts)], run at time [now] on what the fetch
    delivers. *)
Definition downloadVersion (opts : VersionOptions) (f : Fetch) (now : Z)
  : Res Version :=
  if requestErr f
  then Err (NewError StatusUnprocessableEntity CouldNotReach)
  else if negb (StatusCode f =? 200)
  then Err (NewError StatusUnprocessableEntity (BadStatus (StatusCode f)))
  else if (String.eqb (ContentType f) "application/gzip"
           || String.eqb (ContentType f) "application/x-gzip"
           || String.eqb (ContentType f) "application/x-tgz"
           || String.eqb (ContentType f) "application/tar+gzip")
          && gzipErr f
  then Err (NewError StatusUnprocessableEntity CouldNotReach)
  else
    match scan_entries scan0 (entries f) with
    | inl err => Err err
    | inr st =>
        match ending f with
        | ErrUnexpectedEOF =>
            Err (NewError StatusUnprocessableEntity FileTooBig)
        | ErrTar => Err (NewError StatusUnprocessableEntity CouldNotReach)
        | EOF =>
            let shasum := fst (GoHex.DecodeString (opt_Sha256 opts)) in
            if negb (bytes_Equal shasum (sum f))
            then Err (NewError StatusUnprocessableEntity ChecksumMismatch)
            else if (length (manifestContent st) =? 0)%nat
            then Err (NewError StatusUnprocessableEntity NoManifest)
            else
              match json_Unmarshal_manifest (manifestContent st) with
              | None =>
                  Err (NewError StatusUnprocessableEntity ManifestNotJSON)
              | Some manifest =>
                  match reconcile (opt_Version opts) manifest
                                  (packVersion st) with
                  | None => Panic
                  | Some ((_ :: _) as errm) =>
                      Err (NewError StatusUnprocessableEntity
                                    (ManifestMismatch errm))
                  | Some [] =>
                      let slug := fst (asString manifest "slug") in
                      let editorName := fst (asString manifest "editor") in
                      Ok {| ver_ID := getVersionID slug (opt_Version opts);
                            ver_Rev := "";
                            ver_Attachments := [];
                            ver_Slug := slug;
                            ver_Editor := editorName;
                            ver_Type := appType st;
                            ver_Version := opt_Version opts;
                            ver_Manifest := manifestContent st;
                            ver_CreatedAt := now;
                            ver_URL := opt_URL opts;
                            ver_Size := written f;
                            ver_Sha256 := opt_Sha256 opts;
                            ver_TarPrefix := prefix st |}
                  end
              end
        end
    end.

End Download.

(* ------------------------------------------------------------------- *)
(** *** finders.go: [FindLatestVersion], [FindAppVersions], [GetAppsList] *)

Section Finders.

(** [json.Unmarshal(data, &latestVersion)] on a stored document: every
    field the document carries is filled in, [_id], [_rev] and
    [_attachments] included. [None] is its error. *)
Variable json_Unmarshal_Version : list byte -> option Version.

(** [json.Marshal(versions)] and [json.Unmarshal(data, &versions)]. *)
Variable json_Marshal_AppVersions : AppVersions -> option (list byte).
Variable json_Unmarshal_AppVersions : list byte -> option AppVersions.

(** Declared outside the files at hand; [GetAppsList] stores what they
    return in the app. *)
Variable defaultDataUserCommitment : App -> string * string.
Variable calculateAppLabel : App -> option Version -> string.

Definition with_latest (cs : Caches) (c : Cache) : Caches :=
  {| cacheVersionsLatest := c; cacheVersionsList := cacheVersionsList cs |}.

Definition with_list (cs : Caches) (c : Cache) : Caches :=
  {| cacheVersionsLatest := cacheVersionsLatest cs; cacheVersionsList := c |}.

(** Lines 213-215. *)
Definition strip_internal (v : Version) : Version :=
  {| ver_ID := ""; ver_Rev := ""; ver_Attachments := [];
     ver_Slug := ver_Slug v; ver_Editor := ver_Editor v;
     ver_Type := ver_Type v; ver_Version := ver_Version v;
     ver_Manifest := ver_Manifest v; ver_CreatedAt := ver_CreatedAt v;
     ver_URL := ver_URL v; ver_Size := ver_Size v;
     ver_Sha256 := ver_Sha256 v; ver_TarPrefix := ver_TarPrefix v |}.

(** [FindLatestVersion(c, appSlug, channel)], run at time [now] with the
    package-level caches in state [cs]. *)
Definition FindLatestVersion (c : Space) (cs : Caches)
    (appSlug : string) (channel : Channel) (now : Z)
  : Run (Res Version * Caches) :=
  if negb (MatchString validSlugReg appSlug)
  then Returns (Err ErrAppSlugInvalid, cs)
  else
    let channelStr := channelToStr channel in
    let key := appSlug ++ "/" ++ channelStr in
    '(data, ok, cache) ← Lru.Get (cacheVersionsLatest cs) key now;
    let cs := with_latest cs cache in
    match (if (ok : bool) then json_Unmarshal_Version data else None) with
    | Some latestVersion => Returns (Ok latestVersion, cs)
    | None =>
        match versionViewQuery c (versViewDocName appSlug) channelStr
                {| q_limit := 1; q_descending := true;
                   q_include_docs := true |} with
        | inl err => Returns (Err err, cs)
        | inr rs =>
            match rows rs with
            | [] => Returns (Err ErrVersionNotFound, cs)
            | row :: _ =>
                match row_Doc row with
                | None => Returns (Err (ErrStore "ScanDoc"), cs)
                | Some data =>
                    match json_Unmarshal_Version data with
                    | None => Returns (Err (ErrStore "Unmarshal"), cs)
                    | Some latestVersion =>
                        let latestVersion := strip_internal latestVersion in
                        cache ← Lru.Add (cacheVersionsLatest cs) key data now;
                        Returns (Ok latestVersion, with_latest cs cache)
                    end
                end
            end
        end
    end.

(** The loop of lines 244-250 over the rows of the view. *)
Fixpoint scanValues (rs : list Row) : error + list string :=
  match rs with
  | [] => inr []
  | r :: rs' =>
      match row_Value r with
      | None => inl (ErrStore "ScanValue")
      | Some version => vs ← scanValues rs'; inr (version :: vs)
      end
  end.

(** One turn of the loop of the [Dev] arm, lines 265-273: [case Stable]
    appends to [stable] and falls through to [default], which appends to
    [beta]. *)
Definition dev_step (acc : list string * list string) (v : string)
  : list string * list string :=
  let '(stable, beta) := acc in
  match GetVersionChannel v with
  | Stable => ((stable ++ [v])%list, (beta ++ [v])%list)
  | _ => (stable, (beta ++ [v])%list)
  end.

(** The switch of lines 252-282. *)
Definition composeVersions (channel : Channel) (allVersions : list string)
  : AppVersions :=
  match channel with
  | Stable =>
      {| av_Stable := allVersions; av_Beta := []; av_Dev := [] |}
  | Beta =>
      {| av_Stable :=
           List.filter (fun v => Channel_eqb (GetVersionChannel v) Stable)
                       allVersions;
         av_Beta := allVersions; av_Dev := [] |}
  | Dev =>
      let '(stable, beta) := fold_left dev_step allVersions ([], []) in
      {| av_Stable := stable; av_Beta := beta; av_Dev := allVersions |}
  end.

(** [FindAppVersions(c, appSlug, channel)], run at time [now]. The slice
    [allVersions] starts as [TotalRows] empty strings and the values
    of the rows are appended to it. *)
Definition FindAppVersions (c : Space) (cs : Caches)
    (appSlug : string) (channel : Channel) (now : Z)
  : Run (Res AppVersions * Caches) :=
  let channelStr := channelToStr channel in
  let key := appSlug ++ "/" ++ channelStr in
  '(data, ok, cache) ← Lru.Get (cacheVersionsList cs) key now;
  let cs := with_list cs cache in
  match (if (ok : bool) then json_Unmarshal_AppVersions data else None) with
  | Some versions => Returns (Ok versions, cs)
  | None =>
      match versionViewQuery c (versViewDocName appSlug) channelStr
              {| q_limit := 2000; q_descending := false;
                 q_include_docs := false |} with
      | inl err => Returns (Err err, cs)
      | inr rs =>
          match scanValues (rows rs) with
          | inl err => Returns (Err err, cs)
          | inr values =>
              let allVersions :=
                (repeat "" (TotalRows rs) ++ values)%list in
              let versions := composeVersions channel allVersions in
              match json_Marshal_AppVersions versions with
              | Some data =>
                  cache ← Lru.Add (cacheVersionsList cs) key data now;
                  Returns (Ok versions, with_list cs cache)
              | None => Returns (Ok versions, cs)
              end
          end
      end
  end.

(** Lines 328-340: the sort field and the order. *)
Definition sortOf (sort_ : string) : string * string :=
  let '(order, sortField) :=
    match sort_ with
    | String "-" rest => ("desc", rest)
    | _ => ("asc", sort_)
    end in
  let sortField :=
    if String.eqb sortField "" || negb (stringInArray sortField validSorts)
    then "slug" else sortField in
  (sortField, order).

(** Lines 342-357: the selector. *)
Fixpoint selectorOf (filters : list (string * string))
  : list (string * Condition) :=
  match filters with
  | [] => []
  | (name, val) :: rest =>
      if negb (stringInArray name validFilters) then selectorOf rest
      else if String.eqb name "tags" || String.eqb name "locales"
           then (name, All (Split val ",")) :: selectorOf rest
           else (name, Equals val) :: selectorOf rest
  end.

(** Lines 359-363. *)
Definition effectiveLimit (l : Z) : Z :=
  if l =? 0 then 50 else if maxLimit <? l then maxLimit else l.

(** The loop of lines 384-393. *)
Fixpoint scanApps (rs : list AppRow) : error + list App :=
  match rs with
  | [] => inr []
  | r :: rs' =>
      if HasPrefix (arow_ID r) "_design" then scanApps rs'
      else match arow_Doc r with
           | None => inl (ErrStore "ScanDoc")
           | Some doc => res ← scanApps rs'; inr (doc :: res)
           end
  end.

Definition set_commitment (app : App) (d : string * string) : App :=
  {| app_ID := app_ID app; app_Rev := app_Rev app;
     app_Slug := app_Slug app; app_Type := app_Type app;
     app_Editor := app_Editor app; app_Category := app_Category app;
     app_Versions := app_Versions app;
     app_LatestVersion := app_LatestVersion app;
     app_Label := app_Label app;
     app_DataUsageCommitment := fst d;
     app_DataUsageCommitmentBy := snd d |}.

Definition set_versions (app : App) (versions : option AppVersions)
    (latest : option Version) (label : string) : App :=
  {| app_ID := app_ID app; app_Rev := app_Rev app;
     app_Slug := app_Slug app; app_Type := app_Type app;
     app_Editor := app_Editor app; app_Category := app_Category app;
     app_Versions := versions;
     app_LatestVersion := latest;
     app_Label := label;
     app_DataUsageCommitment := app_DataUsageCommitment app;
     app_DataUsageCommitmentBy := app_DataUsageCommitmentBy app |}.

(** The loop of lines 407-418 over the apps to return. *)
Fixpoint enrich (c : Space) (opts : AppsListOptions) (now : Z)
    (cs : Caches) (apps : list App) : Run (Res (list App) * Caches) :=
  match apps with
  | [] => Returns (Ok [], cs)
  | app :: rest =>
      let app := set_commitment app (defaultDataUserCommitment app) in
      '(rv, cs) ← FindAppVersions c cs (app_Slug app)
                                   (VersionsChannel opts) now;
      match (rv : Res AppVersions) with
      | Panic => Returns (Panic, cs)
      | Err e => Returns (Err e, cs)
      | Ok versions =>
          '(rl, cs) ← FindLatestVersion c cs (app_Slug app)
                                        (LatestVersionChannel opts) now;
          let finish (latest : option Version) :=
            let app := set_versions app (Some versions) latest
                         (app_Label app) in
            let app := set_versions app (Some versions) latest
                         (calculateAppLabel app latest) in
            '(rr, cs) ← enrich c opts now cs rest;
            match (rr : Res (list App)) with
            | Ok res => Returns (Ok (app :: res), cs)
            | other => Returns (other, cs)
            end in
          match (rl : Res Version) with
          | Panic => Returns (Panic, cs)
          | Err e => if is_ErrVersionNotFound e then finish None
                     else Returns (Err e, cs)
          | Ok latest => finish (Some latest)
          end
      end
  end.

(** Lines 328-375: the request sent to [db.Find]; [skip] is the cursor
    and [limit] leaves room for the design documents and for one more
    app. *)
Definition findRequest (opts : AppsListOptions) : FindRequest :=
  let '(sortField, order) := sortOf (Sort opts) in
  let sort_ := ((sortField, order)
                :: (if negb (String.eqb sortField "slug")
                    then [("slug", order)] else []))%list in
  let selector_ := ((sortField, GtNull) :: selectorOf (Filters opts))%list in
  let designsCount := Z.of_nat (length appsIndexes) in
  {| use_index := "apps-index-by-" ++ sortField;
     selector := selector_;
     skip := Cursor opts;
     sort := sort_;
     limit := effectiveLimit (Limit opts) + designsCount + 1 |}.

(** [GetAppsList(c, opts)], run at time [now]: the new cursor and the
    apps. [optsLimit] is [opts.Limit] after lines 359-363. *)
Definition GetAppsList (c : Space) (cs : Caches) (opts : AppsListOptions)
    (now : Z) : Run (Res (Z * list App) * Caches) :=
  let optsLimit := effectiveLimit (Limit opts) in
  let cursor := Cursor opts in
  match AppsDB_Find c (findRequest opts) with
  | inl err => Returns (Err err, cs)
  | inr rs =>
      match scanApps rs with
      | inl err => Returns (Err err, cs)
      | inr [] => Returns (Ok (-1, []), cs)
      | inr res =>
          if optsLimit <? Z.of_nat (length res)
          then
            if optsLimit <? 0 then Returns (Panic, cs)  (* res[:opts.Limit] *)
            else
              let res := firstn (Z.to_nat optsLimit) res in
              let cursor := cursor + Z.of_nat (length res) in
              '(r, cs) ← enrich c opts now cs res;
              match (r : Res (list App)) with
              | Ok res => Returns (Ok (cursor, res), cs)
              | Err e => Returns (Err e, cs)
              | Panic => Returns (Panic, cs)
              end
          else
            '(r, cs) ← enrich c opts now cs res;
            match (r : Res (list App)) with
            | Ok res => Returns (Ok (-1, res), cs)
            | Err e => Returns (Err e, cs)
            | Panic => Returns (Panic, cs)
            end
      end
  end.

End Finders.

End Registry.

(* ===================================================================== *)
(** ** What the specification says, for comparison with the code *)
(* ===================================================================== *)

Module Spec.
Import GoStrings Regexp VersionGrammar Registry.

(** Section 4.1: [MAJOR.MINOR.PATCH], then nothing, or [-beta.N], or
    [-dev.H] with [H] of 1 to 40 hexadecimal characters; every number is
    [0|[1-9][0-9]{0,4}]. The separator after [-beta] is a dot. *)
Definition specVersionReg : regex :=
  Concat number
    (Concat (Literal ".")
       (Concat number
          (Concat (Literal ".")
             (Concat number
                (Quest
                   (Alternate
                      (Concat (Literal "-dev.") (Repeat hexlow 1 39))
                      (Concat (Literal "-beta")
                         (Concat (Chr (CLit ".")) number)))))))).

(** The number a decimal string denotes. *)
Definition digitValue (c : ascii) : Z := Z.of_nat (nat_of_ascii c) - 48.

Fixpoint atoi_from (acc : Z) (s : string) : Z :=
  match s with
  | EmptyString => acc
  | String c s' => atoi_from (10 * acc + digitValue c) s'
  end.

Definition atoi (s : string) : Z := atoi_from 0 s.

(** Section 4.1, [triple(v)] read as numbers. *)
Definition numericTriple (v : string) : option (Z * Z * Z) :=
  '(a, b, c) ← SplitVersion v;
  Some (atoi a, atoi b, atoi c).

(** Lexicographic order on triples of numbers. *)
Definition tripleLess (x y : Z * Z * Z) : bool :=
  let '(x0, x1, x2) := x in
  let '(y0, y1, y2) := y in
  (x0 <? y0)
  || ((x0 =? y0) && ((x1 <? y1) || ((x1 =? y1) && (x2 <? y2)))).

(** Section 4.1, [less(a, b)]. *)
Definition specLess (a b : string) : option bool :=
  x ← numericTriple a;
  y ← numericTriple b;
  Some (tripleLess x y).

Definition isRegOrDir (e : TarEntry) : bool :=
  Ascii.eqb (Typeflag (hdr e)) TypeReg || Ascii.eqb (Typeflag (hdr e)) TypeDir.

(** The top segment of an [a/b]-style name. *)
Definition topSegment (name : string) : option string :=
  match SplitN name "/" 2 with
  | [a; _] => Some a
  | _ => None
  end.

(** The name with its top segment stripped. *)
Definition logicalName (name : string) : string :=
  match SplitN name "/" 2 with
  | [_; b] => b
  | _ => name
  end.

(** The top segments of the [a/b]-style entries the validator looks at. *)
Definition tops (es : list TarEntry) : list string :=
  omap (fun e => topSegment (Name (hdr e))) (List.filter isRegOrDir es).

(** Section 4.3 and the glossary: the top directory every such entry
    shares, or the empty string when they do not share one. *)
Definition commonTop (ts : list string) : string :=
  match ts with
  | [] => ""
  | a :: rest => if forallb (String.eqb a) rest then a else ""
  end.

Definition isManifestName (name : string) : bool :=
  String.eqb name "manifest.webapp" || String.eqb name "manifest.konnector".

(** Section 4.7, a [Dev] request: [dev] as queried, [stable] the stable
    versions among them, [beta] the stable and the beta ones. *)
Definition specDevVersions (values : list string) : AppVersions :=
  {| av_Stable :=
       List.filter (fun v => Channel_eqb (GetVersionChannel v) Stable) values;
     av_Beta :=
       List.filter (fun v => negb (Channel_eqb (GetVersionChannel v) Dev))
                   values;
     av_Dev := values |}.




(** The page a store holding the rows [index], in the order of the
    request, answers to [skip] and [limit]. *)
Definition page (index : list AppRow) (skip_ limit_ : Z) : list AppRow :=
  firstn (Z.to_nat limit_) (skipn (Z.to_nat skip_) index).

End Spec.

(* ===================================================================== *)
(** ** Sample inputs *)
(* ===================================================================== *)

Module Samples.
Import GoStrings Regexp VersionGrammar Lru Registry.

Definition bytes (s : string) : list byte := list_byte_of_string s.

(** The double quote. *)
Definition dq : string := String (ascii_of_nat 34) "".

Definition jfield (k v : string) : string :=
  dq ++ k ++ dq ++ ":" ++ dq ++ v ++ dq.

(** The text [{"editor":E,"slug":S,"version":V}] of a manifest. *)
Definition manifestText (editor slug version : string) : list byte :=
  bytes ("{" ++ jfield "editor" editor ++ "," ++ jfield "slug" slug ++ ","
         ++ jfield "version" version ++ "}").

(** The text [{"version":V}] of a [package.json]. *)
Definition packageText (version : string) : list byte :=
  bytes ("{" ++ jfield "version" version ++ "}").

Definition manifestObject (editor slug version : string)
  : gmap string JSONValue :=
  {[ "editor" := JString editor; "slug" := JString slug;
     "version" := JString version ]}.

(** [encoding/json] on the sample texts: the decoders below give for each
    sample text what [json.Unmarshal] gives for it, and an error for any
    other input. *)
Definition sample_Unmarshal_manifest (b : list byte)
  : option (gmap string JSONValue) :=
  if bytes_Equal b (manifestText "Cozy" "notes" "1.2.3")
  then Some (manifestObject "Cozy" "notes" "1.2.3")
  else None.

Definition sample_Unmarshal_package (b : list byte) : option string :=
  if bytes_Equal b (packageText "1.2.3") then Some "1.2.3"
  else if bytes_Equal b (packageText "1.2.4") then Some "1.2.4"
  else None.

(** A declared digest and the 32 bytes it stands for. *)
Definition sampleSha256 : string :=
  "abababababababababababababababababababababababababababababababab".

Definition sampleSum : list byte := repeat xab 32.

Definition sampleOptions (version : string) : VersionOptions :=
  {| opt_Version := version;
     opt_URL := "https://example.org/notes.tar.gz";
     opt_Sha256 := sampleSha256 |}.

Definition regular (name : string) (body : list byte) : TarEntry :=
  {| hdr := {| Typeflag := TypeReg; Name := name;
               Size := Z.of_nat (length body) |};
     content := Some body |}.

Definition directory (name : string) : TarEntry :=
  {| hdr := {| Typeflag := TypeDir; Name := name; Size := 0 |};
     content := Some [] |}.

(** A gzip response of [n] transferred bytes whose archive holds [es]. *)
Definition gzipFetch (es : list TarEntry) (n : Z) : Fetch :=
  {| requestErr := false; StatusCode := 200;
     ContentType := "application/gzip"; gzipErr := false;
     entries := es; ending := EOF; written := n; sum := sampleSum |}.

(** The archive of scenario E1, with a [package.json] of version [p]. *)
Definition notesArchive (p : string) : list TarEntry :=
  [ directory "notes/";
    regular "notes/manifest.webapp" (manifestText "Cozy" "notes" "1.2.3");
    regular "notes/package.json" (packageText p) ].

(** An archive whose entries sit under three different top directories. *)
Definition scatteredArchive : list TarEntry :=
  [ regular "a/manifest.webapp" (manifestText "Cozy" "notes" "1.2.3");
    regular "b/index.html" (bytes "<html>");
    regular "c/app.js" (bytes "null") ].


(** The stored document of version 1.2.3 of [notes], with the fields the
    store adds, and its text. *)
Definition storedVersion : Version :=
  {| ver_ID := "notes-1.2.3"; ver_Rev := "1-abc";
     ver_Attachments := ["icon.svg"];
     ver_Slug := "notes"; ver_Editor := "Cozy"; ver_Type := "webapp";
     ver_Version := "1.2.3";
     ver_Manifest := manifestText "Cozy" "notes" "1.2.3";
     ver_CreatedAt := 0;
     ver_URL := "https://example.org/notes.tar.gz";
     ver_Size := 345; ver_Sha256 := sampleSha256;
     ver_TarPrefix := "notes" |}.

Definition storedVersionText : list byte :=
  bytes ("{" ++ jfield "_id" "notes-1.2.3" ++ "," ++ jfield "_rev" "1-abc" ++ ","
         ++ dq ++ "_attachments" ++ dq ++ ":{" ++ dq ++ "icon.svg" ++ dq ++ ":{}},"
         ++ jfield "slug" "notes" ++ "," ++ jfield "editor" "Cozy" ++ ","
         ++ jfield "type" "webapp" ++ "," ++ jfield "version" "1.2.3" ++ ","
         ++ dq ++ "manifest" ++ dq ++ ":"
         ++ string_of_list_byte (manifestText "Cozy" "notes" "1.2.3") ++ ","
         ++ jfield "created_at" "1970-01-01T00:00:00Z" ++ ","
         ++ jfield "url" "https://example.org/notes.tar.gz" ++ ","
         ++ jfield "size" "345" ++ "," ++ jfield "sha256" sampleSha256 ++ ","
         ++ jfield "tar_prefix" "notes" ++ "}").

Definition sample_Unmarshal_Version (b : list byte) : option Version :=
  if bytes_Equal b storedVersionText then Some storedVersion else None.

(** [json.Marshal] of an [AppVersions] whose strings need no escaping. *)
Definition jlist (l : list string) : string :=
  "[" ++ String.concat "," (List.map (fun v => dq ++ v ++ dq) l) ++ "]".

Definition sample_Marshal_AppVersions (v : AppVersions) : option (list byte) :=
  Some (bytes ("{" ++ dq ++ "stable" ++ dq ++ ":" ++ jlist (av_Stable v) ++ ","
               ++ dq ++ "beta" ++ dq ++ ":" ++ jlist (av_Beta v) ++ ","
               ++ dq ++ "dev" ++ dq ++ ":" ++ jlist (av_Dev v) ++ "}")).

(** The versions of [notes], as the [dev] view lists them. *)
Definition notesVersions : list string :=
  ["1.0.0"; "1.1.0-beta.1"; "1.1.0-dev.abc"].

Definition notesDevResult : AppVersions :=
  {| av_Stable := ["1.0.0"]; av_Beta := notesVersions; av_Dev := notesVersions |}.

Definition sample_Unmarshal_AppVersions (b : list byte) : option AppVersions :=
  if bytes_Equal b (default [] (sample_Marshal_AppVersions notesDevResult))
  then Some notesDevResult else None.

Definition valueRow (v : string) : Row :=
  {| row_ID := "notes-" ++ v; row_Value := Some v; row_Doc := None |}.

Definition sampleApp (slug : string) : App :=
  {| app_ID := slug; app_Rev := "1-x"; app_Slug := slug;
     app_Type := "webapp"; app_Editor := "Cozy"; app_Category := "";
     app_Versions := None; app_LatestVersion := None; app_Label := "";
     app_DataUsageCommitment := ""; app_DataUsageCommitmentBy := "" |}.

Definition appRow (slug : string) : AppRow :=
  {| arow_ID := slug; arow_Doc := Some (sampleApp slug) |}.

Definition designRow (name : string) : AppRow :=
  {| arow_ID := "_design/" ++ name; arow_Doc := None |}.

(** The apps database: three apps and a design document between them. *)
Definition sampleIndex : list AppRow :=
  [appRow "drive"; designRow "apps-index-by-slug"; appRow "notes";
   appRow "photos"].

(** A space whose versions database holds the versions of [notes] and
    whose apps database holds [sampleIndex]; [totalRows] is what
    [TotalRows()] reports for the list views. *)
Definition sampleSpace (totalRows : nat) : Space :=
  {| AppsDB_Find := fun req => inr (Spec.page sampleIndex (skip req) (limit req));
     versionViewQuery := fun ddoc view opts =>
       if String.eqb ddoc "versions-notes"
       then if q_include_docs opts
            then inr {| TotalRows := 3;
                        rows := [{| row_ID := "notes-1.2.3";
                                    row_Value := Some "1.2.3";
                                    row_Doc := Some storedVersionText |}] |}
            else inr {| TotalRows := totalRows;
                        rows := List.map valueRow notesVersions |}
       else inr {| TotalRows := 0; rows := [] |} |}.

Definition sample_defaultDataUserCommitment (app : App) : string * string :=
  ("user_ciphered", "cozy").

Definition sample_calculateAppLabel (app : App) (latest : option Version)
  : string := "A".

End Samples.

(* ===================================================================== *)
(** ** lru/lru.go: sequences of calls *)
(* ===================================================================== *)

Module LruSeq.
Import Lru.

(** Successive [Get]s of the key [k] at the times [ts]: what each returns,
    and the cache after the last. *)
Fixpoint Gets (c : Cache) (k : string) (ts : list Z)
  : Run (list (list byte * bool) * Cache) :=
  match ts with
  | [] => Returns ([], c)
  | t :: ts' =>
      match Get c k t with
      | Blocked => Blocked
      | Returns (v, ok, c') =>
          match Gets c' k ts' with
          | Blocked => Blocked
          | Returns (rs, c'') => Returns ((v, ok) :: rs, c'')
          end
      end
  end.

(** Each time of [ts] is at most [ttl] after the one before it, the first
    at most [ttl] after [t0]. *)
Fixpoint paced (ttl t0 : Z) (ts : list Z) : Prop :=
  match ts with
  | [] => True
  | t :: ts' => t - t0 <= ttl /\ paced ttl t ts'
  end.

(** The keys of [l] other than [k], in order. *)
Definition others (k : string) (l : list string) : list string :=
  List.filter (fun x => negb (String.eqb x k)) l.

End LruSeq.

Module LruCalls.
Import Lru.

(** A call of one of the exported methods of a cache. *)
Inductive call : Type :=
| CallAdd (k : string) (v : list byte) (now : Z)
| CallGet (k : string) (now : Z)
| CallRemove (k : string)
| CallRemoveOldest.

(** The cache after one call. *)
Definition after (c : Cache) (o : call) : Run Cache :=
  match o with
  | CallAdd k v now => Add c k v now
  | CallGet k now =>
      match Get c k now with
      | Returns (_, _, c') => Returns c'
      | Blocked => Blocked
      end
  | CallRemove k => Remove c k
  | CallRemoveOldest => RemoveOldest c
  end.

(** The cache after a sequence of calls, one after the other. *)
Fixpoint after_all (c : Cache) (os : list call) : Run Cache :=
  match os with
  | [] => Returns c
  | o :: os' =>
      match after c o with
      | Returns c' => after_all c' os'
      | Blocked => Blocked
      end
  end.

End LruCalls.

(* ===================================================================== *)
(** ** Classes of characters, to state what the patterns accept *)
(* ===================================================================== *)

Module Chars.

Definition between (lo hi : nat) (c : ascii) : bool :=
  ((lo <=? nat_of_ascii c) && (nat_of_ascii c <=? hi))%nat.

(** [A-Za-z] *)
Definition is_letter (c : ascii) : bool := between 65 90 c || between 97 122 c.

(** [0-9] *)
Definition is_digit (c : ascii) : bool := between 48 57 c.

(** [A-Za-z0-9-] *)
Definition is_slug_char (c : ascii) : bool :=
  is_letter c || is_digit c || Ascii.eqb c "-".

(** [0-9a-fA-F] *)
Definition is_hex (c : ascii) : bool :=
  is_digit c || between 97 102 c || between 65 70 c.

(** Every character of [s] passes [p]. *)
Fixpoint all_chars (p : ascii -> bool) (s : string) : bool :=
  match s with
  | EmptyString => true
  | String c s' => p c && all_chars p s'
  end.

(** What stops the reading of the digits: the end, or a character that
    is no digit. *)
Definition stops (rest : string) : Prop :=
  match rest with
  | EmptyString => True
  | String c _ => is_digit c = false
  end.

(** The slugs of the documentation: a letter, then letters, digits and
    dashes. *)
Definition is_slug (s : string) : bool :=
  match s with
  | EmptyString => false
  | String c s' => is_letter c && all_chars is_slug_char s'
  end.

End Chars.

(* ===================================================================== *)
(** ** registry/registry.go: validation and publication *)
(* ===================================================================== *)

Module Publish.
Import GoStrings Regexp VersionGrammar.

Definition validAppTypes : list string := ["webapp"; "konnector"].

Definition AppsDB : string := "registry-apps".
Definition VersDB : string := "registry-versions".

(** The errors of registry.go; [InvalidApplication] and [InvalidVersion]
    carry the fields that the message joins with a comma. *)
Inductive error : Type :=
| ErrAppNotFound
| ErrAppInvalid
| ErrVersionAlreadyExists
| ErrVersionNotFound
| InvalidApplication (fields : list string)
| InvalidVersion (fields : list string)
| ErrStore (what : string).       (* an error of the document store *)

Definition is_ErrAppNotFound (e : error) : bool :=
  match e with ErrAppNotFound => true | _ => false end.

Definition is_ErrVersionNotFound (e : error) : bool :=
  match e with ErrVersionNotFound => true | _ => false end.

(** A [time.Time]: the instant, in nanoseconds since the zero value, and
    the offset of its location ([None] for UTC). *)
Record Time : Type := mkTime {
  instant : Z;
  zone : option Z
}.

(** [time.Time{}] *)
Definition zeroTime : Time := {| instant := 0; zone := None |}.

(** [time.Now().UTC()] at the instant [now]. *)
Definition UTC (now : Z) : Time := {| instant := now; zone := None |}.

Record Developer : Type := mkDeveloper {
  dev_Name : string;
  dev_URL : string
}.

(** The [App] struct. A pointer, a map and a slice are [None] when nil;
    [app_Name] and [app_Description] point to a map, [app_Locales] to a
    slice. *)
Record App : Type := mkApp {
  app_ID : string;
  app_Rev : string;
  app_Slug : string;
  app_Name : option (option (gmap string string));
  app_Type : string;
  app_Editor : string;
  app_Developer : option Developer;
  app_Description : option (option (gmap string string));
  app_Category : string;
  app_Repository : string;
  app_CreatedAt : Time;
  app_UpdatedAt : Time;
  app_Locales : option (option (list string));
  app_Tags : option (list string);
  app_LogoURL : string;
  app_ScreenshotURLs : option (list string);
  app_Versions : option Registry.AppVersions
}.

#[export] Instance Time_eq_dec : EqDecision Time.
Proof. solve_decision. Defined.

#[export] Instance Developer_eq_dec : EqDecision Developer.
Proof. solve_decision. Defined.

#[export] Instance AppVersions_eq_dec : EqDecision Registry.AppVersions.
Proof. solve_decision. Defined.

#[export] Instance App_eq_dec : EqDecision App.
Proof. solve_decision. Defined.

(** [reflect.DeepEqual(app, oldApp)] on two [*App]: the fields are
    compared one by one, a nil map or slice differs from an empty one. *)
Definition DeepEqual (a b : App) : bool := bool_decide (a = b).

(** The document store and the finders, as [CreateOrUpdateApp] and
    [CreateVersion] call them. *)
Record Store : Type := mkStore {
  client_DB : string -> option error;          (* [client.DB(ctx, name)] *)
  FindApp : string -> error + App;
  FindAppVersions : string -> error + Registry.AppVersions;
  FindVersion : string -> string -> error + Registry.Version;
  AppsDB_CreateDoc : App -> option error;
  AppsDB_Put : string -> App -> option error;
  VersDB_CreateDoc : Registry.Version -> option error
}.

(** A document that the store has accepted. *)
Inductive Write : Type :=
| CreatedApp (doc : App)
| PutApp (id : string) (doc : App)
| CreatedVersion (doc : Registry.Version).

(** What a call of [CreateOrUpdateApp] leaves: the three results, the
    caller's [app] as the call has rewritten it, and the writes that the
    store has accepted. *)
Record Outcome : Type := mkOutcome {
  result : option App;
  updated : bool;
  err : option error;
  app_after : App;
  writes : list Write
}.

Section Validation.

(** Whether [url.Parse] returns an error. *)
Variable url_Parse_err : string -> bool.

Definition IsValidApp (app : App) : option error :=
  if String.eqb (app_Slug app) ""
     || negb (MatchString validSlugReg (app_Slug app))
  then Some ErrAppInvalid
  else
    let fields := [] in
    let fields := if String.eqb (app_Editor app) ""
                  then (fields ++ ["editor"])%list else fields in
    let fields := if negb (Registry.stringInArray (app_Type app) validAppTypes)
                  then (fields ++ ["type"])%list else fields in
    let fields := if negb (String.eqb (app_Repository app) "")
                     && url_Parse_err (app_Repository app)
                  then (fields ++ ["repository"])%list else fields in
    if (0 <? length fields)%nat
    then Some (InvalidApplication fields)
    else None.

Definition IsValidVersion (ver : Registry.VersionOptions) : option error :=
  let fields := [] in
  let fields := if String.eqb (Registry.opt_Version ver) ""
                then (fields ++ ["version"])%list else fields in
  let fields := if String.eqb (Registry.opt_URL ver) ""
                then (fields ++ ["url"])%list
                else if url_Parse_err (Registry.opt_URL ver)
                then (fields ++ ["url"])%list else fields in
  let '(h, err) := GoHex.DecodeString (Registry.opt_Sha256 ver) in
  let fields := if err || negb (length h =? 32)%nat
                then (fields ++ ["sha256"])%list else fields in
  if (0 <? length fields)%nat
  then Some (InvalidVersion fields)
  else None.

(** The early [return] with the named results as they stand. *)
Definition failed (e : error) (app : App) (ws : list Write) : Outcome :=
  {| result := None; updated := false; err := Some e;
     app_after := app; writes := ws |}.

(** [if p == nil { p = d }] *)
Definition or_else {A : Type} (p d : option A) : option A :=
  match p with
  | None => d
  | Some _ => p
  end.

(** The branch of [CreateOrUpdateApp] for a slug that is not in the
    store yet. *)
Definition createApp (st : Store) (app : App) (editorName : string) (now : Z)
  : Outcome :=
  let id := Registry.getAppID (app_Slug app) in
  let app :=
    {| app_ID := id;
       app_Rev := app_Rev app;
       app_Slug := id;
       app_Name := or_else (app_Name app) (Some (Some ∅));
       app_Type := app_Type app;
       app_Editor := editorName;
       app_Developer := app_Developer app;
       app_Description := or_else (app_Description app) (Some (Some ∅));
       app_Category := app_Category app;
       app_Repository := app_Repository app;
       app_CreatedAt := UTC now;
       app_UpdatedAt := UTC now;
       app_Locales := or_else (app_Locales app) (Some (Some []));
       app_Tags := or_else (app_Tags app) (Some []);
       app_LogoURL := app_LogoURL app;
       app_ScreenshotURLs := or_else (app_ScreenshotURLs app) (Some []);
       app_Versions := None |} in
  match AppsDB_CreateDoc st app with
  | Some e => failed e app []
  | None =>
      let app' :=
        {| app_ID := app_ID app; app_Rev := app_Rev app;
           app_Slug := app_Slug app; app_Name := app_Name app;
           app_Type := app_Type app; app_Editor := app_Editor app;
           app_Developer := app_Developer app;
           app_Description := app_Description app;
           app_Category := app_Category app;
           app_Repository := app_Repository app;
           app_CreatedAt := app_CreatedAt app;
           app_UpdatedAt := app_UpdatedAt app;
           app_Locales := app_Locales app; app_Tags := app_Tags app;
           app_LogoURL := app_LogoURL app;
           app_ScreenshotURLs := app_ScreenshotURLs app;
           app_Versions :=
             Some {| Registry.av_Stable := []; Registry.av_Beta := [];
                     Registry.av_Dev := [] |} |} in
      {| result := Some app'; updated := true; err := None;
         app_after := app'; writes := [CreatedApp app] |}
  end.

(** [oldApp] after [oldApp.Versions = nil] and
    [oldApp.UpdatedAt = time.Time{}]. *)
Definition blanked (oldApp : App) : App :=
  {| app_ID := app_ID oldApp; app_Rev := app_Rev oldApp;
     app_Slug := app_Slug oldApp; app_Name := app_Name oldApp;
     app_Type := app_Type oldApp; app_Editor := app_Editor oldApp;
     app_Developer := app_Developer oldApp;
     app_Description := app_Description oldApp;
     app_Category := app_Category oldApp;
     app_Repository := app_Repository oldApp;
     app_CreatedAt := app_CreatedAt oldApp;
     app_UpdatedAt := zeroTime;
     app_Locales := app_Locales oldApp; app_Tags := app_Tags oldApp;
     app_LogoURL := app_LogoURL oldApp;
     app_ScreenshotURLs := app_ScreenshotURLs oldApp;
     app_Versions := None |}.

(** [app] after the assignments from [oldApp] that come before the
    comparison. *)
Definition merged (app oldApp : App) (editorName : string) : App :=
  {| app_ID := app_ID oldApp;
     app_Rev := app_Rev oldApp;
     app_Slug := app_Slug oldApp;
     app_Name := or_else (app_Name app) (app_Name oldApp);
     app_Type := app_Type oldApp;
     app_Editor := editorName;
     app_Developer := or_else (app_Developer app) (app_Developer oldApp);
     app_Description := or_else (app_Description app) (app_Description oldApp);
     app_Category := if String.eqb (app_Category app) ""
                     then app_Category oldApp else app_Category app;
     app_Repository := if String.eqb (app_Repository app) ""
                       then app_Repository oldApp else app_Repository app;
     app_CreatedAt := app_CreatedAt oldApp;
     app_UpdatedAt := app_UpdatedAt app;
     app_Locales := or_else (app_Locales app) (app_Locales oldApp);
     app_Tags := or_else (app_Tags app) (app_Tags oldApp);
     app_LogoURL := app_LogoURL app;
     app_ScreenshotURLs :=
       or_else (app_ScreenshotURLs app) (app_ScreenshotURLs oldApp);
     app_Versions := None |}.

Definition with_UpdatedAt (app : App) (t : Time) : App :=
  {| app_ID := app_ID app; app_Rev := app_Rev app;
     app_Slug := app_Slug app; app_Name := app_Name app;
     app_Type := app_Type app; app_Editor := app_Editor app;
     app_Developer := app_Developer app;
     app_Description := app_Description app;
     app_Category := app_Category app;
     app_Repository := app_Repository app;
     app_CreatedAt := app_CreatedAt app;
     app_UpdatedAt := t;
     app_Locales := app_Locales app; app_Tags := app_Tags app;
     app_LogoURL := app_LogoURL app;
     app_ScreenshotURLs := app_ScreenshotURLs app;
     app_Versions := app_Versions app |}.

Definition with_Versions (app : App) (v : option Registry.AppVersions) : App :=
  {| app_ID := app_ID app; app_Rev := app_Rev app;
     app_Slug := app_Slug app; app_Name := app_Name app;
     app_Type := app_Type app; app_Editor := app_Editor app;
     app_Developer := app_Developer app;
     app_Description := app_Description app;
     app_Category := app_Category app;
     app_Repository := app_Repository app;
     app_CreatedAt := app_CreatedAt app;
     app_UpdatedAt := app_UpdatedAt app;
     app_Locales := app_Locales app; app_Tags := app_Tags app;
     app_LogoURL := app_LogoURL app;
     app_ScreenshotURLs := app_ScreenshotURLs app;
     app_Versions := v |}.

(** The branch of [CreateOrUpdateApp] for a slug that the store holds. *)
Definition updateApp (st : Store) (app oldApp : App) (editorName : string)
    (now : Z) : Outcome :=
  let app := merged app oldApp editorName in
  if DeepEqual app (blanked oldApp)
  then {| result := Some app; updated := false; err := None;
          app_after := app; writes := [] |}
  else
    let app := with_UpdatedAt app (UTC now) in
    match AppsDB_Put st (app_ID app) app with
    | Some e => failed e app []
    | None =>
        match FindAppVersions st (app_Slug app) with
        | inl e =>
            (* [app.Versions, err = FindAppVersions(...)] has assigned the
               nil result before the [return] *)
            failed e app [PutApp (app_ID app) app]
        | inr versions =>
            let app' := with_Versions app (Some versions) in
            {| result := Some app'; updated := true; err := None;
               app_after := app'; writes := [PutApp (app_ID app) app] |}
        end
    end.

(** [CreateOrUpdateApp(app, editor)], called at the instant [now] by the
    editor whose [Name()] is [editorName]. *)
Definition CreateOrUpdateApp (st : Store) (app : App) (editorName : string)
    (now : Z) : Outcome :=
  match IsValidApp app with
  | Some e => failed e app []
  | None =>
      match client_DB st AppsDB with
      | Some e => failed e app []
      | None =>
          match FindApp st (app_Slug app) with
          | inl e =>
              if is_ErrAppNotFound e
              then createApp st app editorName now
              else failed e app []
          | inr oldApp => updateApp st app oldApp editorName now
          end
      end
  end.

End Validation.

(** The document of a write on the apps database. *)
Definition written_app (w : Write) : option App :=
  match w with
  | CreatedApp doc => Some doc
  | PutApp _ doc => Some doc
  | CreatedVersion _ => None
  end.

(** A document as the store hands it back: with the revision that the
    store has given it. *)
Definition with_Rev (app : App) (rev : string) : App :=
  {| app_ID := app_ID app; app_Rev := rev;
     app_Slug := app_Slug app; app_Name := app_Name app;
     app_Type := app_Type app; app_Editor := app_Editor app;
     app_Developer := app_Developer app;
     app_Description := app_Description app;
     app_Category := app_Category app;
     app_Repository := app_Repository app;
     app_CreatedAt := app_CreatedAt app;
     app_UpdatedAt := app_UpdatedAt app;
     app_Locales := app_Locales app; app_Tags := app_Tags app;
     app_LogoURL := app_LogoURL app;
     app_ScreenshotURLs := app_ScreenshotURLs app;
     app_Versions := app_Versions app |}.

Definition with_owner (ver : Registry.Version) (app : App) : Registry.Version :=
  {| Registry.ver_ID := Registry.ver_ID ver;
     Registry.ver_Rev := Registry.ver_Rev ver;
     Registry.ver_Attachments := Registry.ver_Attachments ver;
     Registry.ver_Slug := app_Slug app;
     Registry.ver_Editor := app_Editor app;
     Registry.ver_Type := app_Type app;
     Registry.ver_Version := Registry.ver_Version ver;
     Registry.ver_Manifest := Registry.ver_Manifest ver;
     Registry.ver_CreatedAt := Registry.ver_CreatedAt ver;
     Registry.ver_URL := Registry.ver_URL ver;
     Registry.ver_Size := Registry.ver_Size ver;
     Registry.ver_Sha256 := Registry.ver_Sha256 ver;
     Registry.ver_TarPrefix := Registry.ver_TarPrefix ver |}.

(** [CreateVersion(ver, app)]: the error, the caller's [ver] after the
    call, and the writes that the store has accepted. *)
Definition CreateVersion (st : Store) (ver : Registry.Version) (app : App)
  : option error * Registry.Version * list Write :=
  match FindVersion st (Registry.ver_Slug ver) (Registry.ver_Version ver) with
  | inr _ => (Some ErrVersionAlreadyExists, ver, [])
  | inl e =>
      if negb (is_ErrVersionNotFound e) then (Some e, ver, [])
      else
        let ver := with_owner ver app in
        match client_DB st VersDB with
        | Some e => (Some e, ver, [])
        | None =>
            match VersDB_CreateDoc st ver with
            | Some e => (Some e, ver, [])
            | None => (None, ver, [CreatedVersion ver])
            end
        end
  end.

End Publish.

(** A store and a request, to run the publication on. *)
Module PublishSamples.
Import Publish.

Definition parses (url : string) : bool := false.

Definition noVersions : Registry.AppVersions :=
  {| Registry.av_Stable := []; Registry.av_Beta := []; Registry.av_Dev := [] |}.

(** A request as decoded from a body that gives a slug, a type, an editor
    and a category. *)
Definition request (type category : string) : App :=
  {| app_ID := ""; app_Rev := ""; app_Slug := "Drive";
     app_Name := None; app_Type := type; app_Editor := "Cozy";
     app_Developer := None; app_Description := None;
     app_Category := category; app_Repository := "";
     app_CreatedAt := zeroTime; app_UpdatedAt := zeroTime;
     app_Locales := None; app_Tags := None; app_LogoURL := "";
     app_ScreenshotURLs := None; app_Versions := None |}.

(** A store that holds the application documents [docs] and no version,
    and accepts every write. *)
Definition storeOf (docs : list App) : Store :=
  {| client_DB := fun _ => None;
     FindApp := fun slug =>
       match List.find (fun d => String.eqb (app_ID d) (Registry.getAppID slug))
                       docs with
       | Some d => inr d
       | None => inl ErrAppNotFound
       end;
     FindAppVersions := fun _ => inr noVersions;
     FindVersion := fun _ _ => inl ErrVersionNotFound;
     AppsDB_CreateDoc := fun _ => None;
     AppsDB_Put := fun _ _ => None;
     VersDB_CreateDoc := fun _ => None |}.

(** The document that the store holds after the creation of
    [request "webapp" "tools"] by the editor [Cozy] at the instant 100. *)
Definition stored : App :=
  {| app_ID := "drive"; app_Rev := "1-a"; app_Slug := "drive";
     app_Name := Some (Some ∅); app_Type := "webapp"; app_Editor := "Cozy";
     app_Developer := None; app_Description := Some (Some ∅);
     app_Category := "tools"; app_Repository := "";
     app_CreatedAt := UTC 100; app_UpdatedAt := UTC 100;
     app_Locales := Some (Some []); app_Tags := Some []; app_LogoURL := "";
     app_ScreenshotURLs := Some []; app_Versions := None |}.

End PublishSamples.

(** A space whose store answers every request with an error. *)
Module FindersSamples.
Import Registry.

Definition downSpace : Space :=
  {| AppsDB_Find := fun _ => inl (ErrStore "down");
     versionViewQuery := fun _ _ _ => inl (ErrStore "down") |}.

End FindersSamples.

(* ===================================================================== *)
(** ** registry/finders.go: the lookups by identifier *)
(* ===================================================================== *)

Module Lookup.
Import GoStrings Regexp VersionGrammar Lru Registry.

(** What [db.Get] followed by [row.ScanDoc] yields: the document, a
    status 404, or another error. *)
Inductive Got (A : Type) : Type :=
| Doc (doc : A)
| NotFound
| Failed (what : string).
Arguments Doc {A} doc.
Arguments NotFound {A}.
Arguments Failed {A} what.

(** A row of [AllDocs] on a versions database. *)
Record VersionRow : Type := mkVersionRow {
  vrow_ID : string;
  vrow_Doc : option Version
}.

(** The databases of a [Space], as the lookups read them. *)
Record Dbs : Type := mkDbs {
  dbApps : string -> Got App;
  dbVers : string -> Got Version;
  dbPendingVers : string -> Got Version;
  dbPendingVers_AllDocs : error + list VersionRow;
  (* [c.dbApps.Find] on the request of [GetMaintainanceApps] *)
  dbApps_Find_maintenance : error + list AppRow
}.

Definition findApp (d : Dbs) (appSlug : string) : error + App :=
  if negb (MatchString validSlugReg appSlug) then inl ErrAppSlugInvalid
  else match dbApps d (getAppID appSlug) with
       | Doc doc => inr doc
       | NotFound => inl ErrAppNotFound
       | Failed what => inl (ErrStore what)
       end.

(** The loop of [findVersion] over its databases. *)
Fixpoint findVersion_in (id : string) (dbs : list (string -> Got Version))
  : error + Version :=
  match dbs with
  | [] => inl ErrVersionNotFound
  | db :: rest =>
      match db id with
      | Doc doc => inr doc
      | NotFound => findVersion_in id rest
      | Failed what => inl (ErrStore what)
      end
  end.

Definition findVersion (appSlug version : string)
    (dbs : list (string -> Got Version)) : error + Version :=
  if negb (MatchString validSlugReg appSlug) then inl ErrAppSlugInvalid
  else if negb (MatchString validVersionReg version) then inl ErrVersionInvalid
  else findVersion_in (getVersionID appSlug version) dbs.

Definition FindPendingVersion (d : Dbs) (appSlug version : string)
  : error + Version :=
  findVersion appSlug version [dbPendingVers d].

Definition FindPublishedVersion (d : Dbs) (appSlug version : string)
  : error + Version :=
  findVersion appSlug version [dbVers d].

Definition FindVersion (d : Dbs) (appSlug version : string)
  : error + Version :=
  findVersion appSlug version [dbVers d; dbPendingVers d].

(** The loop of [GetPendingVersions]. *)
Fixpoint scanVersions (rs : list VersionRow) : error + list Version :=
  match rs with
  | [] => inr []
  | r :: rs' =>
      if HasPrefix (vrow_ID r) "_design" then scanVersions rs'
      else match vrow_Doc r with
           | None => inl (ErrStore "ScanDoc")
           | Some version => vs ← scanVersions rs'; inr (version :: vs)
           end
  end.

Definition GetPendingVersions (d : Dbs) : error + list Version :=
  rows ← dbPendingVers_AllDocs d; scanVersions rows.

(** The loop of [GetMaintainanceApps] is the one of [GetAppsList]. *)
Definition GetMaintainanceApps (d : Dbs) : error + list App :=
  rows ← dbApps_Find_maintenance d; scanApps rows.

(** The answer of the store to one [db.Query] on a view. *)
Inductive QueryAnswer : Type :=
| QRows (rs : Rows)
| Q404
| QFailed (what : string).

(** The store as [versionViewQuery] drives it: its answer to the first,
    second, ... [db.Query], and to the [createVersionsViews] that follows
    each. *)
Record ViewStore : Type := mkViewStore {
  db_Query : nat -> QueryAnswer;
  createVersionsViews : nat -> option error
}.

(** [versionViewQuery] from its call number [i] on, followed for [fuel]
    calls; [None] when the recursion has not returned by then. *)
Fixpoint versionViewQuery_from (fuel : nat) (s : ViewStore) (i : nat)
  : option (error + Rows) :=
  match fuel with
  | O => None
  | S fuel' =>
      match db_Query s i with
      | QRows rs => Some (inr rs)
      | QFailed what => Some (inl (ErrStore what))
      | Q404 =>
          match createVersionsViews s i with
          | Some err => Some (inl err)
          | None => versionViewQuery_from fuel' s (S i)
          end
      end
  end.

(** [r] with its value, if any, as a list of one. *)
Definition single {A : Type} (r : Res A) : Res (list A) :=
  match r with
  | Ok a => Ok [a]
  | Err e => Err e
  | Panic => Panic
  end.

Section FindApp.

Variable json_Unmarshal_Version : list byte -> option Version.
Variable json_Marshal_AppVersions : AppVersions -> option (list byte).
Variable json_Unmarshal_AppVersions : list byte -> option AppVersions.
Variable defaultDataUserCommitment : App -> string * string.
Variable calculateAppLabel : App -> option Version -> string.

(** [FindApp(c, appSlug, channel)], run at time [now]. *)
Definition FindApp (c : Space) (d : Dbs) (cs : Caches) (appSlug : string)
    (channel : Channel) (now : Z) : Run (Res App * Caches) :=
  match findApp d appSlug with
  | inl err => Returns (Err err, cs)
  | inr doc =>
      let doc := set_commitment doc (defaultDataUserCommitment doc) in
      '(rv, cs) ← FindAppVersions json_Marshal_AppVersions
                     json_Unmarshal_AppVersions c cs (app_Slug doc) channel now;
      match (rv : Res AppVersions) with
      | Panic => Returns (Panic, cs)
      | Err e => Returns (Err e, cs)
      | Ok versions =>
          '(rl, cs) ← FindLatestVersion json_Unmarshal_Version c cs
                         (app_Slug doc) Stable now;
          let finish (latest : option Version) :=
            let doc := set_versions doc (Some versions) latest
                         (app_Label doc) in
            let doc := set_versions doc (Some versions) latest
                         (calculateAppLabel doc latest) in
            Returns (Ok doc, cs) in
          match (rl : Res Version) with
          | Panic => Returns (Panic, cs)
          | Err e => if is_ErrVersionNotFound e then finish None
                     else Returns (Err e, cs)
          | Ok latest => finish (Some latest)
          end
      end
  end.

End FindApp.

End Lookup.

(** Databases to run the lookups on. *)
Module LookupSamples.
Import Registry Lookup.

Definition pendingVersion : Version :=
  {| ver_ID := "drive-1.0.0"; ver_Rev := "1-p"; ver_Attachments := [];
     ver_Slug := "drive"; ver_Editor := "Cozy"; ver_Type := "webapp";
     ver_Version := "1.0.0"; ver_Manifest := []; ver_CreatedAt := 0;
     ver_URL := ""; ver_Size := 0; ver_Sha256 := ""; ver_TarPrefix := "" |}.

Definition at_id {A : Type} (id : string) (doc : A) : string -> Got A :=
  fun i => if String.eqb i id then Doc doc else NotFound.

(** The app [drive] with one pending version and no published one. *)
Definition sampleDbs : Dbs :=
  {| dbApps := at_id "drive" (Samples.sampleApp "drive");
     dbVers := fun _ => NotFound;
     dbPendingVers := at_id "drive-1.0.0" pendingVersion;
     dbPendingVers_AllDocs :=
       inr [ {| vrow_ID := "_design/versions-drive"; vrow_Doc := None |};
             {| vrow_ID := "drive-1.0.0"; vrow_Doc := Some pendingVersion |} ];
     dbApps_Find_maintenance := inr [] |}.

(** A store where the views of an app are missing until they have been
    created once. *)
Definition lazyViews (rs : Rows) : ViewStore :=
  {| db_Query := fun i => match i with O => Q404 | S _ => QRows rs end;
     createVersionsViews := fun _ => None |}.

End LookupSamples.

(** The fetch [f] with the entries [es] in place of its own. *)
Module Archive.
Import Registry.

Definition with_entries (f : Fetch) (es : list TarEntry) : Fetch :=
  {| requestErr := requestErr f; StatusCode := StatusCode f;
     ContentType := ContentType f; gzipErr := gzipErr f;
     entries := es; ending := ending f;
     written := written f; sum := sum f |}.

(** The type that the loop has recorded goes with the manifest that it
    has kept. *)
Definition typed (st : scan) : Prop :=
  appType st = "webapp" \/ appType st = "konnector" \/
  (appType st = "" /\ manifestContent st = []).

(** A request for a dev version that is cut short, on the archive [es]. *)
Definition shortDevOptions : VersionOptions := Samples.sampleOptions "1.2-dev.abc".

End Archive.

(* ===================================================================== *)
(** ** registry/registry.go, the views: the map functions in JavaScript *)
(* ===================================================================== *)

Module Views.
Import GoStrings.

(** The values that the map functions handle. A number is an integer, or
    [NaN] when [None]. *)
Inductive JSValue : Type :=
| JSUndefined
| JSNumber (n : option Z)
| JSString (s : string).

(** [a[i]] on an array of strings: [undefined] past the end. *)
Definition at_index (a : list string) (i : nat) : JSValue :=
  match nth_error a i with
  | Some s => JSString s
  | None => JSUndefined
  end.

(** [s.split(sep)] for a separator that is not empty. *)
Definition split (s sep : string) : list string := Split s sep.

(** The white space and the line terminators that [parseInt] skips, as
    UTF-8: what is left of [s] after one of them, if [s] starts with
    one. *)
Definition skip_space (s : string) : option string :=
  match s with
  | String c r =>
      let n := nat_of_ascii c in
      if ((9 <=? n) && (n <=? 13) || (n =? 32))%nat then Some r
      else
        match n, r with
        | 194%nat, String d r' =>       (* U+00A0 *)
            if (nat_of_ascii d =? 160)%nat then Some r' else None
        | 225%nat, String d (String e r') =>      (* U+1680 *)
            if ((nat_of_ascii d =? 154) && (nat_of_ascii e =? 128))%nat
            then Some r' else None
        | 226%nat, String d (String e r') =>
            let m := nat_of_ascii e in
            if (nat_of_ascii d =? 128)%nat
            then (* U+2000..U+200A, U+2028, U+2029, U+202F *)
              if ((128 <=? m) && (m <=? 138) || (m =? 168) || (m =? 169)
                  || (m =? 175))%nat
              then Some r' else None
            else if ((nat_of_ascii d =? 129) && (m =? 159))%nat   (* U+205F *)
            then Some r' else None
        | 227%nat, String d (String e r') =>      (* U+3000 *)
            if ((nat_of_ascii d =? 128) && (nat_of_ascii e =? 128))%nat
            then Some r' else None
        | 239%nat, String d (String e r') =>      (* U+FEFF *)
            if ((nat_of_ascii d =? 187) && (nat_of_ascii e =? 191))%nat
            then Some r' else None
        | _, _ => None
        end
  | EmptyString => None
  end.

(** [s] without its leading white space; a string of length [n] loses at
    most [n] of them. *)
Fixpoint trim_left (fuel : nat) (s : string) : string :=
  match fuel with
  | O => s
  | S fuel' =>
      match skip_space s with
      | Some r => trim_left fuel' r
      | None => s
      end
  end.

(** The value of [c] as a digit of the radix [R], 10 or 16. *)
Definition digit_value (R : Z) (c : ascii) : option Z :=
  let n := Z.of_nat (nat_of_ascii c) in
  if (48 <=? n) && (n <=? 57) then Some (n - 48)
  else if (R =? 16) && (97 <=? n) && (n <=? 102) then Some (n - 87)
  else if (R =? 16) && (65 <=? n) && (n <=? 70) then Some (n - 55)
  else None.

(** The number that the leading digits of [s] denote, after [acc]. *)
Fixpoint digits_from (R acc : Z) (s : string) : Z :=
  match s with
  | EmptyString => acc
  | String c s' =>
      match digit_value R c with
      | Some d => digits_from R (R * acc + d) s'
      | None => acc
      end
  end.

(** [parseInt(x, 10)] when [radix10], [parseInt(x)] otherwise, on a
    string or [undefined]: the white space is skipped, then a sign, then
    without radix a prefix [0x] or [0X] that makes the radix 16, and the
    digits that follow are read; without a digit there the result is
    [NaN]. The value is the integer that the digits denote, of which the
    JavaScript number is the nearest double. *)
Definition parseInt (radix10 : bool) (x : JSValue) : option Z :=
  match x with
  | JSString s =>
      let s := trim_left (String.length s) s in
      let '(sign, s) :=
        match s with
        | String "-" r => (-1, r)
        | String "+" r => (1, r)
        | _ => (1, s)
        end in
      let '(R, s) :=
        if radix10 then (10, s)
        else match s with
             | String "0" (String "x" r) => (16, r)
             | String "0" (String "X" r) => (16, r)
             | _ => (10, s)
             end in
      match s with
      | String c _ =>
          match digit_value R c with
          | Some _ => Some (sign * digits_from R 0 s)
          | None => None
          end
      | EmptyString => None
      end
  | _ => None        (* [undefined] reads as the string "undefined" *)
  end.

Definition getVersionChannel (version : string) : string :=
  if 0 <=? Index version "-dev." then "dev"
  else if 0 <=? Index version "-beta." then "beta"
  else "stable".

(** A document of the versions database, as far as the views read it. *)
Record Doc : Type := mkDoc {
  doc_version : string;
  doc_created_at : JSValue
}.

(** The object that [expandVersion] returns. *)
Record Expanded : Type := mkExpanded {
  v : list JSValue;
  channel : string;
  code : Z;
  exp : JSValue;
  date : JSValue
}.

(** [expandVersion(doc)]; [None] is the [TypeError] of [sp[2].split]
    when [sp[2]] is [undefined]. *)
Definition expandVersion (doc : Doc) : option Expanded :=
  let sp := split (doc_version doc) "." in
  let v0 := JSNumber (parseInt true (at_index sp 0)) in
  let v1 := JSNumber (parseInt true (at_index sp 1)) in
  let channel := getVersionChannel (doc_version doc) in
  '(v2, exp) ←
    (if String.eqb channel "stable"
     then Some ([JSNumber (parseInt true (at_index sp 2))], JSNumber (Some 0))
     else if String.eqb channel "beta"
     then match nth_error sp 2 with
          | None => None
          | Some s2 =>
              let sp := split s2 "-beta." in
              Some ([JSNumber (parseInt false (at_index sp 0))], at_index sp 1)
          end
     else if String.eqb channel "dev"
     then match nth_error sp 2 with
          | None => None
          | Some s2 =>
              let sp := split s2 "-dev." in
              Some ([JSNumber (parseInt false (at_index sp 0))],
                    JSNumber (Some 0))
          end
     else Some ([], JSNumber (Some 0)));
  Some {| v := ([v0; v1] ++ v2)%list;
          channel := channel;
          code := if String.eqb channel "stable" then 1 else 0;
          exp := exp;
          date := doc_created_at doc |}.

Section Maps.

(** [+new Date(x)]: the date in milliseconds, or [NaN]. *)
Variable Date_value : JSValue -> option Z.

(** What a map function does with a document: it throws ([None]), or
    returns after the [emit]s listed, each a key and a value. *)
Definition devView (doc : Doc) : option (list (list JSValue * string)) :=
  version ← expandVersion doc;
  let key := (v version ++ [JSNumber (Some (code version));
                            JSNumber (Date_value (date version))])%list in
  Some [(key, doc_version doc)].

Definition betaView (doc : Doc) : option (list (list JSValue * string)) :=
  version ← expandVersion doc;
  if String.eqb (channel version) "beta"
     || String.eqb (channel version) "stable"
  then
    let key := (v version ++ [JSNumber (Some (code version));
                              exp version])%list in
    Some [(key, doc_version doc)]
  else Some [].

Definition stableView (doc : Doc) : option (list (list JSValue * string)) :=
  version ← expandVersion doc;
  if String.eqb (channel version) "stable"
  then Some [(v version, doc_version doc)]
  else Some [].

End Maps.

End Views.

(* ===================================================================== *)
(** * Properties *)
(* ===================================================================== *)

(** ** Go strings *)

Module GoStringsFacts.
Import GoStrings.

Lemma length_append (a b : string) :
  String.length (a ++ b) = (String.length a + String.length b)%nat.
Proof. induction a as [|c a IH]; simpl; [reflexivity | now rewrite IH]. Qed.

Lemma append_assoc (a b c : string) : (a ++ b) ++ c = a ++ (b ++ c).
Proof. induction a as [|x a IH]; simpl; [reflexivity | now rewrite IH]. Qed.

Lemma append_nil_r (a : string) : a ++ "" = a.
Proof. induction a as [|x a IH]; simpl; [reflexivity | now rewrite IH]. Qed.

Lemma lacks_append c a b : lacks c a -> lacks c b -> lacks c (a ++ b).
Proof. induction a as [|x a IH]; simpl; [tauto | intros [? ?] ?; auto]. Qed.

Lemma take_append_exact (p r : string) : take (String.length p) (p ++ r) = p.
Proof. induction p as [|c p IH]; simpl; [now destruct r | now rewrite IH]. Qed.

Lemma drop_append_exact (p r : string) : drop (String.length p) (p ++ r) = r.
Proof. induction p as [|c p IH]; simpl; [reflexivity | exact IH]. Qed.

Lemma take_append_more (p r : string) (n : nat) :
  take (String.length p + n) (p ++ r) = p ++ take n r.
Proof. induction p as [|c p IH]; simpl; [reflexivity | now rewrite IH]. Qed.

Lemma Index_eq (s sep : string) :
  Index s sep =
    if HasPrefix s sep then 0
    else match s with
         | EmptyString => -1
         | String _ s' => let i := Index s' sep in
                          if i <? 0 then -1 else i + 1
         end.
Proof. destruct s; reflexivity. Qed.

Lemma Index_lower_bound (s sep : string) : -1 <= Index s sep.
Proof.
  induction s as [|c s IH]; rewrite Index_eq.
  - destruct (HasPrefix "" sep); lia.
  - destruct (HasPrefix (String c s) sep); [lia |]. cbv zeta.
    destruct (Index s sep <? 0) eqn:E; lia.
Qed.

Lemma Index_upper_bound (s sep : string) :
  Index s sep <= Z.of_nat (String.length s).
Proof.
  induction s as [|c s IH]; rewrite Index_eq.
  - destruct (HasPrefix "" sep); simpl; lia.
  - destruct (HasPrefix (String c s) sep); [simpl; lia |]. cbv zeta.
    destruct (Index s sep <? 0) eqn:E; simpl String.length; lia.
Qed.

(** A separator that starts with [c] is not found inside a prefix that
    lacks [c]: the search goes on in the rest. *)
Lemma Index_skip (c : ascii) (sep' p r : string) :
  lacks c p ->
  Index (p ++ r) (String c sep') =
    if Index r (String c sep') <? 0 then -1
    else Z.of_nat (String.length p) + Index r (String c sep').
Proof.
  intros Hp. induction p as [|d p IH].
  - simpl append. simpl String.length.
    pose proof (Index_lower_bound r (String c sep')).
    destruct (Index r (String c sep') <? 0) eqn:E; lia.
  - destruct Hp as [Hd Hp]. specialize (IH Hp).
    change (String d p ++ r) with (String d (p ++ r)).
    rewrite Index_eq. cbn [HasPrefix].
    destruct (Ascii.eqb_spec d c) as [->|_]; [contradiction |].
    cbn [andb]. cbv zeta. rewrite IH.
    pose proof (Index_lower_bound r (String c sep')).
    destruct (Index r (String c sep') <? 0) eqn:E; [reflexivity |].
    simpl String.length.
    destruct (Z.of_nat (String.length p) + Index r (String c sep') <? 0) eqn:E2; lia.
Qed.

Lemma HasPrefix_append (sep r : string) : HasPrefix (sep ++ r) sep = true.
Proof.
  induction sep as [|c sep IH]; simpl; [now destruct r |].
  now rewrite Ascii.eqb_refl, IH.
Qed.

Lemma Index_at_head (s sep : string) : HasPrefix s sep = true -> Index s sep = 0.
Proof. intros H. rewrite Index_eq. now rewrite H. Qed.

(** The first occurrence of a one-character separator [c] in [p ++ c ++ r]
    is after [p] when [p] lacks [c]. *)
Lemma Index_char (c : ascii) (p r : string) :
  lacks c p ->
  Index (p ++ String c r) (String c "") = Z.of_nat (String.length p).
Proof.
  intros Hp. rewrite (Index_skip c "" p (String c r) Hp).
  rewrite (Index_at_head (String c r) (String c "")).
  - simpl. lia.
  - simpl. rewrite Ascii.eqb_refl. now destruct r.
Qed.

Lemma SplitN_3_dots (a b r : string) :
  lacks "." a -> lacks "." b ->
  SplitN (a ++ "." ++ b ++ "." ++ r) "." 3 = [a; b; r].
Proof.
  intros Ha Hb.
  change (SplitN (a ++ "." ++ b ++ "." ++ r) "." 3)
    with (let s := a ++ "." ++ b ++ "." ++ r in
          let m := Index s "." in
          if m <? 0 then [s]
          else take (Z.to_nat m) s
               :: SplitN (drop (Z.to_nat m + String.length ".") s) "." 2).
  cbv zeta.
  change (a ++ "." ++ b ++ "." ++ r) with (a ++ String "." (b ++ "." ++ r)).
  rewrite (Index_char "." a _ Ha).
  destruct (Z.ltb_spec (Z.of_nat (String.length a)) 0) as [E|E]; [lia |].
  rewrite Nat2Z.id, take_append_exact.
  replace (a ++ String "." (b ++ "." ++ r)) with ((a ++ ".") ++ (b ++ "." ++ r))
    by (rewrite append_assoc; reflexivity).
  replace (String.length a + String.length ".")%nat with (String.length (a ++ "."))
    by (rewrite length_append; reflexivity).
  rewrite drop_append_exact.
  change (SplitN (b ++ "." ++ r) "." 2)
    with (let s := b ++ "." ++ r in
          let m := Index s "." in
          if m <? 0 then [s]
          else take (Z.to_nat m) s
               :: SplitN (drop (Z.to_nat m + String.length ".") s) "." 1).
  cbv zeta.
  change (b ++ "." ++ r) with (b ++ String "." r).
  rewrite (Index_char "." b _ Hb).
  destruct (Z.ltb_spec (Z.of_nat (String.length b)) 0) as [E2|E2]; [lia |].
  rewrite Nat2Z.id, take_append_exact.
  replace (b ++ String "." r) with ((b ++ ".") ++ r)
    by (rewrite append_assoc; reflexivity).
  replace (String.length b + String.length ".")%nat with (String.length (b ++ "."))
    by (rewrite length_append; reflexivity).
  rewrite drop_append_exact. reflexivity.
Qed.

End GoStringsFacts.

(** ** The derivative matcher decides the language of a pattern *)

Module RegexpFacts.
Import Regexp GoStringsFacts.

Lemma append_eq_nil (a b : string) : a ++ b = "" -> a = "" /\ b = "".
Proof. destruct a; simpl; [auto | discriminate]. Qed.

Lemma append_eq_cons (a b : string) (c : ascii) (s : string) :
  a ++ b = String c s ->
  (a = "" /\ b = String c s) \/ (exists a', a = String c a' /\ s = a' ++ b).
Proof.
  destruct a as [|d a]; simpl; intros H; [left; auto |].
  injection H as -> <-. right. eauto.
Qed.

Lemma Lang_NoMatch_inv s : Lang NoMatch s -> False.
Proof. inversion 1. Qed.

Lemma Lang_Empty_inv s : Lang EmptyMatch s -> s = "".
Proof. now inversion 1. Qed.

Lemma Lang_Chr_inv cc s :
  Lang (Chr cc) s -> exists c, s = String c "" /\ accepts cc c = true.
Proof. inversion 1; subst; eauto. Qed.

Lemma Lang_Concat_inv r1 r2 s :
  Lang (Concat r1 r2) s ->
  exists s1 s2, s = s1 ++ s2 /\ Lang r1 s1 /\ Lang r2 s2.
Proof. inversion 1; subst; eauto. Qed.

Lemma Lang_Alternate_inv r1 r2 s :
  Lang (Alternate r1 r2) s -> Lang r1 s \/ Lang r2 s.
Proof. inversion 1; subst; auto. Qed.

Lemma Lang_Star_cons_inv r c s :
  Lang (Star r) (String c s) ->
  exists s1 s2, s = s1 ++ s2 /\ Lang r (String c s1) /\ Lang (Star r) s2.
Proof.
  intros H. remember (Star r) as r' eqn:Er. remember (String c s) as w eqn:Ew.
  revert s Ew.
  induction H as [| | | | | |r0 s1 s2 H1 _ H2 IH2]; intros t Et;
    try discriminate.
  injection Er as ->.
  destruct (append_eq_cons _ _ _ _ Et) as [[-> ->]|[a' [-> ->]]].
  - apply IH2; reflexivity.
  - exists a', s2. auto.
Qed.

Lemma nullable_Lang r : nullable r = true <-> Lang r "".
Proof.
  induction r as [| |cc|r1 IH1 r2 IH2|r1 IH1 r2 IH2|r IH]; simpl.
  - split; [discriminate | intros H; destruct (Lang_NoMatch_inv _ H)].
  - split; [constructor | reflexivity].
  - split; [discriminate |].
    intros H. apply Lang_Chr_inv in H as [c [H _]]. discriminate.
  - rewrite andb_true_iff, IH1, IH2. split.
    + intros [H1 H2]. change "" with ("" ++ ""). now constructor.
    + intros H. apply Lang_Concat_inv in H as (s1 & s2 & E & H1 & H2).
      symmetry in E. apply append_eq_nil in E as [-> ->]. auto.
  - rewrite orb_true_iff, IH1, IH2. split.
    + intros [H|H]; [now apply LAltL | now apply LAltR].
    + apply Lang_Alternate_inv.
  - split; [constructor | reflexivity].
Qed.

Lemma deriv_Lang c r : forall s, Lang (deriv c r) s <-> Lang r (String c s).
Proof.
  induction r as [| |cc|r1 IH1 r2 IH2|r1 IH1 r2 IH2|r IH]; intros s; simpl.
  - split; intros H; destruct (Lang_NoMatch_inv _ H).
  - split; intros H; [destruct (Lang_NoMatch_inv _ H) |].
    apply Lang_Empty_inv in H. discriminate.
  - destruct (accepts cc c) eqn:Ea; split; intros H.
    + apply Lang_Empty_inv in H as ->. now constructor.
    + apply Lang_Chr_inv in H as (d & E & _). injection E as <- ->. constructor.
    + destruct (Lang_NoMatch_inv _ H).
    + apply Lang_Chr_inv in H as (d & E & Hd). injection E as <- ->. congruence.
  - assert (Hcat : Lang (Concat (deriv c r1) r2) s <->
                   exists a' b, s = a' ++ b /\ Lang r1 (String c a') /\ Lang r2 b).
    { split.
      - intros H. apply Lang_Concat_inv in H as (s1 & s2 & -> & H1 & H2).
        exists s1, s2. rewrite <- IH1. auto.
      - intros (a' & b & -> & H1 & H2). constructor; [now apply IH1 | assumption]. }
    assert (Hinv : Lang (Concat r1 r2) (String c s) <->
                   (Lang r1 "" /\ Lang r2 (String c s)) \/
                   exists a' b, s = a' ++ b /\ Lang r1 (String c a') /\ Lang r2 b).
    { split.
      - intros H. apply Lang_Concat_inv in H as (s1 & s2 & E & H1 & H2).
        symmetry in E.
        destruct (append_eq_cons _ _ _ _ E) as [[-> ->]|[a' [-> ->]]]; [auto |].
        right. eauto.
      - intros [[H1 H2]|(a' & b & -> & H1 & H2)].
        + change (String c s) with ("" ++ String c s). now constructor.
        + change (String c (a' ++ b)) with (String c a' ++ b). now constructor. }
    rewrite Hinv. destruct (nullable r1) eqn:En.
    + split.
      * intros H. apply Lang_Alternate_inv in H as [H|H].
        -- right. now apply Hcat.
        -- left. split; [now apply nullable_Lang | now apply IH2].
      * intros [[_ H2]|H]; [apply LAltR; now apply IH2 | apply LAltL; now apply Hcat].
    + rewrite Hcat. split; [auto |].
      intros [[H1 _]|H]; [| assumption].
      apply nullable_Lang in H1. congruence.
  - split.
    + intros H. apply Lang_Alternate_inv in H as [H|H];
        [apply LAltL; now apply IH1 | apply LAltR; now apply IH2].
    + intros H. apply Lang_Alternate_inv in H as [H|H];
        [apply LAltL; now apply IH1 | apply LAltR; now apply IH2].
  - split.
    + intros H. apply Lang_Concat_inv in H as (s1 & s2 & -> & H1 & H2).
      change (String c (s1 ++ s2)) with (String c s1 ++ s2).
      constructor; [now apply IH | assumption].
    + intros H. apply Lang_Star_cons_inv in H as (s1 & s2 & -> & H1 & H2).
      constructor; [now apply IH | assumption].
Qed.

(** [MatchString] accepts exactly the language of the pattern. *)
Lemma MatchString_Lang r s : MatchString r s = true <-> Lang r s.
Proof.
  revert r. induction s as [|c s IH]; intros r; simpl.
  - apply nullable_Lang.
  - rewrite IH. apply deriv_Lang.
Qed.

(** Concatenation and alternation are monotone in the languages of
    their parts. *)
Lemma Lang_Concat_mono (a a' b b' : regex) :
  (forall s, Lang a s -> Lang a' s) ->
  (forall s, Lang b s -> Lang b' s) ->
  forall s, Lang (Concat a b) s -> Lang (Concat a' b') s.
Proof.
  intros Ha Hb s H. apply Lang_Concat_inv in H as (s1 & s2 & -> & H1 & H2).
  constructor; auto.
Qed.

Lemma Lang_Alternate_mono (a a' b b' : regex) :
  (forall s, Lang a s -> Lang a' s) ->
  (forall s, Lang b s -> Lang b' s) ->
  forall s, Lang (Alternate a b) s -> Lang (Alternate a' b') s.
Proof.
  intros Ha Hb s H. apply Lang_Alternate_inv in H as [H|H];
    [apply LAltL | apply LAltR]; auto.
Qed.

End RegexpFacts.

(** ** The version grammar and [SplitVersion] *)

Module VersionFacts.
Import GoStrings Regexp VersionGrammar GoStringsFacts RegexpFacts.

Lemma Lang_avoids c r s : Lang r s -> avoids c r = true -> lacks c s.
Proof.
  induction 1 as [|cc d Hd|r1 r2 s1 s2 _ IH1 _ IH2|r1 r2 s _ IH|r1 r2 s _ IH
                  |r|r s1 s2 _ IH1 _ IH2]; simpl; intros Ha.
  - exact I.
  - split; [| exact I]. intros ->. rewrite Hd in Ha. discriminate.
  - apply andb_true_iff in Ha as [? ?]. apply lacks_append; auto.
  - apply andb_true_iff in Ha as [? ?]. auto.
  - apply andb_true_iff in Ha as [? ?]. auto.
  - exact I.
  - apply lacks_append; auto.
Qed.

Lemma Lang_Literal_inv t s : Lang (Literal t) s -> s = t.
Proof.
  revert s. induction t as [|c t IH]; intros s H; simpl in H.
  - now apply Lang_Empty_inv.
  - apply Lang_Concat_inv in H as (s1 & s2 & -> & H1 & H2).
    apply Lang_Chr_inv in H1 as (d & -> & Hd). simpl in Hd.
    apply Ascii.eqb_eq in Hd as ->. simpl. f_equal. auto.
Qed.

(** Every string of the grammar starts with two numbers, each followed
    by a dot; numbers hold neither a dot nor a dash. *)
Lemma valid_shape v :
  MatchString validVersionReg v = true ->
  exists n1 n2 r,
    v = n1 ++ "." ++ n2 ++ "." ++ r /\
    lacks "." n1 /\ lacks "-" n1 /\ lacks "." n2 /\ lacks "-" n2.
Proof.
  intros H. apply MatchString_Lang in H. unfold validVersionReg in H.
  apply Lang_Concat_inv in H as (n1 & s1 & -> & Hn1 & H).
  apply Lang_Concat_inv in H as (d1 & s2 & -> & Hd1 & H).
  apply Lang_Concat_inv in H as (n2 & s3 & -> & Hn2 & H).
  apply Lang_Concat_inv in H as (d2 & r & -> & Hd2 & _).
  apply Lang_Literal_inv in Hd1 as ->. apply Lang_Literal_inv in Hd2 as ->.
  exists n1, n2, r. split; [reflexivity |].
  repeat split; eapply Lang_avoids; eauto.
Qed.

Lemma slice_to_append (p r : string) (j : Z) :
  0 <= j <= Z.of_nat (String.length r) ->
  slice_to (p ++ r) (Z.of_nat (String.length p) + j) = Some (p ++ take (Z.to_nat j) r).
Proof.
  intros Hj. unfold slice_to. rewrite length_append, Nat2Z.inj_add.
  destruct (Z.leb_spec 0 (Z.of_nat (String.length p) + j)); [| lia].
  destruct (Z.leb_spec (Z.of_nat (String.length p) + j)
                       (Z.of_nat (String.length p) + Z.of_nat (String.length r))); [| lia].
  simpl. f_equal.
  replace (Z.to_nat (Z.of_nat (String.length p) + j))
    with (String.length p + Z.to_nat j)%nat by lia.
  apply take_append_more.
Qed.

(** Cutting at the first occurrence of a suffix that starts with a dash
    keeps a dash-free head whole. *)
Lemma slice_at_dash (sep' p r : string) :
  lacks "-" p ->
  0 <= Index (p ++ r) (String "-" sep') ->
  exists r', slice_to (p ++ r) (Index (p ++ r) (String "-" sep')) = Some (p ++ r').
Proof.
  intros Hp Hi. rewrite (Index_skip "-" sep' p r Hp) in *.
  pose proof (Index_lower_bound r (String "-" sep')).
  pose proof (Index_upper_bound r (String "-" sep')).
  destruct (Z.ltb_spec (Index r (String "-" sep')) 0); [lia |].
  eexists. apply slice_to_append. lia.
Qed.

(** [preSuffix] keeps a dash-free head whole, whatever the channel. *)
Lemma preSuffix_head (p r : string) :
  lacks "-" p -> exists r', preSuffix (p ++ r) = Some (p ++ r').
Proof.
  intros Hp. unfold preSuffix, GetVersionChannel, Contains, devSuffix, betaSuffix.
  destruct (Z.leb_spec 0 (Index (p ++ r) "-dev.")) as [Hd|Hd].
  - now apply slice_at_dash.
  - destruct (Z.leb_spec 0 (Index (p ++ r) "-beta.")) as [Hb|Hb].
    + now apply slice_at_dash.
    + eauto.
Qed.

Lemma head_assoc (n1 n2 r : string) :
  (n1 ++ "." ++ n2 ++ ".") ++ r = n1 ++ "." ++ n2 ++ "." ++ r.
Proof.
  rewrite append_assoc. simpl. f_equal. f_equal.
  rewrite append_assoc. reflexivity.
Qed.

Lemma SplitVersion_eq (v v' : string) :
  preSuffix v = Some v' ->
  SplitVersion v = match SplitN v' "." 3 with
                   | s0 :: s1 :: s2 :: _ => Some (s0, s1, s2)
                   | _ => None
                   end.
Proof. intros H. unfold SplitVersion. rewrite H. reflexivity. Qed.

Lemma SplitVersion_head (n1 n2 r : string) :
  lacks "." n1 -> lacks "-" n1 -> lacks "." n2 -> lacks "-" n2 ->
  exists r', SplitVersion (n1 ++ "." ++ n2 ++ "." ++ r) = Some (n1, n2, r').
Proof.
  intros H1 H1' H2 H2'.
  assert (Hp : lacks "-" (n1 ++ "." ++ n2 ++ ".")).
  { apply lacks_append; [assumption |]. simpl. split; [discriminate |].
    apply lacks_append; [assumption |]. simpl. split; [discriminate | exact I]. }
  destruct (preSuffix_head (n1 ++ "." ++ n2 ++ ".") r Hp) as [r' Hr'].
  rewrite head_assoc in Hr'. rewrite head_assoc in Hr'.
  rewrite (SplitVersion_eq _ _ Hr').
  rewrite SplitN_3_dots by assumption. eauto.
Qed.

Lemma SplitVersion_valid v :
  MatchString validVersionReg v = true -> exists t, SplitVersion v = Some t.
Proof.
  intros H. destruct (valid_shape v H) as (n1 & n2 & r & -> & H1 & H1' & H2 & H2').
  destruct (SplitVersion_head n1 n2 r H1 H1' H2 H2') as [r' Hr']. eauto.
Qed.

Lemma HasPrefix_char (c d : ascii) (s : string) :
  HasPrefix (String d s) (String c "") = Ascii.eqb d c.
Proof. simpl. destruct s; apply andb_true_r. Qed.

Lemma count_zero_Index (c : ascii) (s : string) :
  count c s = O -> Index s (String c "") = -1.
Proof.
  induction s as [|d s IH]; intros H; [reflexivity |].
  rewrite Index_eq, HasPrefix_char. simpl in H.
  destruct (Ascii.eqb d c); [discriminate |].
  cbv zeta. rewrite IH by exact H. reflexivity.
Qed.

Lemma Index_count (c : ascii) (s : string) :
  0 <= Index s (String c "") ->
  count c s = S (count c (drop (Z.to_nat (Index s (String c "")) + 1) s)).
Proof.
  induction s as [|d s IH]; [simpl; lia |].
  rewrite Index_eq, HasPrefix_char. cbn [count].
  destruct (Ascii.eqb d c); [intros _; reflexivity |].
  cbv zeta. pose proof (Index_lower_bound s (String c "")).
  destruct (Z.ltb_spec (Index s (String c "")) 0) as [Hi|Hi]; [lia |].
  intros _. rewrite (IH Hi).
  replace (Z.to_nat (Index s (String c "") + 1) + 1)%nat
    with (S (Z.to_nat (Index s (String c "")) + 1)) by lia.
  reflexivity.
Qed.

(** With fewer than two dots [SplitN(_, ".", 3)] yields fewer than three
    pieces. *)
Lemma SplitN_few_dots (s : string) :
  (count "." s < 2)%nat -> (length (SplitN s "." 3) < 3)%nat.
Proof.
  intros Hc.
  change (SplitN s "." 3)
    with (if Index s "." <? 0 then [s]
          else take (Z.to_nat (Index s ".")) s
               :: SplitN (drop (Z.to_nat (Index s ".") + 1) s) "." 2).
  destruct (Z.ltb_spec (Index s ".") 0) as [Hi|Hi]; [simpl; lia |].
  pose proof (Index_count "." s Hi) as Hs.
  set (s' := drop (Z.to_nat (Index s ".") + 1) s) in *.
  assert (Hs' : count "." s' = O) by lia.
  change (SplitN s' "." 2)
    with (if Index s' "." <? 0 then [s']
          else take (Z.to_nat (Index s' ".")) s'
               :: SplitN (drop (Z.to_nat (Index s' ".") + 1) s') "." 1).
  rewrite (count_zero_Index "." s' Hs'). simpl. lia.
Qed.

Lemma SplitVersion_few_dots (v v' : string) :
  preSuffix v = Some v' -> (count "." v' < 2)%nat -> SplitVersion v = None.
Proof.
  intros Hp Hc. rewrite (SplitVersion_eq _ _ Hp).
  pose proof (SplitN_few_dots v' Hc) as Hl.
  destruct (SplitN v' "." 3) as [|s0 [|s1 [|s2 l]]]; try reflexivity.
  simpl in Hl. lia.
Qed.

(** C10. [SplitVersion], and with it [VersionMatch] and [VersionLess],
    returns on every string that [validVersionReg] accepts. It panics on
    ["1.2"], which the pattern rejects, and on every string whose part
    before the channel suffix has fewer than two dots; the two
    comparison functions panic with it. *)
Theorem SplitVersion_needs_valid_version :
  (forall v, MatchString validVersionReg v = true ->
             exists t, SplitVersion v = Some t) /\
  (forall a b, MatchString validVersionReg a = true ->
               MatchString validVersionReg b = true ->
               (exists m, VersionMatch a b = Some m) /\
               (exists l, VersionLess a b = Some l)) /\
  (MatchString validVersionReg "1.2" = false /\
   SplitVersion "1.2" = None /\
   forall b, VersionMatch "1.2" b = None /\ VersionLess "1.2" b = None) /\
  (forall v v', preSuffix v = Some v' -> (count "." v' < 2)%nat ->
                SplitVersion v = None /\
                forall b, VersionMatch v b = None /\ VersionLess v b = None).
Proof.
  split; [exact SplitVersion_valid |].
  split.
  { intros a b Ha Hb.
    destruct (SplitVersion_valid a Ha) as [[[a0 a1] a2] Ea].
    destruct (SplitVersion_valid b Hb) as [[[b0 b1] b2] Eb].
    unfold VersionMatch, VersionLess. rewrite Ea, Eb. simpl. eauto. }
  split.
  { split; [reflexivity |]. split; [reflexivity |].
    intros b. split; reflexivity. }
  intros v v' Hp Hc. pose proof (SplitVersion_few_dots v v' Hp Hc) as E.
  split; [exact E |].
  intros b. unfold VersionMatch, VersionLess. rewrite E. split; reflexivity.
Qed.

Lemma SplitVersion_needs_valid_version_witness :
  MatchString validVersionReg "1.2.3-dev.abc" = true /\
  MatchString validVersionReg "10.0.0-beta.2" = true /\
  (exists t, SplitVersion "1.2.3-dev.abc" = Some t) /\
  ((exists m, VersionMatch "1.2.3-dev.abc" "10.0.0-beta.2" = Some m) /\
   (exists l, VersionLess "1.2.3-dev.abc" "10.0.0-beta.2" = Some l)) /\
  preSuffix "7-beta.1" = Some "7" /\
  (count "." "7" < 2)%nat /\
  SplitVersion "7-beta.1" = None.
Proof.
  split; [reflexivity |]. split; [reflexivity |].
  split.
  { apply (proj1 SplitVersion_needs_valid_version). reflexivity. }
  split.
  { apply (proj1 (proj2 SplitVersion_needs_valid_version)); reflexivity. }
  split; [reflexivity |]. split; [simpl; lia |].
  apply (proj2 (proj2 (proj2 SplitVersion_needs_valid_version)) "7-beta.1" "7");
    [reflexivity | simpl; lia].
Defined.

(** Every version of section 4.1 is accepted by [validVersionReg]. *)
Lemma spec_grammar_accepted (s : string) :
  MatchString Spec.specVersionReg s = true ->
  MatchString validVersionReg s = true.
Proof.
  rewrite !MatchString_Lang. revert s.
  unfold Spec.specVersionReg, validVersionReg, Quest.
  do 5 (apply Lang_Concat_mono; [auto |]).
  apply Lang_Alternate_mono; [auto |].
  apply Lang_Alternate_mono; [auto |].
  apply Lang_Concat_mono; [auto |].
  apply Lang_Concat_mono; [| auto].
  intros s H. apply Lang_Chr_inv in H as (c & -> & Hc).
  apply Ascii.eqb_eq in Hc as ->. apply LAltL. constructor. reflexivity.
Qed.

(** The pattern on the edges of the grammar: five digits but not six,
    forty hexadecimal characters but not forty-one, no upper-case
    hexadecimal, no leading zero; after [-beta] any one rune but the
    newline, a two-byte rune included. *)
Example validVersionReg_edges :
  MatchString validVersionReg "1.2.3-beta.12345" = true /\
  MatchString validVersionReg "1.2.3-beta.123456" = false /\
  MatchString validVersionReg "01.2.3" = false /\
  MatchString validVersionReg "1.2.3-dev.0123456789abcdef0123456789abcdef01234567" = true /\
  MatchString validVersionReg "1.2.3-dev.0123456789abcdef0123456789abcdef012345678" = false /\
  MatchString validVersionReg "1.2.3-dev.ABC" = false /\
  MatchString validVersionReg "1.2.3-dev." = false /\
  MatchString validVersionReg ("1.2.3-beta" ++ String "010" "5") = false /\
  MatchString validVersionReg ("1.2.3-beta" ++ String "195" (String "169" "5")) = true.
Proof. repeat split; reflexivity. Qed.

(** C7. [validVersionReg] accepts ["1.2.3-betaX5"], where the character
    after [-beta] is not a dot. The grammar of section 4.1 rejects that
    string; the dot after [-dev] is escaped in the pattern and the one
    after [-beta] is not. *)
Theorem validVersionReg_beta_separator_unescaped :
  MatchString validVersionReg "1.2.3-betaX5" = true /\
  MatchString Spec.specVersionReg "1.2.3-betaX5" = false /\
  MatchString validVersionReg "1.2.3-beta-5" = true /\
  MatchString validVersionReg "1.2.3-beta.5" = true /\
  MatchString validVersionReg "1.2.3-devXabc" = false /\
  GetVersionChannel "1.2.3-betaX5" = Stable /\
  SplitVersion "1.2.3-betaX5" = Some ("1", "2", "3-betaX5").
Proof. repeat split; reflexivity. Qed.

(** C4. [VersionLess] compares the components as strings: it puts
    ["10.0.0"] before ["9.0.0"], and does not put ["9.0.0"] before
    ["10.0.0"]. Both are versions of the grammar, and as numbers 9 comes
    before 10. *)
Theorem VersionLess_compares_strings :
  MatchString validVersionReg "10.0.0" = true /\
  MatchString validVersionReg "9.0.0" = true /\
  VersionLess "10.0.0" "9.0.0" = Some true /\
  Spec.specLess "10.0.0" "9.0.0" = Some false /\
  VersionLess "9.0.0" "10.0.0" = Some false /\
  Spec.specLess "9.0.0" "10.0.0" = Some true /\
  VersionLess "1.2.10" "1.2.9" = Some true /\
  Spec.specLess "1.2.10" "1.2.9" = Some false.
Proof. repeat split; reflexivity. Qed.

End VersionFacts.

(** ** The LRU+TTL cache *)

Module LruFacts.
Import Lru.

Lemma Lock_unlocked (c : Cache) :
  mu c = false ->
  Lock c = Returns {| MaxEntries := MaxEntries c; TTL := TTL c; mu := true;
                      ll := ll c; cache := cache c |}.
Proof. intros H. unfold Lock. now rewrite H. Qed.

Lemma Lock_locked (c : Cache) : mu c = true -> Lock c = Blocked.
Proof. intros H. unfold Lock. now rewrite H. Qed.

(** With the mutex held, [RemoveOldest] never returns. *)
Lemma RemoveOldest_locked (c : Cache) : mu c = true -> RemoveOldest c = Blocked.
Proof. intros H. unfold RemoveOldest. now rewrite (Lock_locked c H). Qed.

Lemma other_key_false (k : string) (e : entry) :
  other_key k e = false <-> key e = k.
Proof.
  unfold other_key. rewrite negb_false_iff. apply String.eqb_eq.
Qed.

Lemma elem_of_ll_Remove (k : string) (l : list entry) (e : entry) :
  e ∈ ll_Remove k l <-> e ∈ l /\ key e <> k.
Proof.
  unfold ll_Remove. rewrite !list_elem_of_In, filter_In.
  unfold other_key. rewrite negb_true_iff, String.eqb_neq. tauto.
Qed.

Lemma keys_ll_Remove (k : string) (l : list entry) :
  k ∉ key <$> ll_Remove k l.
Proof.
  intros H. apply list_elem_of_fmap in H as (e & -> & He).
  apply elem_of_ll_Remove in He as [_ He]. congruence.
Qed.

(** What a returning [Add] leaves behind: it ran without the eviction,
    and the map holds the value under the key, dated [now]. *)
Lemma Add_Returns_inv (c c' : Cache) (k : string) (v : list byte) (now : Z) :
  Add c k v now = Returns c' ->
  mu c = false /\ mu c' = false /\
  TTL c' = TTL c /\ MaxEntries c' = MaxEntries c /\
  exists e, cache c' = <[k := e]> (cache c) /\ value e = v /\ date e = now /\
            (keyed c -> key e = k) /\
            ll c' = e :: (match cache c !! k with
                          | Some _ => ll_Remove (key e) (ll c)
                          | None => ll c
                          end).
Proof.
  unfold Add. destruct (mu c) eqn:Hmu.
  - rewrite (Lock_locked c Hmu). discriminate.
  - rewrite (Lock_unlocked c Hmu). cbn [mbind Run_bind cache MaxEntries TTL ll mu].
    destruct (cache c !! k) as [ele|] eqn:Hk.
    + intros [= <-]. cbn. repeat split; try reflexivity.
      eexists. repeat split; try reflexivity.
      intros Hkeyed. exact (Hkeyed k ele Hk).
    + destruct (negb (MaxEntries c =? 0)
                && (MaxEntries c <? Z.of_nat (length ({| key := k; value := v; date := now |} :: ll c))))
        eqn:Hfull.
      * rewrite RemoveOldest_locked by reflexivity. discriminate.
      * intros [= <-]. cbn. repeat split; try reflexivity.
        eexists. repeat split; reflexivity.
Qed.

(** [Add] on a full cache, for a key the map does not hold, calls
    [RemoveOldest] with the mutex held and blocks. *)
Lemma Add_full_blocks (c : Cache) (k : string) (v : list byte) (now : Z) :
  mu c = false ->
  cache c !! k = None ->
  0 < MaxEntries c <= Z.of_nat (length (ll c)) ->
  Add c k v now = Blocked.
Proof.
  intros Hmu Hk [Hpos Hfull]. unfold Add.
  rewrite (Lock_unlocked c Hmu). cbn [mbind Run_bind cache MaxEntries TTL ll mu].
  rewrite Hk.
  destruct (Z.eqb_spec (MaxEntries c) 0) as [E|_]; [lia |].
  destruct (Z.ltb_spec (MaxEntries c)
              (Z.of_nat (length ({| key := k; value := v; date := now |} :: ll c))))
    as [_|E]; [| simpl in E; lia].
  cbn [negb andb]. rewrite RemoveOldest_locked by reflexivity. reflexivity.
Qed.

(** A [Get] within the TTL of the [Add] returns the value. *)
Lemma Get_after_Add (c c' : Cache) (k : string) (v : list byte) (t0 t1 : Z) :
  Add c k v t0 = Returns c' ->
  TTL c = 0 \/ t1 - t0 <= TTL c ->
  exists c'', Get c' k t1 = Returns (v, true, c'') /\
              exists e, ll c'' = e :: ll_Remove (key e) (ll c') /\
                        value e = v /\ date e = t1 /\
                        cache c'' !! k = Some e.
Proof.
  intros HA Ht.
  destruct (Add_Returns_inv _ _ _ _ _ HA)
    as (_ & Hmu' & HT & _ & e & Hc & <- & <- & _ & _).
  unfold Get. rewrite (Lock_unlocked c' Hmu').
  cbn [mbind Run_bind cache MaxEntries TTL ll mu].
  rewrite Hc, lookup_insert_eq, HT.
  assert (Hfresh : (TTL c =? 0) || (t1 - date e <=? TTL c) = true).
  { apply orb_true_iff. destruct Ht as [Ht|Ht]; [left | right]; lia. }
  rewrite Hfresh. eexists. split; [reflexivity |].
  eexists. cbn. split; [reflexivity |].
  repeat split. apply lookup_insert_eq.
Qed.

(** A [Get] after the TTL of the [Add] has run out removes the entry and
    reports a miss. *)
Lemma Get_after_TTL (c c' : Cache) (k : string) (v : list byte) (t0 t1 : Z) :
  keyed c ->
  Add c k v t0 = Returns c' ->
  0 < TTL c < t1 - t0 ->
  exists c'', Get c' k t1 = Returns ([], false, c'') /\
              cache c'' !! k = None /\ k ∉ keys c''.
Proof.
  intros Hkeyed HA Ht.
  destruct (Add_Returns_inv _ _ _ _ _ HA)
    as (_ & Hmu' & HT & _ & e & Hc & _ & Hd & Hke & _).
  specialize (Hke Hkeyed).
  unfold Get. rewrite (Lock_unlocked c' Hmu').
  cbn [mbind Run_bind cache MaxEntries TTL ll mu].
  rewrite Hc, lookup_insert_eq, HT, Hd.
  destruct (Z.eqb_spec (TTL c) 0) as [E|_]; [lia |].
  destruct (Z.leb_spec (t1 - t0) (TTL c)) as [E|_]; [lia |].
  cbn [orb]. eexists. split; [reflexivity |].
  unfold keys. cbn. rewrite Hke. split.
  - apply lookup_delete_eq.
  - apply keys_ll_Remove.
Qed.

Lemma keyed_New (n t : Z) : keyed (New n t).
Proof. intros k e H. simpl in H. rewrite lookup_empty in H. discriminate. Qed.

Lemma keyed_Add (c c' : Cache) (k : string) (v : list byte) (now : Z) :
  keyed c -> Add c k v now = Returns c' -> keyed c'.
Proof.
  intros Hkeyed HA.
  destruct (Add_Returns_inv _ _ _ _ _ HA)
    as (_ & _ & _ & _ & e & Hc & _ & _ & Hke & _).
  intros k' e' H. rewrite Hc in H.
  destruct (decide (k = k')) as [<-|Hne].
  - rewrite lookup_insert_eq in H. injection H as <-. auto.
  - rewrite lookup_insert_ne in H by exact Hne. eauto.
Qed.

Lemma NoDup_keys_Remove (k : string) (l : list entry) :
  NoDup (key <$> l) -> NoDup (key <$> ll_Remove k l).
Proof.
  induction l as [|x l IH]; simpl; [auto |].
  rewrite NoDup_cons. intros [Hx Hl]. unfold ll_Remove in *. simpl.
  destruct (other_key k x); [| auto].
  simpl. apply NoDup_cons. split; [| auto].
  intros H. apply Hx. apply list_elem_of_fmap in H as (y & -> & Hy).
  apply list_elem_of_fmap. exists y. split; [reflexivity |].
  apply (elem_of_ll_Remove k l y) in Hy. tauto.
Qed.

(** Moving the entry of key [key e] to the front, as updated to [e],
    keeps the map and the list in step. *)
Lemma coherent_touch (c : Cache) (e : entry) (m : bool) :
  coherent c ->
  coherent {| MaxEntries := MaxEntries c; TTL := TTL c; mu := m;
              ll := e :: ll_Remove (key e) (ll c);
              cache := <[key e := e]> (cache c) |}.
Proof.
  intros (Hk & Hcl & Hlc & Hnd). unfold coherent, keyed. cbn.
  repeat split.
  - intros k x H. destruct (decide (key e = k)) as [<-|Hne].
    + rewrite lookup_insert_eq in H. now injection H as <-.
    + rewrite lookup_insert_ne in H by exact Hne. eauto.
  - intros k x H. destruct (decide (key e = k)) as [<-|Hne].
    + rewrite lookup_insert_eq in H. injection H as <-. apply list_elem_of_here.
    + rewrite lookup_insert_ne in H by exact Hne.
      apply list_elem_of_further, elem_of_ll_Remove. split; [eauto |].
      rewrite (Hk k x H). auto.
  - intros x H. apply elem_of_cons in H as [->|H].
    + apply lookup_insert_eq.
    + apply elem_of_ll_Remove in H as [Hx Hne].
      rewrite lookup_insert_ne by auto. auto.
  - apply NoDup_cons. split; [apply keys_ll_Remove | now apply NoDup_keys_Remove].
Qed.

Lemma ll_Remove_absent (k : string) (l : list entry) :
  k ∉ key <$> l -> ll_Remove k l = l.
Proof.
  induction l as [|x l IH]; simpl; [auto |].
  rewrite not_elem_of_cons. intros [Hx Hl]. unfold ll_Remove in *. simpl.
  destruct (other_key k x) eqn:E.
  - f_equal. auto.
  - apply other_key_false in E. congruence.
Qed.

Lemma coherent_absent (c : Cache) (k : string) :
  coherent c -> cache c !! k = None -> k ∉ key <$> ll c.
Proof.
  intros (_ & _ & Hlc & _) Hk H.
  apply list_elem_of_fmap in H as (x & -> & Hx).
  rewrite (Hlc x Hx) in Hk. discriminate.
Qed.

Lemma coherent_New (n t : Z) : coherent (New n t).
Proof.
  unfold coherent, keyed. simpl. repeat split.
  - intros k e H. rewrite lookup_empty in H. discriminate.
  - intros k e H. rewrite lookup_empty in H. discriminate.
  - intros e H. apply not_elem_of_nil in H. contradiction.
  - constructor.
Qed.

(** [Add] keeps the map and the list in step. *)
Lemma coherent_Add (c c' : Cache) (k : string) (v : list byte) (now : Z) :
  coherent c -> Add c k v now = Returns c' -> coherent c'.
Proof.
  intros Hcoh HA.
  destruct (Add_Returns_inv _ _ _ _ _ HA)
    as (_ & Hmu' & HT & HM & e & Hc & _ & _ & Hke & Hl).
  specialize (Hke (proj1 Hcoh)). subst k.
  pose proof (coherent_touch c e false Hcoh) as Ht.
  assert (E : ll c' = e :: ll_Remove (key e) (ll c)).
  { rewrite Hl. destruct (cache c !! key e) eqn:Hk; [reflexivity |].
    rewrite ll_Remove_absent; [reflexivity | now apply coherent_absent]. }
  destruct c' as [M' T' mu' ll' cache']. cbn in *. subst. rewrite E. exact Ht.
Qed.

(** [Get] keeps the map and the list in step. *)
Lemma coherent_Get (c c' : Cache) (k : string) (now : Z) (v : list byte) (ok : bool) :
  coherent c -> Get c k now = Returns (v, ok, c') -> coherent c'.
Proof.
  intros Hcoh. unfold Get. destruct (mu c) eqn:Hmu.
  - rewrite (Lock_locked c Hmu). discriminate.
  - rewrite (Lock_unlocked c Hmu).
    cbn [mbind Run_bind cache MaxEntries TTL ll mu].
    destruct (cache c !! k) as [ele|] eqn:Hk.
    + pose proof (proj1 Hcoh k ele Hk) as Hke.
      destruct ((TTL c =? 0) || (now - date ele <=? TTL c)).
      * intros [= _ _ <-]. unfold Unlock. cbn. subst k.
        exact (coherent_touch c {| key := key ele; value := value ele; date := now |}
                              false Hcoh).
      * intros [= _ _ <-]. unfold Unlock, removeElement. cbn.
        destruct Hcoh as (Hkd & Hcl & Hlc & Hnd).
        unfold coherent, keyed. cbn. repeat split.
        -- intros k' x H. apply lookup_delete_Some in H as [_ H]. eauto.
        -- intros k' x H. apply lookup_delete_Some in H as [Hne H].
           apply elem_of_ll_Remove. split; [eauto |].
           rewrite (Hkd k' x H). auto.
        -- intros x H. apply elem_of_ll_Remove in H as [Hx Hne].
           rewrite lookup_delete_ne by auto. auto.
        -- now apply NoDup_keys_Remove.
    + intros [= _ _ <-]. unfold Unlock. cbn.
      destruct c as [M T m l ca]. cbn in *. subst m. exact Hcoh.
Qed.

(** [Add] with room left, for a key the map does not hold, puts the entry
    at the front. *)
Lemma Add_room (c : Cache) (k : string) (v : list byte) (now : Z) :
  mu c = false ->
  cache c !! k = None ->
  MaxEntries c = 0 \/ Z.of_nat (length (ll c)) < MaxEntries c ->
  Add c k v now =
    Returns {| MaxEntries := MaxEntries c; TTL := TTL c; mu := false;
               ll := {| key := k; value := v; date := now |} :: ll c;
               cache := <[k := {| key := k; value := v; date := now |}]> (cache c) |}.
Proof.
  intros Hmu Hk Hroom. unfold Add.
  rewrite (Lock_unlocked c Hmu). cbn [mbind Run_bind cache MaxEntries TTL ll mu].
  rewrite Hk.
  assert (E : negb (MaxEntries c =? 0)
              && (MaxEntries c <? Z.of_nat (length ({| key := k; value := v; date := now |} :: ll c)))
              = false).
  { apply andb_false_iff. destruct Hroom as [H|H]; [left | right].
    - rewrite H. reflexivity.
    - apply Z.ltb_ge. cbn [length]. lia. }
  rewrite E. reflexivity.
Qed.

Lemma AddAll_app (c : Cache) (a b : list (string * list byte * Z)) :
  AddAll c (a ++ b) = (c' ← AddAll c a; AddAll c' b).
Proof.
  revert c. induction a as [|[[k v] t] a IH]; intros c; [reflexivity |].
  simpl. destruct (Add c k v t); [apply IH | reflexivity].
Qed.

(** As long as the capacity is not exceeded, [Add]s of fresh keys return
    and each leaves one more entry. *)
Lemma AddAll_room (kvs : list (string * list byte * Z)) : forall c : Cache,
  mu c = false ->
  NoDup (kvs.*1.*1) ->
  (forall k, k ∈ kvs.*1.*1 -> cache c !! k = None) ->
  (Z.of_nat (length (ll c) + length kvs) <= MaxEntries c) ->
  exists c', AddAll c kvs = Returns c' /\
             mu c' = false /\ MaxEntries c' = MaxEntries c /\
             length (ll c') = (length (ll c) + length kvs)%nat /\
             (forall k, cache c !! k = None -> k ∉ kvs.*1.*1 ->
                        cache c' !! k = None).
Proof.
  induction kvs as [|[[k v] t] kvs IH]; intros c Hmu Hnd Hfresh Hcap.
  - exists c. simpl. repeat split; auto.
  - simpl in Hnd. apply NoDup_cons in Hnd as [Hk Hnd].
    simpl in Hcap.
    assert (Hroom : Z.of_nat (length (ll c)) < MaxEntries c) by lia.
    assert (HAdd := Add_room c k v t Hmu
                      (Hfresh k (list_elem_of_here k _))
                      (or_intror Hroom)).
    set (c1 := {| MaxEntries := MaxEntries c; TTL := TTL c; mu := false;
                  ll := {| key := k; value := v; date := t |} :: ll c;
                  cache := <[k := {| key := k; value := v; date := t |}]> (cache c) |})
      in *.
    destruct (IH c1) as (c' & HA & Hmu' & HM & Hlen & Hnone).
    + reflexivity.
    + exact Hnd.
    + intros k' Hk'. cbn. rewrite lookup_insert_ne.
      * apply Hfresh. simpl. now apply list_elem_of_further.
      * intros <-. contradiction.
    + cbn. lia.
    + exists c'. cbn [AddAll]. rewrite HAdd. cbn [mbind Run_bind]. rewrite HA.
      split; [reflexivity |]. split; [exact Hmu' |]. split; [exact HM |].
      split; [rewrite Hlen; cbn; lia |].
      intros k' Hk' Hnot. simpl in Hnot. apply not_elem_of_cons in Hnot as [Hne Hnot].
      apply Hnone; [| exact Hnot]. cbn. rewrite lookup_insert_ne by auto. exact Hk'.
Qed.

(** For every capacity [N > 0]: [N] adds of distinct keys fill a new
    cache, and the add of one more key never returns. *)
Lemma Add_N_plus_1_blocks (N T : Z) (kvs : list (string * list byte * Z))
    (k : string) (v : list byte) (t : Z) :
  0 < N ->
  Z.of_nat (length kvs) = N ->
  NoDup (kvs.*1.*1) ->
  k ∉ kvs.*1.*1 ->
  AddAll (New N T) (kvs ++ [(k, v, t)]) = Blocked.
Proof.
  intros HN Hlen Hnd Hk. rewrite AddAll_app.
  destruct (AddAll_room kvs (New N T)) as (c' & HA & Hmu' & HM & Hl & Hnone).
  - reflexivity.
  - exact Hnd.
  - intros k' _. apply lookup_empty.
  - simpl. lia.
  - rewrite HA. cbn [mbind Run_bind AddAll].
    rewrite Add_full_blocks; [reflexivity | exact Hmu' | |].
    + apply Hnone; [apply lookup_empty | exact Hk].
    + rewrite HM, Hl. simpl. lia.
Qed.

(** C8. A cache of capacity 2: the first two [Add]s return, a [Get]
    within the TTL returns the value, a [Get] after the TTL removes the
    entry and reports a miss. The third [Add] of a new key calls
    [RemoveOldest] with the mutex held and never returns, so the least
    recently used key is never evicted; the same with capacity 1. *)
Theorem Add_past_capacity_blocks :
  let va := ["a"%byte] in
  let vb := ["b"%byte] in
  (exists c2,
      (c ← Add (New 2 10) "k1" va 0; Add c "k2" vb 1) = Returns c2 /\
      keys c2 = ["k2"; "k1"] /\
      (exists c3, Get c2 "k1" 10 = Returns (va, true, c3) /\
                  keys c3 = ["k1"; "k2"]) /\
      (exists c3, Get c2 "k1" 11 = Returns ([], false, c3) /\
                  keys c3 = ["k2"]) /\
      Add c2 "k3" va 2 = Blocked) /\
  (c ← Add (New 1 10) "k1" va 0; Add c "k2" vb 1) = Blocked.
Proof.
  cbv zeta. split; [| reflexivity].
  eexists. split; [reflexivity |].
  split; [reflexivity |].
  split; [eexists; split; reflexivity |].
  split; [eexists; split; reflexivity |].
  reflexivity.
Qed.

End LruFacts.

(** ** [downloadVersion] *)

Module DownloadFacts.
Import GoStrings Regexp VersionGrammar Lru Registry Samples.

Section WithDecoders.

Variable jm : list byte -> option (gmap string JSONValue).
Variable jp : list byte -> option string.

Lemma track_prefix_name (p name : string) :
  snd (track_prefix p name) = Spec.logicalName name.
Proof.
  unfold track_prefix, Spec.logicalName.
  destruct (SplitN name "/" 2) as [|a [|b [|c l]]]; reflexivity.
Qed.

Lemma track_prefix_prefix (p name : string) :
  fst (track_prefix p name) =
    match Spec.topSegment name with
    | Some a => next_prefix p a
    | None => p
    end.
Proof.
  unfold track_prefix, Spec.topSegment.
  destruct (SplitN name "/" 2) as [|a [|b [|c l]]]; reflexivity.
Qed.

(** What one turn of the loop does to the loop variables. *)
Lemma scan_entry_cases (st : scan) (e : TarEntry) :
  (Spec.isRegOrDir e = false /\ scan_entry jp st e = inr st) \/
  (Spec.isRegOrDir e = true /\
   ((exists why, scan_entry jp st e = inl (HTTPError StatusUnprocessableEntity why)) \/
    (exists st', scan_entry jp st e = inr st' /\
                 prefix st' = fst (track_prefix (prefix st) (Name (hdr e))) /\
                 (Spec.isManifestName (Spec.logicalName (Name (hdr e))) = false ->
                  manifestContent st' = manifestContent st)))).
Proof.
  unfold scan_entry, Spec.isRegOrDir.
  destruct (Ascii.eqb (Typeflag (hdr e)) TypeReg) eqn:Hreg;
    destruct (Ascii.eqb (Typeflag (hdr e)) TypeDir) eqn:Hdir; cbn [negb andb orb];
    try (left; split; reflexivity); right; (split; [reflexivity |]).
  all: pose proof (track_prefix_name (prefix st) (Name (hdr e))) as Hn.
  all: destruct (track_prefix (prefix st) (Name (hdr e))) as [p' name]; cbn [fst snd] in *.
  all: subst name; unfold Spec.isManifestName.
  all: destruct (String.eqb (Spec.logicalName (Name (hdr e))) "manifest.webapp"
                 || String.eqb (Spec.logicalName (Name (hdr e))) "manifest.konnector") eqn:Hm.
  all: destruct (content e) as [body|]; cbn [mbind error_bind];
    try (left; eexists; reflexivity).
  all: destruct (String.eqb (Spec.logicalName (Name (hdr e))) "package.json");
    try destruct (jp body);
    try (left; eexists; reflexivity);
    try (right; eexists; split; [reflexivity |]; split; [reflexivity |];
         intros; first [discriminate | reflexivity]).
Qed.



Lemma tops_cons (e : TarEntry) (es : list TarEntry) :
  Spec.tops (e :: es) =
    if Spec.isRegOrDir e
    then match Spec.topSegment (Name (hdr e)) with
         | Some a => a :: Spec.tops es
         | None => Spec.tops es
         end
    else Spec.tops es.
Proof.
  unfold Spec.tops. cbn [List.filter].
  destruct (Spec.isRegOrDir e); [| reflexivity].
  cbn [omap list_omap]. destruct (Spec.topSegment (Name (hdr e))); reflexivity.
Qed.

(** The loop folds [next_prefix] over the top segments of the entries
    it looks at. *)
Lemma scan_entries_prefix (es : list TarEntry) : forall (st st' : scan),
  scan_entries jp st es = inr st' ->
  prefix st' = fold_left next_prefix (Spec.tops es) (prefix st).
Proof.
  induction es as [|e es IH]; intros st st' H.
  - injection H as <-. reflexivity.
  - cbn [scan_entries] in H. rewrite tops_cons.
    destruct (scan_entry_cases st e) as [[Hrd E]|[Hrd [[why E]|(st1 & E & Hp & _)]]];
      rewrite E in H; cbn [mbind error_bind] in H; rewrite Hrd.
    + apply (IH _ _ H).
    + discriminate.
    + rewrite (IH _ _ H), Hp, track_prefix_prefix.
      destruct (Spec.topSegment (Name (hdr e))); reflexivity.
Qed.


(** What an accepted download has gone through. *)
Lemma downloadVersion_Ok_inv (opts : VersionOptions) (f : Fetch) (now : Z)
    (ver : Version) :
  downloadVersion jm jp opts f now = Ok ver ->
  exists st manifest,
    scan_entries jp scan0 (entries f) = inr st /\
    ending f = EOF /\
    bytes_Equal (fst (GoHex.DecodeString (opt_Sha256 opts))) (sum f) = true /\
    manifestContent st <> [] /\
    jm (manifestContent st) = Some manifest /\
    reconcile (opt_Version opts) manifest (packVersion st) = Some [] /\
    ver_TarPrefix ver = prefix st /\
    ver_Size ver = written f /\
    ver_Version ver = opt_Version opts /\
    ver_Sha256 ver = opt_Sha256 opts /\
    ver_Manifest ver = manifestContent st.
Proof.
  unfold downloadVersion.
  do 3 (match goal with
        | |- context [if ?b then _ else _] => destruct b; [discriminate |]
        end).
  destruct (scan_entries jp scan0 (entries f)) as [err|st] eqn:Es; [discriminate |].
  destruct (ending f) eqn:Ee; try discriminate.
  destruct (bytes_Equal (fst (GoHex.DecodeString (opt_Sha256 opts))) (sum f)) eqn:Eh;
    [| discriminate]. cbn [negb].
  destruct (manifestContent st) as [|b0 body] eqn:Em; [discriminate |].
  cbn [length Nat.eqb].
  destruct (jm (b0 :: body)) as [manifest|] eqn:Ej; [| discriminate].
  destruct (reconcile (opt_Version opts) manifest (packVersion st)) as [[|x l]|] eqn:Er;
    try discriminate.
  intros [= <-]. exists st, manifest. cbn. rewrite Em.
  repeat split; try assumption; try reflexivity. discriminate.
Qed.

(** The produced [tar_prefix] is [next_prefix] folded over the top
    segments, starting from the empty string. *)
Lemma downloadVersion_TarPrefix (opts : VersionOptions) (f : Fetch) (now : Z)
    (ver : Version) :
  downloadVersion jm jp opts f now = Ok ver ->
  ver_TarPrefix ver = fold_left next_prefix (Spec.tops (entries f)) "".
Proof.
  intros H. apply downloadVersion_Ok_inv in H
    as (st & m & Es & _ & _ & _ & _ & _ & -> & _).
  apply (scan_entries_prefix _ _ _ Es).
Qed.

Lemma next_prefix_same (a : string) : next_prefix a a = a.
Proof.
  unfold next_prefix. destruct (String.eqb_spec a ""); [reflexivity |].
  now rewrite String.eqb_refl.
Qed.

Lemma fold_next_prefix_same (a : string) (ts : list string) :
  Forall (eq a) ts -> fold_left next_prefix ts a = a.
Proof.
  induction 1 as [|t ts <- _ IH]; simpl; [reflexivity |].
  now rewrite next_prefix_same.
Qed.

(** When every [a/b]-style entry has the same top segment, the produced
    [tar_prefix] is that segment: the common top directory. *)
Lemma TarPrefix_common (opts : VersionOptions) (f : Fetch) (now : Z)
    (ver : Version) (a : string) :
  downloadVersion jm jp opts f now = Ok ver ->
  Spec.tops (entries f) <> [] ->
  Forall (eq a) (Spec.tops (entries f)) ->
  ver_TarPrefix ver = a /\ Spec.commonTop (Spec.tops (entries f)) = a.
Proof.
  intros H Hne Hall. rewrite (downloadVersion_TarPrefix _ _ _ _ H).
  destruct (Spec.tops (entries f)) as [|t ts]; [contradiction |].
  apply Forall_cons in Hall as [<- Hall]. split.
  - cbn [fold_left]. unfold next_prefix at 2. cbn [String.eqb].
    now apply fold_next_prefix_same.
  - unfold Spec.commonTop.
    assert (E : forallb (String.eqb a) ts = true).
    { apply forallb_forall. intros x Hx. apply String.eqb_eq.
      rewrite Forall_forall in Hall. apply Hall. now apply list_elem_of_In. }
    now rewrite E.
Qed.

(** A produced [Version] never counts more than the 20 MiB the limiter
    lets through. *)
Lemma downloadVersion_Size (opts : VersionOptions) (f : Fetch) (now : Z)
    (ver : Version) :
  Fetch_wf f ->
  downloadVersion jm jp opts f now = Ok ver ->
  0 <= ver_Size ver <= maxApplicationSize.
Proof.
  intros Hwf H. apply downloadVersion_Ok_inv in H
    as (st & m & _ & _ & _ & _ & _ & _ & _ & -> & _).
  exact Hwf.
Qed.

(** Outside the [Dev] channel the [package.json] check reports a
    violation exactly when the two versions are equal. *)
Lemma package_check_inverted (optsVersion packVersion : string)
    (manifest : gmap string JSONValue) (errm : list Violation) :
  Channel_eqb (GetVersionChannel optsVersion) Dev = false ->
  packVersion <> "" ->
  check_versions optsVersion manifest packVersion = Some errm ->
  (PackageMismatch (fst (asString manifest "version")) packVersion ∈ errm
   <-> packVersion = optsVersion).
Proof.
  intros Hch Hp. unfold check_versions.
  destruct (asString manifest "version") as [version ok]. cbn [fst].
  rewrite Hch. cbn [negb].
  destruct (String.eqb_spec packVersion "") as [E|_]; [contradiction |]. cbn [negb].
  assert (Hfirst : exists m1, (if negb ok then Some false
                               else Some (String.eqb optsVersion version)) = Some m1)
    by (destruct ok; eauto).
  destruct Hfirst as [m1 ->]. cbn [mbind option_bind].
  intros [= <-]. rewrite elem_of_app.
  destruct (String.eqb_spec optsVersion packVersion) as [->|Hne]; cbn [negb].
  - split; [reflexivity |]. intros _. right. apply list_elem_of_here.
  - split; [| congruence].
    intros [H|H].
    + destruct (negb m1); [| now apply not_elem_of_nil in H].
      apply list_elem_of_singleton in H. discriminate.
    + now apply not_elem_of_nil in H.
Qed.

(** So a publication outside the [Dev] channel whose [package.json]
    carries the requested version is never accepted. *)
Lemma equal_package_version_rejected (opts : VersionOptions) (f : Fetch)
    (now : Z) (ver : Version) (st : scan) :
  Channel_eqb (GetVersionChannel (opt_Version opts)) Dev = false ->
  scan_entries jp scan0 (entries f) = inr st ->
  packVersion st = opt_Version opts ->
  packVersion st <> "" ->
  downloadVersion jm jp opts f now <> Ok ver.
Proof.
  intros Hch Es Hp Hne H.
  apply downloadVersion_Ok_inv in H
    as (st' & m & Es' & _ & _ & _ & _ & Hr & _).
  rewrite Es in Es'. injection Es' as <-.
  unfold reconcile in Hr.
  destruct (asString m "editor") as [ed ok1].
  destruct (asString m "slug") as [sl ok2].
  destruct (check_versions (opt_Version opts) m (packVersion st)) as [errm|] eqn:Ec;
    [| discriminate].
  cbn [mbind option_bind] in Hr. injection Hr as Hr.
  apply app_eq_nil in Hr as [_ Hr]. apply app_eq_nil in Hr as [_ ->].
  apply (package_check_inverted _ _ _ _ Hch Hne) in Ec.
  apply proj2 in Ec. specialize (Ec Hp). now apply not_elem_of_nil in Ec.
Qed.


End WithDecoders.



(** C1. The requested version is ["1.2.3"], on the stable channel, and
    the manifest agrees. With a [package.json] of version ["1.2.4"] the
    publication is accepted; with a [package.json] of version ["1.2.3"]
    it is refused, for the version of [package.json]. Line 600 tests
    [!=] where line 589 tests [==]. *)
Theorem package_version_check_inverted :
  GetVersionChannel "1.2.3" = Stable /\
  (exists ver,
      downloadVersion sample_Unmarshal_manifest sample_Unmarshal_package
        (sampleOptions "1.2.3") (gzipFetch (notesArchive "1.2.4") 345) 1000 = Ok ver /\
      ver_Version ver = "1.2.3") /\
  downloadVersion sample_Unmarshal_manifest sample_Unmarshal_package
    (sampleOptions "1.2.3") (gzipFetch (notesArchive "1.2.3") 345) 1000
  = Err (HTTPError StatusUnprocessableEntity
                   (ManifestMismatch [PackageMismatch "1.2.3" "1.2.3"])).
Proof.
  split; [reflexivity |]. split; [| reflexivity].
  eexists. split; reflexivity.
Qed.

(** C3. The entries of the archive sit under [a], [b] and [c]: they
    share no top directory, and the produced [tar_prefix] is ["c"]. After
    the mismatch between [a] and [b] has emptied the prefix, the next
    entry sets it again. *)
Theorem tar_prefix_set_again_after_mismatch :
  Spec.tops scatteredArchive = ["a"; "b"; "c"] /\
  Spec.commonTop (Spec.tops scatteredArchive) = "" /\
  exists ver,
    downloadVersion sample_Unmarshal_manifest sample_Unmarshal_package
      (sampleOptions "1.2.3") (gzipFetch scatteredArchive 345) 1000 = Ok ver /\
    ver_TarPrefix ver = "c".
Proof.
  split; [reflexivity |]. split; [reflexivity |].
  eexists. split; reflexivity.
Qed.

End DownloadFacts.

(** ** The discovery operations *)

Module FindersFacts.
Import GoStrings Regexp VersionGrammar Lru Registry Samples LruFacts.

Lemma Get_miss (c : Cache) (k : string) (now : Z) :
  mu c = false -> cache c !! k = None ->
  Get c k now = Returns ([], false, Unlock c).
Proof.
  intros Hmu Hk. unfold Get. rewrite (Lock_unlocked c Hmu).
  cbn [mbind Run_bind cache MaxEntries TTL ll mu]. rewrite Hk.
  unfold Unlock. reflexivity.
Qed.

(** The loop of the [Dev] arm: every version goes to [beta], the stable
    ones go to [stable] as well. *)
Lemma fold_dev_step (l : list string) : forall stable beta : list string,
  fold_left dev_step l (stable, beta) =
    ((stable ++ List.filter (fun v => Channel_eqb (GetVersionChannel v) Stable) l)%list,
     (beta ++ l)%list).
Proof.
  induction l as [|v l IH]; intros stable beta; cbn [fold_left List.filter].
  - now rewrite !app_nil_r.
  - unfold dev_step at 2. destruct (GetVersionChannel v); cbn [Channel_eqb];
      rewrite IH, <- ?app_assoc; reflexivity.
Qed.

(** What a [Dev] request composes: [beta] is the whole list, the versions
    of the dev channel included. *)
Lemma composeVersions_Dev (allVersions : list string) :
  composeVersions Dev allVersions =
    {| av_Stable :=
         List.filter (fun v => Channel_eqb (GetVersionChannel v) Stable) allVersions;
       av_Beta := allVersions;
       av_Dev := allVersions |}.
Proof. unfold composeVersions. rewrite fold_dev_step. reflexivity. Qed.

Section WithDecoders.

Variable jv : list byte -> option Version.
Variable jma : AppVersions -> option (list byte).
Variable jua : list byte -> option AppVersions.

(** A fresh read on the [Dev] channel answers what [composeVersions]
    makes of [TotalRows] empty strings followed by the values of the
    view. *)
Lemma FindAppVersions_fresh (c : Space) (cs : Caches) (appSlug : string)
    (channel : Channel) (now : Z) (rs : Rows) (values : list string) :
  mu (cacheVersionsList cs) = false ->
  cache (cacheVersionsList cs) !! (appSlug ++ "/" ++ channelToStr channel) = None ->
  versionViewQuery c (versViewDocName appSlug) (channelToStr channel)
    {| q_limit := 2000; q_descending := false; q_include_docs := false |} = inr rs ->
  scanValues (rows rs) = inr values ->
  forall r cs',
    FindAppVersions jma jua c cs appSlug channel now = Returns (r, cs') ->
    r = Ok (composeVersions channel (repeat "" (TotalRows rs) ++ values)%list).
Proof.
  intros Hmu Hk Hq Hs r cs'. unfold FindAppVersions.
  rewrite (Get_miss _ _ _ Hmu Hk). cbn [mbind Run_bind].
  rewrite Hq, Hs.
  destruct (jma _); [| now intros [= <- _]].
  destruct (Add _ _ _ _); cbn [mbind Run_bind]; [| discriminate].
  now intros [= <- _].
Qed.

(** The first call reads the store and strips the internal fields; the
    call that finds the entry in the cache hands out the document as it
    was stored. *)
Lemma FindLatestVersion_hit_not_stripped (c : Space) (cs : Caches)
    (appSlug : string) (channel : Channel) (t0 t1 : Z) (rs : Rows)
    (row : Row) (rest : list Row) (data : list byte) (v : Version) :
  MatchString validSlugReg appSlug = true ->
  mu (cacheVersionsLatest cs) = false ->
  cache (cacheVersionsLatest cs) !! (appSlug ++ "/" ++ channelToStr channel) = None ->
  MaxEntries (cacheVersionsLatest cs) = 0 \/
    Z.of_nat (length (ll (cacheVersionsLatest cs))) < MaxEntries (cacheVersionsLatest cs) ->
  TTL (cacheVersionsLatest cs) = 0 \/ t1 - t0 <= TTL (cacheVersionsLatest cs) ->
  versionViewQuery c (versViewDocName appSlug) (channelToStr channel)
    {| q_limit := 1; q_descending := true; q_include_docs := true |} = inr rs ->
  rows rs = row :: rest ->
  row_Doc row = Some data ->
  jv data = Some v ->
  exists cs1 cs2,
    FindLatestVersion jv c cs appSlug channel t0
      = Returns (Ok (strip_internal v), cs1) /\
    FindLatestVersion jv c cs1 appSlug channel t1 = Returns (Ok v, cs2).
Proof.
  intros Hslug Hmu Hk Hroom Httl Hq Hrows Hdoc Hv.
  set (key := appSlug ++ "/" ++ channelToStr channel) in *.
  assert (HA : exists c1, Add (Unlock (cacheVersionsLatest cs)) key data t0 = Returns c1).
  { rewrite Add_room; eauto. }
  destruct HA as [c1 HA].
  destruct (Get_after_Add _ _ _ _ _ t1 HA Httl) as (c2 & HG & _).
  exists (with_latest (with_latest cs (Unlock (cacheVersionsLatest cs))) c1).
  exists (with_latest (with_latest (with_latest cs (Unlock (cacheVersionsLatest cs))) c1) c2).
  split.
  - unfold FindLatestVersion. rewrite Hslug. cbn [negb]. fold key.
    rewrite (Get_miss _ _ _ Hmu Hk). cbn [mbind Run_bind].
    rewrite Hq, Hrows, Hdoc, Hv.
    cbn [with_latest cacheVersionsLatest]. rewrite HA. reflexivity.
  - unfold FindLatestVersion. rewrite Hslug. cbn [negb]. fold key.
    cbn [with_latest cacheVersionsLatest]. rewrite HG. cbn [mbind Run_bind].
    rewrite Hv. reflexivity.
Qed.

End WithDecoders.

Section Paging.

Variable jv : list byte -> option Version.
Variable jma : AppVersions -> option (list byte).
Variable jua : list byte -> option AppVersions.
Variable ddc : App -> string * string.
Variable cal : App -> option Version -> string.













End Paging.


(** With a negative limit and an app to return, the slice expression
    [res[:opts.Limit]] panics. *)
Example GetAppsList_negative_limit :
  exists cs',
    GetAppsList sample_Unmarshal_Version sample_Marshal_AppVersions
      sample_Unmarshal_AppVersions sample_defaultDataUserCommitment
      sample_calculateAppLabel (sampleSpace 0) initialCaches
      {| Limit := -1; Cursor := 0; Sort := ""; Filters := [];
         LatestVersionChannel := Stable; VersionsChannel := Stable |} 1000
    = Returns (Panic, cs').
Proof. eexists. vm_compute. reflexivity. Qed.

(** Two pages of two apps over [sampleIndex]: the cursor the first page
    returns is the old one plus the two apps, while the store has skipped
    a design document as well; the second page starts with the app the
    first page ended with. *)
Example GetAppsList_two_pages :
  exists r1 r2 cs1 cs2,
    GetAppsList sample_Unmarshal_Version sample_Marshal_AppVersions
      sample_Unmarshal_AppVersions sample_defaultDataUserCommitment
      sample_calculateAppLabel (sampleSpace 0) initialCaches
      {| Limit := 2; Cursor := 0; Sort := ""; Filters := [];
         LatestVersionChannel := Stable; VersionsChannel := Stable |} 1000
    = Returns (Ok (2, r1), cs1) /\
    app_ID <$> r1 = ["drive"; "notes"] /\
    GetAppsList sample_Unmarshal_Version sample_Marshal_AppVersions
      sample_Unmarshal_AppVersions sample_defaultDataUserCommitment
      sample_calculateAppLabel (sampleSpace 0) cs1
      {| Limit := 2; Cursor := 2; Sort := ""; Filters := [];
         LatestVersionChannel := Stable; VersionsChannel := Stable |} 1001
    = Returns (Ok (-1, r2), cs2) /\
    app_ID <$> r2 = ["notes"; "photos"].
Proof.
  eexists. eexists. eexists. eexists.
  split; [vm_compute; reflexivity |].
  split; [reflexivity |].
  split; [vm_compute; reflexivity |].
  reflexivity.
Qed.

(** C2. A [Dev] request for [notes], whose dev view lists a stable, a
    beta and a dev version: the answer puts the dev version in [beta]
    too, where section 4.7 has the stable and beta versions only; the
    answer from the cache is the same. When [TotalRows()] reports 3
    before the rows are read, each list starts with three empty
    strings. *)
Theorem Dev_request_lists_dev_versions_as_beta :
  GetVersionChannel "1.1.0-dev.abc" = Dev /\
  av_Beta (Spec.specDevVersions notesVersions) = ["1.0.0"; "1.1.0-beta.1"] /\
  (exists cs1 cs2,
      FindAppVersions sample_Marshal_AppVersions sample_Unmarshal_AppVersions
        (sampleSpace 0) initialCaches "notes" Dev 1000
      = Returns (Ok {| av_Stable := ["1.0.0"];
                       av_Beta := ["1.0.0"; "1.1.0-beta.1"; "1.1.0-dev.abc"];
                       av_Dev := ["1.0.0"; "1.1.0-beta.1"; "1.1.0-dev.abc"] |}, cs1) /\
      FindAppVersions sample_Marshal_AppVersions sample_Unmarshal_AppVersions
        (sampleSpace 0) cs1 "notes" Dev 2000
      = Returns (Ok {| av_Stable := ["1.0.0"];
                       av_Beta := ["1.0.0"; "1.1.0-beta.1"; "1.1.0-dev.abc"];
                       av_Dev := ["1.0.0"; "1.1.0-beta.1"; "1.1.0-dev.abc"] |}, cs2)) /\
  (exists cs1,
      FindAppVersions sample_Marshal_AppVersions sample_Unmarshal_AppVersions
        (sampleSpace 3) initialCaches "notes" Dev 1000
      = Returns (Ok {| av_Stable := [""; ""; ""; "1.0.0"];
                       av_Beta := [""; ""; ""; "1.0.0"; "1.1.0-beta.1";
                                   "1.1.0-dev.abc"];
                       av_Dev := [""; ""; ""; "1.0.0"; "1.1.0-beta.1";
                                  "1.1.0-dev.abc"] |}, cs1)).
Proof.
  split; [reflexivity |]. split; [reflexivity |]. split.
  - eexists. eexists. split.
    + vm_compute. reflexivity.
    + vm_compute. reflexivity.
  - eexists. vm_compute. reflexivity.
Qed.

(** C5. The first [FindLatestVersion] for [notes] reads the store and
    returns the version with [id], [rev] and [attachments] empty. The
    second, a second later, is served from the cache and returns the
    document with its [id], its [rev] and its attachments: the cache
    holds the raw document, and the path of the cache hit does not clear
    the three fields. *)
Theorem cache_hit_returns_internal_fields :
  exists cs1 cs2,
    FindLatestVersion sample_Unmarshal_Version (sampleSpace 0) initialCaches
      "notes" Stable 1000000000
    = Returns (Ok (strip_internal storedVersion), cs1) /\
    FindLatestVersion sample_Unmarshal_Version (sampleSpace 0) cs1
      "notes" Stable 2000000000
    = Returns (Ok storedVersion, cs2) /\
    ver_ID (strip_internal storedVersion) = "" /\
    ver_ID storedVersion = "notes-1.2.3" /\
    ver_Rev storedVersion = "1-abc" /\
    ver_Attachments storedVersion = ["icon.svg"].
Proof.
  eexists. eexists. split; [vm_compute; reflexivity |].
  split; [vm_compute; reflexivity |].
  repeat split; reflexivity.
Qed.

End FindersFacts.


(** ** More on the LRU+TTL cache *)

Module LruMore.
Import Lru LruFacts LruSeq LruCalls.

Lemma keys_ll_Remove_others (k : string) (l : list entry) :
  key <$> ll_Remove k l = others k (key <$> l).
Proof.
  unfold ll_Remove, others.
  induction l as [|x l IH]; [reflexivity |].
  rewrite fmap_cons. cbn [List.filter]. unfold other_key at 1.
  destruct (negb (String.eqb (key x) k)).
  - rewrite fmap_cons. now f_equal.
  - exact IH.
Qed.

Lemma Unlock_mu (c : Cache) : mu c = false -> Unlock c = c.
Proof. destruct c as [M T m l ca]. simpl. intros ->. reflexivity. Qed.

(** Taking an entry of the map out of the list and the map keeps them in
    step. *)
Lemma coherent_removeElement (c : Cache) (e : entry) (m : bool) :
  coherent c ->
  coherent {| MaxEntries := MaxEntries c; TTL := TTL c; mu := m;
              ll := ll_Remove (key e) (ll c);
              cache := delete (key e) (cache c) |}.
Proof.
  intros (Hkd & Hcl & Hlc & Hnd). unfold coherent, keyed. cbn. repeat split.
  - intros k' x H. apply lookup_delete_Some in H as [_ H]. eauto.
  - intros k' x H. apply lookup_delete_Some in H as [Hne H].
    apply elem_of_ll_Remove. split; [eauto |]. rewrite (Hkd k' x H). auto.
  - intros x H. apply elem_of_ll_Remove in H as [Hx Hne].
    rewrite lookup_delete_ne by auto. auto.
  - now apply NoDup_keys_Remove.
Qed.

Lemma length_ll_Remove_present (l : list entry) (k : string) :
  NoDup (key <$> l) -> k ∈ key <$> l ->
  S (length (ll_Remove k l)) = length l.
Proof.
  induction l as [|x l IH]; simpl; intros Hnd Hk.
  - now apply not_elem_of_nil in Hk.
  - apply NoDup_cons in Hnd as [Hx Hnd]. unfold ll_Remove in *. simpl.
    destruct (other_key k x) eqn:E.
    + simpl. f_equal. apply IH; [exact Hnd |].
      apply elem_of_cons in Hk as [->|Hk]; [| exact Hk].
      unfold other_key in E. rewrite String.eqb_refl in E. discriminate.
    + apply other_key_false in E. subst k. f_equal.
      change (List.filter (other_key (key x)) l) with (ll_Remove (key x) l).
      now rewrite ll_Remove_absent.
Qed.

(** What [Get] does when the map holds the key and the entry is fresh. *)
Lemma Get_hit (c : Cache) (k : string) (e : entry) (now : Z) :
  mu c = false -> cache c !! k = Some e ->
  TTL c = 0 \/ now - date e <= TTL c ->
  Get c k now =
    Returns (value e, true,
             {| MaxEntries := MaxEntries c; TTL := TTL c; mu := false;
                ll := {| key := key e; value := value e; date := now |}
                      :: ll_Remove (key e) (ll c);
                cache := <[k := {| key := key e; value := value e; date := now |}]>
                           (cache c) |}).
Proof.
  intros Hmu Hk Ht. unfold Get. rewrite (Lock_unlocked c Hmu).
  cbn [mbind Run_bind cache MaxEntries TTL ll mu]. rewrite Hk.
  assert (E : (TTL c =? 0) || (now - date e <=? TTL c) = true).
  { apply orb_true_iff. destruct Ht; [left | right]; lia. }
  rewrite E. reflexivity.
Qed.

(** What [Get] does when the map holds the key and the entry is too old. *)
Lemma Get_stale (c : Cache) (k : string) (e : entry) (now : Z) :
  mu c = false -> cache c !! k = Some e ->
  TTL c <> 0 -> TTL c < now - date e ->
  Get c k now =
    Returns ([], false,
             {| MaxEntries := MaxEntries c; TTL := TTL c; mu := false;
                ll := ll_Remove (key e) (ll c);
                cache := delete (key e) (cache c) |}).
Proof.
  intros Hmu Hk H0 Ht. unfold Get. rewrite (Lock_unlocked c Hmu).
  cbn [mbind Run_bind cache MaxEntries TTL ll mu]. rewrite Hk.
  destruct (Z.eqb_spec (TTL c) 0) as [E|_]; [contradiction |].
  destruct (Z.leb_spec (now - date e) (TTL c)) as [E|_]; [lia |].
  reflexivity.
Qed.

(** X1. After an [Add] that returns, a [Get] of the key within the TTL
    (or with no TTL) returns the value, dates the entry at the time of the
    [Get], puts the key first in the list and keeps the order of the other
    keys. *)
Theorem Add_then_Get (c c' : Cache) (k : string) (v : list byte) (t0 t1 : Z) :
  coherent c ->
  Add c k v t0 = Returns c' ->
  TTL c = 0 \/ t1 - t0 <= TTL c ->
  exists c'',
    Get c' k t1 = Returns (v, true, c'') /\
    cache c'' !! k = Some {| key := k; value := v; date := t1 |} /\
    keys c'' = k :: others k (keys c') /\
    coherent c''.
Proof.
  intros Hcoh HA Ht.
  pose proof (coherent_Add _ _ _ _ _ Hcoh HA) as Hcoh'.
  destruct (Add_Returns_inv _ _ _ _ _ HA)
    as (_ & Hmu' & HT & _ & e & Hc & Hv & Hd & Hke & _).
  specialize (Hke (proj1 Hcoh)).
  assert (Hk : cache c' !! k = Some e) by (rewrite Hc; apply lookup_insert_eq).
  assert (Ht' : TTL c' = 0 \/ t1 - date e <= TTL c') by (rewrite HT, Hd; exact Ht).
  pose proof (Get_hit c' k e t1 Hmu' Hk Ht') as HG.
  rewrite Hv, Hke in HG.
  eexists. split; [exact HG |].
  split; [cbn; apply lookup_insert_eq |].
  split; [unfold keys; cbn; now rewrite keys_ll_Remove_others |].
  exact (coherent_Get _ _ _ _ _ _ Hcoh' HG).
Qed.

Lemma Add_then_Get_witness :
  exists c' c'',
    Add (New 2 10) "k1" ["a"%byte] 0 = Returns c' /\
    Get c' "k1" 10 = Returns (["a"%byte], true, c'') /\
    cache c'' !! "k1" = Some {| key := "k1"; value := ["a"%byte]; date := 10 |} /\
    keys c'' = "k1" :: others "k1" (keys c') /\
    coherent c''.
Proof.
  eexists. 
  destruct (Add_then_Get (New 2 10) _ "k1" ["a"%byte] 0 10 (coherent_New 2 10) eq_refl)
    as (c'' & H); [right; simpl; lia |].
  exists c''. split; [reflexivity | exact H].
Defined.

(** X2. After an [Add] that returns, a [Get] of the key later than the TTL
    reports a miss and returns no value; it takes the key out of the map
    and the list and leaves every other key as it was; the next [Get] of
    the key is a miss again. *)
Theorem Get_after_expiry (c c' : Cache) (k : string) (v : list byte) (t0 t1 : Z) :
  coherent c ->
  Add c k v t0 = Returns c' ->
  TTL c <> 0 -> TTL c < t1 - t0 ->
  exists c'',
    Get c' k t1 = Returns ([], false, c'') /\
    cache c'' !! k = None /\
    keys c'' = others k (keys c') /\
    (forall k', k' <> k -> cache c'' !! k' = cache c' !! k') /\
    (forall t2, Get c'' k t2 = Returns ([], false, c'')) /\
    coherent c''.
Proof.
  intros Hcoh HA H0 Ht.
  pose proof (coherent_Add _ _ _ _ _ Hcoh HA) as Hcoh'.
  destruct (Add_Returns_inv _ _ _ _ _ HA)
    as (_ & Hmu' & HT & _ & e & Hc & Hv & Hd & Hke & _).
  specialize (Hke (proj1 Hcoh)).
  assert (Hk : cache c' !! k = Some e) by (rewrite Hc; apply lookup_insert_eq).
  pose proof (Get_stale c' k e t1 Hmu' Hk) as HG.
  rewrite HT, Hd, Hke in HG. specialize (HG H0 Ht).
  eexists. split; [exact HG |].
  split; [cbn; apply lookup_delete_eq |].
  split; [unfold keys; cbn; now rewrite keys_ll_Remove_others |].
  split; [intros k' Hne; cbn; now apply lookup_delete_ne |].
  split.
  - intros t2. rewrite FindersFacts.Get_miss; [reflexivity | reflexivity |].
    cbn. apply lookup_delete_eq.
  - exact (coherent_Get _ _ _ _ _ _ Hcoh' HG).
Qed.

Lemma Get_after_expiry_witness :
  exists c' c'',
    Add (New 2 10) "k1" ["a"%byte] 0 = Returns c' /\
    Get c' "k1" 11 = Returns ([], false, c'') /\
    cache c'' !! "k1" = None /\
    keys c'' = others "k1" (keys c') /\
    (forall k', k' <> "k1" -> cache c'' !! k' = cache c' !! k') /\
    (forall t2, Get c'' "k1" t2 = Returns ([], false, c'')) /\
    coherent c''.
Proof.
  eexists.
  destruct (Get_after_expiry (New 2 10) _ "k1" ["a"%byte] 0 11
              (coherent_New 2 10) eq_refl)
    as (c'' & H); [simpl; lia | simpl; lia |].
  exists c''. split; [reflexivity | exact H].
Defined.

Lemma Gets_hits (k : string) (ts : list Z) : forall (c : Cache) (e : entry),
  mu c = false -> cache c !! k = Some e -> key e = k ->
  TTL c = 0 \/ paced (TTL c) (date e) ts ->
  exists c', Gets c k ts = Returns ((fun _ => (value e, true)) <$> ts, c').
Proof.
  induction ts as [|t ts IH]; intros c e Hmu Hk Hke Hp.
  - eexists. reflexivity.
  - assert (Ht : TTL c = 0 \/ t - date e <= TTL c).
    { destruct Hp as [H|[H _]]; [left | right]; exact H. }
    cbn [Gets]. rewrite (Get_hit c k e t Hmu Hk Ht).
    match goal with
    | |- context [Gets ?c1 k ts] =>
        destruct (IH c1 {| key := key e; value := value e; date := t |})
          as (c' & HG); [| | | | rewrite HG; eexists; reflexivity]
    end.
    + reflexivity.
    + cbn. apply lookup_insert_eq.
    + exact Hke.
    + cbn. destruct Hp as [H|[_ H]]; [left | right]; exact H.
Qed.

(** X3. The TTL runs from the last use, not from the [Add]: after an [Add]
    that returns, [Get]s of the key at times each within the TTL of the one
    before all return the value, however long after the [Add] the last one
    is. *)
Theorem Gets_within_TTL_of_each_other (c c' : Cache) (k : string)
    (v : list byte) (t0 : Z) (ts : list Z) :
  keyed c ->
  Add c k v t0 = Returns c' ->
  paced (TTL c) t0 ts ->
  exists c'', Gets c' k ts = Returns ((fun _ => (v, true)) <$> ts, c'').
Proof.
  intros Hkd HA Hp.
  destruct (Add_Returns_inv _ _ _ _ _ HA)
    as (_ & Hmu' & HT & _ & e & Hc & Hv & Hd & Hke & _).
  specialize (Hke Hkd).
  assert (Hk : cache c' !! k = Some e) by (rewrite Hc; apply lookup_insert_eq).
  destruct (Gets_hits k ts c' e Hmu' Hk Hke) as (c'' & HG).
  - right. now rewrite HT, Hd.
  - exists c''. now rewrite <- Hv.
Qed.

Lemma Gets_within_TTL_of_each_other_witness :
  paced 10 0 [10; 20; 30] /\
  exists c' c'',
    Add (New 2 10) "k1" ["a"%byte] 0 = Returns c' /\
    Gets c' "k1" [10; 20; 30] =
      Returns ([(["a"%byte], true); (["a"%byte], true); (["a"%byte], true)], c'').
Proof.
  assert (Hp : paced 10 0 [10; 20; 30]) by (simpl; lia).
  split; [exact Hp |].
  eexists.
  destruct (Gets_within_TTL_of_each_other (New 2 10) _ "k1" ["a"%byte] 0
              [10; 20; 30] (keyed_New 2 10) eq_refl Hp) as (c'' & H).
  exists c''. split; [reflexivity | exact H].
Defined.

Lemma length_ll_Remove_le (k : string) (l : list entry) :
  (length (ll_Remove k l) <= length l)%nat.
Proof. unfold ll_Remove. apply List.filter_length_le. Qed.

Lemma coherent_present (c : Cache) (k : string) (e : entry) :
  coherent c -> cache c !! k = Some e -> key e = k /\ k ∈ key <$> ll c.
Proof.
  intros (Hkd & Hcl & _ & _) H. split; [eauto |].
  apply list_elem_of_fmap. exists e. split; [symmetry; eauto | eauto].
Qed.

Lemma Remove_unlocked (c : Cache) (k : string) :
  mu c = false ->
  Remove c k =
    Returns (match cache c !! k with
             | Some e =>
                 {| MaxEntries := MaxEntries c; TTL := TTL c; mu := false;
                    ll := ll_Remove (key e) (ll c);
                    cache := delete (key e) (cache c) |}
             | None => c
             end).
Proof.
  intros Hmu. unfold Remove. rewrite (Lock_unlocked c Hmu).
  cbn [mbind Run_bind cache MaxEntries TTL ll mu].
  destruct (cache c !! k); [reflexivity |].
  destruct c; simpl in *; subst; reflexivity.
Qed.

Lemma RemoveOldest_unlocked (c : Cache) :
  mu c = false ->
  RemoveOldest c =
    Returns (match last (ll c) with
             | Some e =>
                 {| MaxEntries := MaxEntries c; TTL := TTL c; mu := false;
                    ll := ll_Remove (key e) (ll c);
                    cache := delete (key e) (cache c) |}
             | None => c
             end).
Proof.
  intros Hmu. unfold RemoveOldest. rewrite (Lock_unlocked c Hmu).
  cbn [mbind Run_bind cache MaxEntries TTL ll mu].
  destruct (last (ll c)); [reflexivity |].
  destruct c; simpl in *; subst; reflexivity.
Qed.

Lemma coherent_AddAll (kvs : list (string * list byte * Z)) : forall c c' : Cache,
  coherent c -> AddAll c kvs = Returns c' -> coherent c'.
Proof.
  induction kvs as [|[[k v] now] kvs IH]; intros c c' Hcoh H.
  - injection H as <-. exact Hcoh.
  - cbn [AddAll] in H. destruct (Add c k v now) as [c1|] eqn:HA; [| discriminate].
    cbn [mbind Run_bind] in H.
    exact (IH _ _ (coherent_Add _ _ _ _ _ Hcoh HA) H).
Qed.

(** What one call keeps: the map and the list in step, the mutex free, the
    configuration, and the bound on the number of entries. *)
Lemma after_keeps (c c' : Cache) (o : call) :
  coherent c ->
  (0 < MaxEntries c -> Z.of_nat (length (ll c)) <= MaxEntries c) ->
  after c o = Returns c' ->
  coherent c' /\ mu c' = false /\
  MaxEntries c' = MaxEntries c /\ TTL c' = TTL c /\
  (0 < MaxEntries c' -> Z.of_nat (length (ll c')) <= MaxEntries c').
Proof.
  intros Hcoh Hsz H. destruct o as [k v now|k now|k|]; cbn [after] in H.
  - pose proof (coherent_Add _ _ _ _ _ Hcoh H) as Hcoh'.
    split; [exact Hcoh' |].
    unfold Add in H. destruct (Lock c) as [c1|] eqn:HL; [| discriminate].
    unfold Lock in HL. destruct (mu c) eqn:Hmu; [discriminate |].
    injection HL as <-. cbn [mbind Run_bind cache MaxEntries TTL ll mu] in H.
    destruct (cache c !! k) as [e|] eqn:Hk.
    + injection H as <-. cbn. repeat split; [].
      intros Hpos. destruct (coherent_present c k e Hcoh Hk) as [Hke Hin].
      rewrite Hke.
      pose proof (length_ll_Remove_present (ll c) k (proj2 (proj2 (proj2 Hcoh))) Hin).
      specialize (Hsz Hpos). lia.
    + destruct (negb (MaxEntries c =? 0) &&
                (MaxEntries c <? Z.of_nat (length ({| key := k; value := v; date := now |} :: ll c))))
        eqn:E.
      * rewrite RemoveOldest_locked in H by reflexivity. discriminate.
      * injection H as <-. cbn. repeat split; [].
        intros Hpos. apply andb_false_iff in E as [E|E].
        -- apply negb_false_iff in E. apply Z.eqb_eq in E. lia.
        -- apply Z.ltb_ge in E. cbn [length] in *. lia.
  - destruct (Get c k now) as [[[r ok] c1]|] eqn:HG; [| discriminate].
    injection H as <-.
    pose proof (coherent_Get _ _ _ _ _ _ Hcoh HG) as Hcoh'.
    split; [exact Hcoh' |].
    unfold Get in HG. destruct (Lock c) as [c2|] eqn:HL; [| discriminate].
    unfold Lock in HL. destruct (mu c) eqn:Hmu; [discriminate |].
    injection HL as <-. cbn [mbind Run_bind cache MaxEntries TTL ll mu] in HG.
    destruct (cache c !! k) as [e|] eqn:Hk.
    + destruct ((TTL c =? 0) || (now - date e <=? TTL c)).
      * injection HG as _ _ <-. cbn. repeat split; [].
        intros Hpos. destruct (coherent_present c k e Hcoh Hk) as [Hke Hin].
        rewrite Hke.
        pose proof (length_ll_Remove_present (ll c) k (proj2 (proj2 (proj2 Hcoh))) Hin).
        specialize (Hsz Hpos). lia.
      * injection HG as _ _ <-. cbn. repeat split; [].
        intros Hpos. pose proof (length_ll_Remove_le (key e) (ll c)) as Hle.
        unfold ll_Remove in Hle.
        specialize (Hsz Hpos). lia.
    + injection HG as _ _ <-. cbn. repeat split; []. exact Hsz.
  - unfold Remove in H. destruct (Lock c) as [c2|] eqn:HL; [| discriminate].
    unfold Lock in HL. destruct (mu c) eqn:Hmu; [discriminate |].
    injection HL as <-. cbn [mbind Run_bind cache MaxEntries TTL ll mu] in H.
    injection H as <-. destruct (cache c !! k) as [e|] eqn:Hk.
    + cbn. split; [apply (coherent_removeElement c e false Hcoh) |].
      repeat split; [].
      intros Hpos. pose proof (length_ll_Remove_le (key e) (ll c)) as Hle.
        unfold ll_Remove in Hle.
      specialize (Hsz Hpos). lia.
    + cbn. split; [| repeat split; exact Hsz].
      destruct Hcoh as (H1 & H2 & H3 & H4). repeat split; assumption.
  - unfold RemoveOldest in H. destruct (Lock c) as [c2|] eqn:HL; [| discriminate].
    unfold Lock in HL. destruct (mu c) eqn:Hmu; [discriminate |].
    injection HL as <-. cbn [mbind Run_bind cache MaxEntries TTL ll mu] in H.
    injection H as <-. destruct (last (ll c)) as [e|] eqn:Hk.
    + cbn. split; [apply (coherent_removeElement c e false Hcoh) |].
      repeat split; [].
      intros Hpos. pose proof (length_ll_Remove_le (key e) (ll c)) as Hle.
        unfold ll_Remove in Hle.
      specialize (Hsz Hpos). lia.
    + cbn. split; [| repeat split; exact Hsz].
      destruct Hcoh as (H1 & H2 & H3 & H4). repeat split; assumption.
Qed.

(** X4. Whatever exported methods are called on a cache made by [New], in
    whatever order, if the calls return then the map and the list hold the
    same entries, each key once, the mutex is free again, and with a
    positive [MaxEntries] the cache holds at most that many entries. *)
Theorem reachable_cache_invariant (n t : Z) (os : list call) (c : Cache) :
  after_all (New n t) os = Returns c ->
  coherent c /\ mu c = false /\ MaxEntries c = n /\ TTL c = t /\
  (0 < n -> Z.of_nat (length (ll c)) <= n).
Proof.
  assert (G : forall os c0 c,
             coherent c0 -> mu c0 = false ->
             (0 < MaxEntries c0 -> Z.of_nat (length (ll c0)) <= MaxEntries c0) ->
             after_all c0 os = Returns c ->
             coherent c /\ mu c = false /\
             MaxEntries c = MaxEntries c0 /\ TTL c = TTL c0 /\
             (0 < MaxEntries c0 -> Z.of_nat (length (ll c)) <= MaxEntries c0)).
  { clear. induction os as [|o os IH]; intros c0 c Hcoh Hmu Hsz H.
    - injection H as <-. auto.
    - cbn [after_all] in H. destruct (after c0 o) as [c1|] eqn:Ho; [| discriminate].
      destruct (after_keeps _ _ _ Hcoh Hsz Ho) as (Hc1 & Hm1 & HM & HT & Hs1).
      destruct (IH _ _ Hc1 Hm1 Hs1 H) as (A & B & C & D & E).
      rewrite HM in C, E. rewrite HT in D. auto. }
  intros H.
  apply (G os (New n t) c (coherent_New n t) eq_refl); [| exact H].
  cbn. lia.
Qed.

Lemma reachable_cache_invariant_witness :
  let os := [CallAdd "k1" ["a"%byte] 0; CallGet "k1" 5;
             CallAdd "k2" ["b"%byte] 6; CallGet "k1" 30; CallRemove "k0"] in
  let e2 := {| key := "k2"; value := ["b"%byte]; date := 6 |} in
  let c := {| MaxEntries := 2; TTL := 10; mu := false; ll := [e2];
              cache := <["k2" := e2]> ∅ |} in
  after_all (New 2 10) os = Returns c /\
  coherent c /\ mu c = false /\ MaxEntries c = 2 /\ TTL c = 10 /\
  (0 < 2 -> Z.of_nat (length (ll c)) <= 2).
Proof.
  intros os e2 c.
  assert (H : after_all (New 2 10) os = Returns c) by (vm_compute; reflexivity).
  split; [exact H | exact (reachable_cache_invariant 2 10 os c H)].
Defined.

(** X5. [Add] never returns in exactly two cases: the mutex is held, or
    the key is new, [MaxEntries] is not zero and the cache already holds
    [MaxEntries] entries or more (always so for a negative [MaxEntries]);
    in every other case it returns. *)
Theorem Add_Blocked_iff (c : Cache) (k : string) (v : list byte) (now : Z) :
  Add c k v now = Blocked <->
  mu c = true \/
  (cache c !! k = None /\ MaxEntries c <> 0 /\
   MaxEntries c <= Z.of_nat (length (ll c))).
Proof.
  unfold Add, Lock. destruct (mu c) eqn:Hmu.
  - split; [auto | reflexivity].
  - cbn [mbind Run_bind cache MaxEntries TTL ll mu].
    destruct (cache c !! k) as [e|] eqn:Hk.
    + split; [discriminate |]. intros [H|(H & _)]; discriminate.
    + destruct (Z.eqb_spec (MaxEntries c) 0) as [E0|E0]; cbn [negb andb].
      * split; [discriminate |]. intros [H|(_ & H & _)]; [discriminate | contradiction].
      * cbn [length].
        destruct (Z.ltb_spec (MaxEntries c) (Z.of_nat (S (length (ll c))))) as [E|E].
        -- rewrite RemoveOldest_locked by reflexivity.
           split; [intros _; right; repeat split; [exact E0 | lia] | reflexivity].
        -- split; [discriminate |].
           intros [H|(_ & _ & H)]; [discriminate | lia].
Qed.

(** X6. [Remove] on a cache whose mutex is free returns; after it the key
    is neither in the map nor in the list, every other key keeps its entry
    and its place, and a [Get] of the key is a miss. A key that is not in
    the cache leaves it unchanged. *)
Theorem Remove_removes (c : Cache) (k : string) :
  coherent c -> mu c = false ->
  exists c',
    Remove c k = Returns c' /\
    cache c' !! k = None /\
    (forall k', k' <> k -> cache c' !! k' = cache c !! k') /\
    keys c' = others k (keys c) /\
    (cache c !! k = None -> c' = c) /\
    (forall now, Get c' k now = Returns ([], false, c')) /\
    coherent c'.
Proof.
  intros Hcoh Hmu. rewrite (Remove_unlocked c k Hmu).
  eexists. split; [reflexivity |].
  destruct (cache c !! k) as [e|] eqn:Hk.
  - destruct (coherent_present c k e Hcoh Hk) as [Hke _].
    pose proof (coherent_removeElement c e false Hcoh) as HR.
    rewrite Hke in *.
    split; [cbn; apply lookup_delete_eq |].
    split; [intros k' Hne; cbn; now apply lookup_delete_ne |].
    split; [unfold keys; cbn [ll]; apply keys_ll_Remove_others |].
    split; [discriminate |].
    split; [| exact HR].
    intros now. rewrite FindersFacts.Get_miss; [reflexivity | reflexivity |].
    cbn. apply lookup_delete_eq.
  - split; [exact Hk |]. split; [reflexivity |].
    split.
    + unfold keys, others. symmetry.
      pose proof (coherent_absent c k Hcoh Hk) as Hn.
      induction (ll c) as [|x l IH]; [reflexivity |].
      rewrite fmap_cons in *. apply not_elem_of_cons in Hn as [Hx Hn].
      cbn [List.filter]. apply String.eqb_neq in Hx.
      rewrite String.eqb_sym in Hx. rewrite Hx. cbn [negb]. now rewrite IH.
    + split; [reflexivity |]. split; [| exact Hcoh].
      intros now. rewrite FindersFacts.Get_miss by assumption.
      now rewrite Unlock_mu.
Qed.

Lemma Remove_removes_witness :
  exists c c',
    AddAll (New 3 10) [("k1", ["a"%byte], 0); ("k2", ["b"%byte], 1)] = Returns c /\
    Remove c "k1" = Returns c' /\
    cache c' !! "k1" = None /\
    (forall k', k' <> "k1" -> cache c' !! k' = cache c !! k') /\
    keys c' = others "k1" (keys c) /\
    (cache c !! "k1" = None -> c' = c) /\
    (forall now, Get c' "k1" now = Returns ([], false, c')) /\
    coherent c'.
Proof.
  destruct (AddAll_room [("k1", ["a"%byte], 0); ("k2", ["b"%byte], 1)] (New 3 10))
    as (c & HA & Hmu & _).
  - reflexivity.
  - cbn. apply NoDup_cons. split; [| apply NoDup_singleton].
    intros Hin. apply list_elem_of_singleton in Hin. discriminate Hin.
  - intros k _. apply lookup_empty.
  - simpl. lia.
  - exists c.
    destruct (Remove_removes c "k1"
                (coherent_AddAll _ _ _ (coherent_New 3 10) HA) Hmu) as (c' & H).
    exists c'. split; [exact HA | exact H].
Defined.

(** X7. [RemoveOldest] on a cache whose mutex is free takes out the entry
    at the back of the list, the least recently used one, and nothing
    else; on an empty cache it changes nothing. *)
Theorem RemoveOldest_evicts_back (c : Cache) :
  coherent c -> mu c = false ->
  match last (ll c) with
  | Some e =>
      exists l,
        ll c = (l ++ [e])%list /\
        RemoveOldest c =
          Returns {| MaxEntries := MaxEntries c; TTL := TTL c; mu := false;
                     ll := l; cache := delete (key e) (cache c) |}
  | None => ll c = [] /\ cache c = ∅ /\ RemoveOldest c = Returns c
  end.
Proof.
  intros Hcoh Hmu. rewrite (RemoveOldest_unlocked c Hmu).
  destruct (last (ll c)) as [e|] eqn:HL.
  - apply last_Some in HL as [l Hl]. exists l. split; [exact Hl |].
    do 2 f_equal. destruct Hcoh as (_ & _ & _ & Hnd). rewrite Hl in *.
    rewrite fmap_app in Hnd. apply NoDup_app in Hnd as (_ & Hd & _).
    unfold ll_Remove. rewrite List.filter_app. cbn [List.filter].
    unfold other_key at 2. rewrite String.eqb_refl. cbn [negb].
    rewrite app_nil_r.
    change (List.filter (other_key (key e)) l) with (ll_Remove (key e) l).
    apply ll_Remove_absent. intros Hin. apply (Hd _ Hin).
    rewrite fmap_cons. apply list_elem_of_here.
  - apply last_None in HL. split; [exact HL |]. split; [| reflexivity].
    apply map_eq. intros k. rewrite lookup_empty.
    destruct (cache c !! k) as [e|] eqn:Hk; [| reflexivity].
    destruct Hcoh as (_ & Hcl & _). apply Hcl in Hk. rewrite HL in Hk.
    now apply not_elem_of_nil in Hk.
Qed.

Lemma RemoveOldest_evicts_back_witness :
  let e1 := {| key := "k1"; value := ["a"%byte]; date := 0 |} in
  let e2 := {| key := "k2"; value := ["b"%byte]; date := 1 |} in
  let c := {| MaxEntries := 3; TTL := 10; mu := false; ll := [e2; e1];
              cache := <["k2" := e2]> (<["k1" := e1]> ∅) |} in
  coherent c /\ mu c = false /\
  RemoveOldest c =
    Returns {| MaxEntries := 3; TTL := 10; mu := false; ll := [e2];
               cache := delete "k1" (cache c) |}.
Proof.
  intros e1 e2 c.
  assert (HA : AddAll (New 3 10) [("k1", ["a"%byte], 0); ("k2", ["b"%byte], 1)]
               = Returns c) by (vm_compute; reflexivity).
  pose proof (coherent_AddAll _ _ _ (coherent_New 3 10) HA) as Hcoh.
  split; [exact Hcoh |]. split; [reflexivity |].
  pose proof (RemoveOldest_evicts_back c Hcoh eq_refl) as H.
  change (last (ll c)) with (Some e1) in H.
  destruct H as (l & Hl & HR).
  change (ll c) with ([e2] ++ [e1])%list in Hl.
  apply app_inj_tail in Hl as [<- _]. exact HR.
Defined.

End LruMore.


(** ** More on versions and channels *)

Module VersionMore.
Import GoStrings Regexp VersionGrammar.
Import GoStringsFacts RegexpFacts VersionFacts.


Lemma Index_lacks (c : ascii) (sep' s : string) :
  lacks c s -> Index s (String c sep') = -1.
Proof.
  intros H. pose proof (Index_skip c sep' s "" H) as E.
  rewrite append_nil_r in E. rewrite E. reflexivity.
Qed.

Lemma Index_at_suffix (sep' p r : string) :
  lacks "-" p -> HasPrefix r (String "-" sep') = true ->
  Index (p ++ r) (String "-" sep') = Z.of_nat (String.length p).
Proof.
  intros Hp Hr. rewrite (Index_skip "-" sep' p r Hp).
  rewrite (Index_at_head _ _ Hr). simpl. lia.
Qed.

Lemma slice_to_head (p r : string) :
  slice_to (p ++ r) (Z.of_nat (String.length p)) = Some p.
Proof.
  pose proof (slice_to_append p r 0) as E.
  rewrite Z.add_0_r in E. rewrite E by lia.
  simpl. destruct r; simpl; now rewrite append_nil_r.
Qed.

Lemma number_lacks_dot n : Lang number n -> lacks "." n.
Proof. intros H. eapply Lang_avoids; [exact H | reflexivity]. Qed.

Lemma number_lacks_dash n : Lang number n -> lacks "-" n.
Proof. intros H. eapply Lang_avoids; [exact H | reflexivity]. Qed.

Lemma release_lacks_dash (n1 n2 n3 : string) :
  lacks "-" n1 -> lacks "-" n2 -> lacks "-" n3 ->
  lacks "-" (n1 ++ "." ++ n2 ++ "." ++ n3).
Proof.
  intros H1 H2 H3.
  apply lacks_append; [exact H1 |].
  apply (lacks_append "-" "." (n2 ++ "." ++ n3)); [simpl; split; [discriminate | exact I] |].
  apply lacks_append; [exact H2 |].
  apply (lacks_append "-" "." n3); [simpl; split; [discriminate | exact I] | exact H3].
Qed.

Lemma release_assoc (n1 n2 n3 r : string) :
  n1 ++ "." ++ n2 ++ "." ++ n3 ++ r = (n1 ++ "." ++ n2 ++ "." ++ n3) ++ r.
Proof.
  rewrite !append_assoc. reflexivity.
Qed.

(** A release without suffix. *)
Lemma SplitVersion_stable (n1 n2 n3 : string) :
  lacks "." n1 -> lacks "." n2 ->
  lacks "-" n1 -> lacks "-" n2 -> lacks "-" n3 ->
  GetVersionChannel (n1 ++ "." ++ n2 ++ "." ++ n3) = Stable /\
  SplitVersion (n1 ++ "." ++ n2 ++ "." ++ n3) = Some (n1, n2, n3).
Proof.
  intros D1 D2 H1 H2 H3.
  pose proof (release_lacks_dash n1 n2 n3 H1 H2 H3) as Hp.
  assert (Hc : GetVersionChannel (n1 ++ "." ++ n2 ++ "." ++ n3) = Stable).
  { unfold GetVersionChannel, Contains, devSuffix, betaSuffix.
    rewrite !Index_lacks by exact Hp. reflexivity. }
  split; [exact Hc |].
  rewrite (SplitVersion_eq _ (n1 ++ "." ++ n2 ++ "." ++ n3)).
  - now rewrite SplitN_3_dots.
  - unfold preSuffix. now rewrite Hc.
Qed.

(** A release followed by [-dev.] and anything. *)
Lemma SplitVersion_dev (n1 n2 n3 h : string) :
  lacks "." n1 -> lacks "." n2 ->
  lacks "-" n1 -> lacks "-" n2 -> lacks "-" n3 ->
  GetVersionChannel ((n1 ++ "." ++ n2 ++ "." ++ n3) ++ "-dev." ++ h) = Dev /\
  SplitVersion ((n1 ++ "." ++ n2 ++ "." ++ n3) ++ "-dev." ++ h) = Some (n1, n2, n3).
Proof.
  intros D1 D2 H1 H2 H3.
  pose proof (release_lacks_dash n1 n2 n3 H1 H2 H3) as Hp.
  set (p := n1 ++ "." ++ n2 ++ "." ++ n3) in *.
  assert (Hi : Index (p ++ "-dev." ++ h) devSuffix = Z.of_nat (String.length p)).
  { apply Index_at_suffix; [exact Hp | apply (HasPrefix_append "-dev." h)]. }
  assert (Hc : GetVersionChannel (p ++ "-dev." ++ h) = Dev).
  { unfold GetVersionChannel, Contains. rewrite Hi.
    destruct (Z.leb_spec 0 (Z.of_nat (String.length p))); [reflexivity | lia]. }
  split; [exact Hc |].
  rewrite (SplitVersion_eq _ p).
  - subst p. now rewrite SplitN_3_dots.
  - unfold preSuffix. rewrite Hc, Hi. apply slice_to_head.
Qed.

(** A release followed by [-beta.] and something without a dash. *)
Lemma SplitVersion_beta (n1 n2 n3 n : string) :
  lacks "." n1 -> lacks "." n2 ->
  lacks "-" n1 -> lacks "-" n2 -> lacks "-" n3 -> lacks "-" n ->
  GetVersionChannel ((n1 ++ "." ++ n2 ++ "." ++ n3) ++ "-beta." ++ n) = Beta /\
  SplitVersion ((n1 ++ "." ++ n2 ++ "." ++ n3) ++ "-beta." ++ n) = Some (n1, n2, n3).
Proof.
  intros D1 D2 H1 H2 H3 Hn.
  pose proof (release_lacks_dash n1 n2 n3 H1 H2 H3) as Hp.
  set (p := n1 ++ "." ++ n2 ++ "." ++ n3) in *.
  assert (Hd : Index (p ++ "-beta." ++ n) devSuffix = -1).
  { unfold devSuffix. rewrite (Index_skip "-" "dev." p _ Hp).
    replace (Index ("-beta." ++ n) "-dev.") with (-1); [reflexivity |].
    change ("-beta." ++ n) with (String "-" ("beta." ++ n)).
    rewrite Index_eq.
    change (HasPrefix (String "-" ("beta." ++ n)) "-dev.") with false.
    cbv iota. rewrite Index_lacks; [reflexivity |].
    apply (lacks_append "-" "beta." n); [| exact Hn].
    simpl. repeat split; discriminate. }
  assert (Hi : Index (p ++ "-beta." ++ n) betaSuffix = Z.of_nat (String.length p)).
  { apply Index_at_suffix; [exact Hp | apply (HasPrefix_append "-beta." n)]. }
  assert (Hc : GetVersionChannel (p ++ "-beta." ++ n) = Beta).
  { unfold GetVersionChannel, Contains. rewrite Hd, Hi.
    change (0 <=? -1) with false. cbv iota.
    destruct (Z.leb_spec 0 (Z.of_nat (String.length p))); [reflexivity | lia]. }
  split; [exact Hc |].
  rewrite (SplitVersion_eq _ p).
  - subst p. now rewrite SplitN_3_dots.
  - unfold preSuffix. rewrite Hc, Hi. apply slice_to_head.
Qed.

(** X8. On a version of the documented grammar [N.N.N], [N.N.N-dev.H] or
    [N.N.N-beta.N], [SplitVersion] returns the three numbers without the
    suffix, and [GetVersionChannel] returns the channel the suffix names. *)
Theorem SplitVersion_of_documented_version (v : string) :
  MatchString Spec.specVersionReg v = true ->
  exists n1 n2 n3 suffix,
    v = n1 ++ "." ++ n2 ++ "." ++ n3 ++ suffix /\
    MatchString number n1 = true /\ MatchString number n2 = true /\
    MatchString number n3 = true /\
    SplitVersion v = Some (n1, n2, n3) /\
    ((suffix = "" /\ GetVersionChannel v = Stable) \/
     (exists h, suffix = "-dev." ++ h /\
                MatchString (Repeat hexlow 1 39) h = true /\
                GetVersionChannel v = Dev) \/
     (exists n, suffix = "-beta." ++ n /\ MatchString number n = true /\
                GetVersionChannel v = Beta)).
Proof.
  intros H. apply MatchString_Lang in H. unfold Spec.specVersionReg in H.
  apply Lang_Concat_inv in H as (n1 & s1 & -> & Hn1 & H).
  apply Lang_Concat_inv in H as (d1 & s2 & -> & Hd1 & H).
  apply Lang_Concat_inv in H as (n2 & s3 & -> & Hn2 & H).
  apply Lang_Concat_inv in H as (d2 & s4 & -> & Hd2 & H).
  apply Lang_Concat_inv in H as (n3 & suffix & -> & Hn3 & H).
  apply Lang_Literal_inv in Hd1 as ->. apply Lang_Literal_inv in Hd2 as ->.
  pose proof (number_lacks_dot _ Hn1) as D1.
  pose proof (number_lacks_dot _ Hn2) as D2.
  pose proof (number_lacks_dash _ Hn1) as H1.
  pose proof (number_lacks_dash _ Hn2) as H2.
  pose proof (number_lacks_dash _ Hn3) as H3.
  exists n1, n2, n3, suffix. split; [reflexivity |].
  split; [now apply MatchString_Lang |].
  split; [now apply MatchString_Lang |].
  split; [now apply MatchString_Lang |].
  rewrite release_assoc.
  unfold Quest in H. apply Lang_Alternate_inv in H as [H|H].
  - apply Lang_Empty_inv in H as ->. rewrite append_nil_r.
    destruct (SplitVersion_stable n1 n2 n3 D1 D2 H1 H2 H3) as [Hc Hs].
    split; [exact Hs |]. left. split; [reflexivity | exact Hc].
  - apply Lang_Alternate_inv in H as [H|H].
    + apply Lang_Concat_inv in H as (l & h & -> & Hl & Hh).
      apply Lang_Literal_inv in Hl as ->.
      destruct (SplitVersion_dev n1 n2 n3 h D1 D2 H1 H2 H3) as [Hc Hs].
      split; [exact Hs |]. right. left. exists h.
      split; [reflexivity |]. split; [now apply MatchString_Lang | exact Hc].
    + apply Lang_Concat_inv in H as (l & t & -> & Hl & H).
      apply Lang_Literal_inv in Hl as ->.
      apply Lang_Concat_inv in H as (d & n & -> & Hd & Hn).
      apply Lang_Chr_inv in Hd as (c & -> & Hc0).
      apply Ascii.eqb_eq in Hc0 as ->.
      change ("-beta" ++ "." ++ n) with ("-beta." ++ n).
      destruct (SplitVersion_beta n1 n2 n3 n D1 D2 H1 H2 H3
                  (number_lacks_dash _ Hn)) as [Hc Hs].
      split; [exact Hs |]. right. right. exists n.
      split; [reflexivity |]. split; [now apply MatchString_Lang | exact Hc].
Qed.

Lemma SplitVersion_of_documented_version_witness :
  MatchString Spec.specVersionReg "1.20.3-beta.4" = true /\
  exists n1 n2 n3 suffix,
    "1.20.3-beta.4" = n1 ++ "." ++ n2 ++ "." ++ n3 ++ suffix /\
    MatchString number n1 = true /\ MatchString number n2 = true /\
    MatchString number n3 = true /\
    SplitVersion "1.20.3-beta.4" = Some (n1, n2, n3) /\
    ((suffix = "" /\ GetVersionChannel "1.20.3-beta.4" = Stable) \/
     (exists h, suffix = "-dev." ++ h /\
                MatchString (Repeat hexlow 1 39) h = true /\
                GetVersionChannel "1.20.3-beta.4" = Dev) \/
     (exists n, suffix = "-beta." ++ n /\ MatchString number n = true /\
                GetVersionChannel "1.20.3-beta.4" = Beta)).
Proof.
  split; [reflexivity |].
  apply (SplitVersion_of_documented_version "1.20.3-beta.4"). reflexivity.
Defined.

Lemma lt_irrefl (a : string) : lt a a = false.
Proof.
  unfold lt, String.ltb. destruct (String.compare a a) eqn:E; try reflexivity.
  exfalso. apply (StrictOrder_Irreflexive (R := OrdersEx.String_as_OT.lt) a). exact E.
Qed.

Lemma lt_trans (a b c : string) :
  lt a b = true -> lt b c = true -> lt a c = true.
Proof.
  unfold lt, String.ltb. intros H1 H2.
  destruct (String.compare a b) eqn:E1; try discriminate.
  destruct (String.compare b c) eqn:E2; try discriminate.
  pose proof (StrictOrder_Transitive (R := OrdersEx.String_as_OT.lt) a b c E1 E2) as E.
  unfold OrdersEx.String_as_OT.lt in E.
  change (OrdersEx.String_as_OT.compare a c) with (String.compare a c) in E.
  now rewrite E.
Qed.

Lemma lt_total (a b : string) : a <> b -> lt a b = false -> lt b a = true.
Proof.
  unfold lt, String.ltb. intros Hne H. rewrite (String.compare_antisym b a).
  destruct (String.compare a b) eqn:E; try discriminate; [| reflexivity].
  apply String.compare_eq_iff in E. contradiction.
Qed.

Lemma lt_asym (a b : string) : lt a b = true -> lt b a = false.
Proof.
  intros H. destruct (lt b a) eqn:E; [| reflexivity].
  pose proof (lt_trans _ _ _ H E) as F. rewrite lt_irrefl in F. discriminate.
Qed.

Lemma VersionLess_eq (a b a0 a1 a2 b0 b1 b2 : string) :
  SplitVersion a = Some (a0, a1, a2) -> SplitVersion b = Some (b0, b1, b2) ->
  VersionLess a b =
    Some (if lt a0 b0 then true
          else if String.eqb a0 b0 && lt a1 b1 then true
          else if String.eqb a0 b0 && String.eqb a1 b1 && lt a2 b2 then true
          else false).
Proof. intros Ha Hb. unfold VersionLess. rewrite Ha, Hb. reflexivity. Qed.

Lemma VersionMatch_eq (a b a0 a1 a2 b0 b1 b2 : string) :
  SplitVersion a = Some (a0, a1, a2) -> SplitVersion b = Some (b0, b1, b2) ->
  VersionMatch a b =
    Some (String.eqb a0 b0 && String.eqb a1 b1 && String.eqb a2 b2).
Proof. intros Ha Hb. unfold VersionMatch. rewrite Ha, Hb. reflexivity. Qed.

Lemma VersionLess_Some_inv (a b : string) (r : bool) :
  VersionLess a b = Some r ->
  exists a0 a1 a2 b0 b1 b2,
    SplitVersion a = Some (a0, a1, a2) /\ SplitVersion b = Some (b0, b1, b2).
Proof.
  unfold VersionLess. intros H.
  destruct (SplitVersion a) as [[[a0 a1] a2]|]; [| discriminate].
  destruct (SplitVersion b) as [[[b0 b1] b2]|]; [| discriminate].
  now exists a0, a1, a2, b0, b1, b2.
Qed.

(** [VersionLess], read as a proposition on the two triples. *)
Lemma less_true_iff (a0 a1 a2 b0 b1 b2 : string) :
  (if lt a0 b0 then true
   else if String.eqb a0 b0 && lt a1 b1 then true
   else if String.eqb a0 b0 && String.eqb a1 b1 && lt a2 b2 then true
   else false) = true <->
  lt a0 b0 = true \/
  (a0 = b0 /\ lt a1 b1 = true) \/
  (a0 = b0 /\ a1 = b1 /\ lt a2 b2 = true).
Proof.
  destruct (lt a0 b0) eqn:L0; [tauto |].
  destruct (String.eqb_spec a0 b0) as [E0|N0]; cbn [andb].
  - destruct (lt a1 b1) eqn:L1; [tauto |].
    destruct (String.eqb_spec a1 b1) as [E1|N1]; cbn [andb].
    + destruct (lt a2 b2) eqn:L2; [tauto |].
      split; [discriminate |].
      intros [H|[[_ H]|(_ & _ & H)]]; discriminate.
    + split; [discriminate |].
      intros [H|[[_ H]|(_ & H & _)]]; try discriminate. contradiction.
  - split; [discriminate |].
    intros [H|[[H _]|(H & _)]]; try discriminate; contradiction.
Qed.

(** X10. Where [SplitVersion] does not panic, [VersionLess] is a strict
    total order on the triples of strings: no version is less than itself,
    the relation is transitive, and of two versions exactly one of
    [VersionLess a b], [VersionMatch a b], [VersionLess b a] holds. *)
Theorem VersionLess_strict_total_order :
  (forall a t, SplitVersion a = Some t -> VersionLess a a = Some false) /\
  (forall a b c,
      VersionLess a b = Some true -> VersionLess b c = Some true ->
      VersionLess a c = Some true) /\
  (forall a b ta tb,
      SplitVersion a = Some ta -> SplitVersion b = Some tb ->
      (VersionLess a b = Some true /\ VersionMatch a b = Some false /\
       VersionLess b a = Some false) \/
      (VersionLess a b = Some false /\ VersionMatch a b = Some true /\
       VersionLess b a = Some false) \/
      (VersionLess a b = Some false /\ VersionMatch a b = Some false /\
       VersionLess b a = Some true)).
Proof.
  split; [| split].
  - intros a [[a0 a1] a2] Ha. rewrite (VersionLess_eq _ _ _ _ _ _ _ _ Ha Ha).
    now rewrite !lt_irrefl, !andb_false_r.
  - intros a b c Hab Hbc.
    destruct (VersionLess_Some_inv _ _ _ Hab) as (a0 & a1 & a2 & b0 & b1 & b2 & Ha & Hb).
    destruct (VersionLess_Some_inv _ _ _ Hbc) as (? & ? & ? & c0 & c1 & c2 & Hb' & Hc).
    rewrite Hb in Hb'. injection Hb' as <- <- <-.
    rewrite (VersionLess_eq _ _ _ _ _ _ _ _ Ha Hb) in Hab.
    rewrite (VersionLess_eq _ _ _ _ _ _ _ _ Hb Hc) in Hbc.
    rewrite (VersionLess_eq _ _ _ _ _ _ _ _ Ha Hc).
    injection Hab as Hab. injection Hbc as Hbc. f_equal.
    apply less_true_iff in Hab, Hbc. apply less_true_iff.
    destruct Hab as [L|[[-> L]|(-> & -> & L)]];
      destruct Hbc as [M|[[<- M]|(<- & <- & M)]];
      eauto 6 using lt_trans.
  - intros a b [[a0 a1] a2] [[b0 b1] b2] Ha Hb.
    rewrite (VersionLess_eq _ _ _ _ _ _ _ _ Ha Hb).
    rewrite (VersionLess_eq _ _ _ _ _ _ _ _ Hb Ha).
    rewrite (VersionMatch_eq _ _ _ _ _ _ _ _ Ha Hb).
    rewrite (String.eqb_sym b0 a0), (String.eqb_sym b1 a1).
    destruct (String.eqb_spec a0 b0) as [->|N0]; cbn [andb].
    + rewrite lt_irrefl.
      destruct (String.eqb_spec a1 b1) as [->|N1]; cbn [andb].
      * rewrite lt_irrefl.
        destruct (String.eqb_spec a2 b2) as [->|N2].
        -- rewrite lt_irrefl. auto.
        -- destruct (lt a2 b2) eqn:L.
           ++ rewrite (lt_asym _ _ L). auto.
           ++ rewrite (lt_total _ _ N2 L). auto.
      * destruct (lt a1 b1) eqn:L.
        -- rewrite (lt_asym _ _ L). auto.
        -- rewrite (lt_total _ _ N1 L). auto.
    + destruct (lt a0 b0) eqn:L.
      * rewrite (lt_asym _ _ L). auto.
      * rewrite (lt_total _ _ N0 L). auto.
Qed.

Lemma VersionLess_strict_total_order_witness :
  VersionLess "1.2.3" "1.2.3-beta.1" = Some false /\
  VersionMatch "1.2.3" "1.2.3-beta.1" = Some true /\
  VersionLess "1.2.3-beta.1" "1.2.3" = Some false.
Proof.
  destruct VersionLess_strict_total_order as (_ & _ & H).
  destruct (H "1.2.3" "1.2.3-beta.1" _ _ eq_refl eq_refl)
    as [(A & _)|[H'|(_ & A & _)]]; [discriminate A | exact H' | discriminate A].
Defined.


End VersionMore.


(** ** Validation and publication *)

Module PublishFacts.
Import GoStrings Regexp VersionGrammar Chars Publish.
Import GoStringsFacts RegexpFacts.

Lemma Lang_Star_Chr (cc : charclass) (s : string) :
  Lang (Star (Chr cc)) s <-> all_chars (accepts cc) s = true.
Proof.
  induction s as [|c s IH].
  - split; [reflexivity | intros _; constructor].
  - cbn [all_chars]. rewrite andb_true_iff, <- IH. split.
    + intros H. apply Lang_Star_cons_inv in H as (s1 & s2 & -> & H1 & H2).
      apply Lang_Chr_inv in H1 as (d & E & Hd). injection E as -> ->.
      split; [exact Hd | exact H2].
    + intros [Hc Hs].
      change (String c s) with (String c "" ++ s).
      apply LStarCons; [now constructor | exact Hs].
Qed.

Lemma all_chars_ext (p q : ascii -> bool) (s : string) :
  (forall c, p c = q c) -> all_chars p s = all_chars q s.
Proof.
  intros E. induction s as [|c s IH]; [reflexivity |].
  cbn [all_chars]. now rewrite E, IH.
Qed.

Lemma accepts_letter (c : ascii) :
  accepts (CRanges [("A", "Z"); ("a", "z")]%char) c = is_letter c.
Proof. destruct c as [[] [] [] [] [] [] [] []]; reflexivity. Qed.

Lemma accepts_slug_char (c : ascii) :
  accepts (CRanges [("A", "Z"); ("a", "z"); ("0", "9"); ("-", "-")]%char) c
  = is_slug_char c.
Proof. destruct c as [[] [] [] [] [] [] [] []]; reflexivity. Qed.

(** What [validSlugReg] accepts. *)
Lemma validSlugReg_is_slug (s : string) :
  MatchString validSlugReg s = is_slug s.
Proof.
  apply eq_true_iff_eq. rewrite MatchString_Lang. unfold validSlugReg. split.
  - intros H. apply Lang_Concat_inv in H as (a & r & -> & Ha & Hr).
    apply Lang_Chr_inv in Ha as (c & -> & Hc).
    apply Lang_Star_Chr in Hr. cbn [String.append is_slug].
    rewrite accepts_letter in Hc. rewrite Hc.
    rewrite (all_chars_ext _ _ r accepts_slug_char) in Hr. now rewrite Hr.
  - destruct s as [|c r]; [discriminate |]. cbn [is_slug].
    intros H. apply andb_true_iff in H as [Hc Hr].
    change (String c r) with (String c "" ++ r). constructor.
    + constructor. now rewrite accepts_letter.
    + apply Lang_Star_Chr. now rewrite (all_chars_ext _ _ r accepts_slug_char).
Qed.

Lemma fromHexChar_is_hex (c : ascii) :
  is_hex c = true <-> exists n, GoHex.fromHexChar c = Some n.
Proof.
  destruct c as [[] [] [] [] [] [] [] []];
    (split; [intros H; try discriminate H; eexists; reflexivity
            | intros [n H]; try discriminate H; reflexivity]).
Qed.

(** [hex.DecodeString] reports no error exactly on an even number of
    hexadecimal digits, and then returns half as many bytes. *)
Lemma DecodeString_ok (n : nat) : forall s : string,
  (String.length s <= n)%nat ->
  (snd (GoHex.DecodeString s) = false <->
     Nat.even (String.length s) = true /\ all_chars is_hex s = true) /\
  (snd (GoHex.DecodeString s) = false ->
     String.length s = (2 * length (fst (GoHex.DecodeString s)))%nat).
Proof.
  induction n as [|n IH]; intros s Hn.
  - destruct s; [| simpl in Hn; lia]. simpl. tauto.
  - destruct s as [|p [|q s]].
    + simpl. tauto.
    + simpl. split; [split; [discriminate | intros [H _]; discriminate] | discriminate].
    + assert (Hs : (String.length s <= n)%nat) by (simpl in Hn; lia).
      destruct (IH s Hs) as [IH1 IH2].
      cbn [GoHex.DecodeString String.length all_chars Nat.even].
      destruct (GoHex.fromHexChar p) as [a|] eqn:Hp.
      * destruct (GoHex.fromHexChar q) as [b|] eqn:Hq.
        -- assert (Ep : is_hex p = true) by (apply fromHexChar_is_hex; eauto).
           assert (Eq : is_hex q = true) by (apply fromHexChar_is_hex; eauto).
           rewrite Ep, Eq. cbn [andb].
           destruct (GoHex.DecodeString s) as [bs e]. cbn [fst snd length] in *.
           split; [exact IH1 |]. intros H. apply IH2 in H. lia.
        -- assert (Eq : is_hex q = false).
           { destruct (is_hex q) eqn:E; [| reflexivity].
             apply fromHexChar_is_hex in E as [m E]. congruence. }
           rewrite Eq, andb_false_r. cbn [andb fst snd].
           split; [split; [discriminate | intros [_ H]; discriminate] | discriminate].
      * assert (Ep : is_hex p = false).
        { destruct (is_hex p) eqn:E; [| reflexivity].
          apply fromHexChar_is_hex in E as [m E]. congruence. }
        rewrite Ep. cbn [andb fst snd].
        split; [split; [discriminate | intros [_ H]; discriminate] | discriminate].
Qed.

Lemma DecodeString_32 (s : string) :
  (snd (GoHex.DecodeString s) = false /\
   length (fst (GoHex.DecodeString s)) = 32%nat) <->
  (String.length s = 64%nat /\ all_chars is_hex s = true).
Proof.
  destruct (DecodeString_ok (String.length s) s (le_n _)) as [H1 H2]. split.
  - intros [He Hl]. pose proof (H2 He) as E. rewrite Hl in E.
    split; [exact E | now apply H1].
  - intros [Hl Hh]. assert (He : snd (GoHex.DecodeString s) = false).
    { apply H1. rewrite Hl. split; [reflexivity | exact Hh]. }
    split; [exact He |]. pose proof (H2 He) as E. lia.
Qed.

Section WithParse.

Variable url_Parse_err : string -> bool.

Lemma IsValidApp_None_iff (app : App) :
  IsValidApp url_Parse_err app = None <->
  is_slug (app_Slug app) = true /\
  app_Editor app <> "" /\
  (app_Type app = "webapp" \/ app_Type app = "konnector") /\
  (app_Repository app = "" \/ url_Parse_err (app_Repository app) = false).
Proof.
  unfold IsValidApp. rewrite validSlugReg_is_slug.
  destruct (is_slug (app_Slug app)) eqn:Hs.
  - assert (E : String.eqb (app_Slug app) "" = false).
    { destruct (app_Slug app); [discriminate Hs | reflexivity]. }
    rewrite E. cbn [negb orb].
    unfold Registry.stringInArray, validAppTypes. cbn [existsb].
    rewrite orb_false_r.
    destruct (String.eqb_spec (app_Editor app) "") as [He|He];
      destruct (String.eqb_spec (app_Type app) "webapp") as [Hw|Hw];
      destruct (String.eqb_spec (app_Type app) "konnector") as [Hk|Hk];
      destruct (String.eqb_spec (app_Repository app) "") as [Hr|Hr];
      destruct (url_Parse_err (app_Repository app)) eqn:Hu;
      cbn; (split;
        [ intros H; try discriminate H; repeat split; auto
        | intros (_ & HE & HT & HR); try reflexivity; exfalso;
          first [ now apply HE
                | destruct HT; contradiction
                | destruct HR; [contradiction | congruence] ] ]).
  - rewrite orb_true_r. split; [discriminate | intros [H _]; discriminate].
Qed.

(** X12. [IsValidApp] accepts an application exactly when its slug is a
    letter followed by letters, digits and dashes, its editor is not
    empty, its type is [webapp] or [konnector], and its repository is
    empty or parses as a URL; a slug of another form is reported as
    [ErrAppInvalid] whatever the other fields hold. *)
Theorem IsValidApp_accepts_iff (app : App) :
  (IsValidApp url_Parse_err app = None <->
     is_slug (app_Slug app) = true /\
     app_Editor app <> "" /\
     (app_Type app = "webapp" \/ app_Type app = "konnector") /\
     (app_Repository app = "" \/ url_Parse_err (app_Repository app) = false)) /\
  (is_slug (app_Slug app) = false ->
     IsValidApp url_Parse_err app = Some ErrAppInvalid).
Proof.
  split; [apply IsValidApp_None_iff |].
  intros Hs. unfold IsValidApp. rewrite validSlugReg_is_slug, Hs.
  now rewrite orb_true_r.
Qed.

(** X13. [IsValidVersion] accepts the options exactly when the version
    and the URL are not empty, the URL parses, and the checksum is 64
    hexadecimal digits, in either case. The form of the version is not
    looked at. *)
Theorem IsValidVersion_accepts_iff (ver : Registry.VersionOptions) :
  IsValidVersion url_Parse_err ver = None <->
  Registry.opt_Version ver <> "" /\
  Registry.opt_URL ver <> "" /\
  url_Parse_err (Registry.opt_URL ver) = false /\
  String.length (Registry.opt_Sha256 ver) = 64%nat /\
  all_chars is_hex (Registry.opt_Sha256 ver) = true.
Proof.
  unfold IsValidVersion.
  pose proof (DecodeString_32 (Registry.opt_Sha256 ver)) as HD.
  destruct (GoHex.DecodeString (Registry.opt_Sha256 ver)) as [h e].
  cbn [fst snd] in HD.
  assert (HS : e || negb (length h =? 32)%nat = false <->
               String.length (Registry.opt_Sha256 ver) = 64%nat /\
               all_chars is_hex (Registry.opt_Sha256 ver) = true).
  { rewrite <- HD, orb_false_iff, negb_false_iff, Nat.eqb_eq. reflexivity. }
  destruct (e || negb (length h =? 32)%nat) eqn:Hsha;
    destruct (String.eqb_spec (Registry.opt_Version ver) "") as [Hv|Hv];
    destruct (String.eqb_spec (Registry.opt_URL ver) "") as [Hu|Hu];
    destruct (url_Parse_err (Registry.opt_URL ver)) eqn:Hp;
    cbn; (split;
      [ intros H; try discriminate H; repeat split; auto; now apply HS
      | intros (HV & HU & HP & HL); try reflexivity; exfalso;
        first [ now apply HV | now apply HU | discriminate HP
              | assert (F : true = false) by (now apply HS); discriminate F ] ]).
Qed.

End WithParse.

Lemma or_else_idem {A : Type} (p d : option A) :
  or_else p (or_else p d) = or_else p d.
Proof. destruct p; reflexivity. Qed.

Lemma or_else_same {A : Type} (p : option A) : or_else p p = p.
Proof. destruct p; reflexivity. Qed.

Lemma lower_is_letter (c : ascii) :
  is_letter c = true -> is_letter (lower_ascii c) = true.
Proof. destruct c as [[] [] [] [] [] [] [] []]; intros H; try discriminate H; reflexivity. Qed.

Lemma lower_is_slug_char (c : ascii) :
  is_slug_char c = true -> is_slug_char (lower_ascii c) = true.
Proof. destruct c as [[] [] [] [] [] [] [] []]; intros H; try discriminate H; reflexivity. Qed.

Lemma lower_ascii_idem (c : ascii) : lower_ascii (lower_ascii c) = lower_ascii c.
Proof. destruct c as [[] [] [] [] [] [] [] []]; reflexivity. Qed.

Lemma ToLower_idem (s : string) : ToLower (ToLower s) = ToLower s.
Proof.
  induction s as [|c s IH]; [reflexivity |].
  cbn [ToLower]. now rewrite lower_ascii_idem, IH.
Qed.

(** The identifier of a slug is a slug. *)
Lemma is_slug_ToLower (s : string) : is_slug s = true -> is_slug (ToLower s) = true.
Proof.
  destruct s as [|c s]; [discriminate |]. cbn [is_slug ToLower].
  intros H. apply andb_true_iff in H as [Hc Hs].
  rewrite (lower_is_letter c Hc). cbn [andb].
  induction s as [|d s IH]; [reflexivity |].
  cbn [all_chars ToLower] in *. apply andb_true_iff in Hs as [Hd Hs].
  rewrite (lower_is_slug_char d Hd). cbn [andb]. now apply IH.
Qed.

Section WithStore.

Variable url_Parse_err : string -> bool.
Variable st : Store.

(** X14. An application whose slug the store does not hold is created
    under the lower-case form of its slug, which is a slug again, as
    identifier and as slug; the document that is written carries the
    calling editor, the instant of the call as creation and update date,
    no nil name, description, locales, tags or screenshots, and no
    versions; it passes [IsValidApp] again when the editor has a name,
    and the caller gets it back with three empty lists of versions. *)
Theorem CreateOrUpdateApp_creates (app : App) (editorName : string) (now : Z) :
  IsValidApp url_Parse_err app = None ->
  client_DB st AppsDB = None ->
  FindApp st (app_Slug app) = inl ErrAppNotFound ->
  (forall doc, AppsDB_CreateDoc st doc = None) ->
  exists doc,
    let o := CreateOrUpdateApp url_Parse_err st app editorName now in
    writes o = [CreatedApp doc] /\
    updated o = true /\ err o = None /\
    result o = Some (with_Versions doc
                       (Some {| Registry.av_Stable := [];
                                Registry.av_Beta := [];
                                Registry.av_Dev := [] |})) /\
    app_ID doc = ToLower (app_Slug app) /\
    app_Slug doc = app_ID doc /\
    is_slug (app_ID doc) = true /\
    Registry.getAppID (app_ID doc) = app_ID doc /\
    app_Editor doc = editorName /\
    app_CreatedAt doc = UTC now /\ app_UpdatedAt doc = UTC now /\
    app_Name doc <> None /\ app_Description doc <> None /\
    app_Locales doc <> None /\ app_Tags doc <> None /\
    app_ScreenshotURLs doc <> None /\
    app_Versions doc = None /\
    (editorName <> "" -> IsValidApp url_Parse_err doc = None).
Proof.
  intros Hv Hdb Hf Hc.
  pose proof (proj1 (IsValidApp_None_iff url_Parse_err app) Hv)
    as (Hslug & He & Ht & Hr).
  unfold Publish.CreateOrUpdateApp. rewrite Hv, Hdb, Hf. cbn [is_ErrAppNotFound].
  unfold createApp. rewrite Hc.
  eexists. cbn [writes updated err result]. split; [reflexivity |].
  split; [reflexivity |]. split; [reflexivity |]. split; [reflexivity |].
  cbn [app_ID app_Slug app_Editor app_CreatedAt app_UpdatedAt app_Name
       app_Description app_Locales app_Tags app_ScreenshotURLs app_Versions].
  unfold Registry.getAppID.
  split; [reflexivity |]. split; [reflexivity |].
  split; [now apply is_slug_ToLower |].
  split; [apply ToLower_idem |].
  split; [reflexivity |]. split; [reflexivity |]. split; [reflexivity |].
  split; [destruct (app_Name app); discriminate |].
  split; [destruct (app_Description app); discriminate |].
  split; [destruct (app_Locales app); discriminate |].
  split; [destruct (app_Tags app); discriminate |].
  split; [destruct (app_ScreenshotURLs app); discriminate |].
  split; [reflexivity |].
  intros Hn. apply (IsValidApp_None_iff url_Parse_err).
  cbn [app_Slug app_Editor app_Type app_Repository].
  split; [now apply is_slug_ToLower |]. auto.
Qed.

(** X15. An update cannot change the identifier, the revision, the slug,
    the type or the creation date of an application: what the caller gets
    back and what is written carry those of the stored document, whatever
    the request says; the editor is the calling one, and a write is a
    [Put] under the stored identifier, dated at the instant of the call,
    without versions. *)
Theorem CreateOrUpdateApp_update_keeps (app old : App) (editorName : string)
    (now : Z) :
  FindApp st (app_Slug app) = inr old ->
  let o := CreateOrUpdateApp url_Parse_err st app editorName now in
  (forall r, result o = Some r ->
     app_ID r = app_ID old /\ app_Rev r = app_Rev old /\
     app_Slug r = app_Slug old /\ app_Type r = app_Type old /\
     app_CreatedAt r = app_CreatedAt old /\ app_Editor r = editorName) /\
  (forall w, w ∈ writes o ->
     exists doc,
       w = PutApp (app_ID old) doc /\
       app_ID doc = app_ID old /\ app_Rev doc = app_Rev old /\
       app_Slug doc = app_Slug old /\ app_Type doc = app_Type old /\
       app_CreatedAt doc = app_CreatedAt old /\ app_Editor doc = editorName /\
       app_UpdatedAt doc = UTC now /\ app_Versions doc = None).
Proof.
  intros Hf. unfold CreateOrUpdateApp.
  destruct (IsValidApp url_Parse_err app) as [e|].
  { cbn. split; [discriminate | intros w Hw; now apply not_elem_of_nil in Hw]. }
  destruct (client_DB st AppsDB) as [e|].
  { cbn. split; [discriminate | intros w Hw; now apply not_elem_of_nil in Hw]. }
  rewrite Hf. unfold updateApp.
  destruct (DeepEqual (merged app old editorName) (blanked old)).
  { cbn. split; [intros r [= <-]; cbn; auto 10
                | intros w Hw; now apply not_elem_of_nil in Hw]. }
  cbn [app_ID app_Slug with_UpdatedAt merged].
  match goal with |- context [AppsDB_Put st ?i ?d] =>
    destruct (AppsDB_Put st i d) as [e|] end.
  { cbn. split; [discriminate | intros w Hw; now apply not_elem_of_nil in Hw]. }
  destruct (FindAppVersions st (app_Slug old)) as [e|versions].
  - cbn. split; [discriminate |].
    intros w Hw. apply list_elem_of_singleton in Hw as ->.
    eexists. split; [reflexivity |]. cbn. auto 10.
  - cbn. split; [intros r [= <-]; cbn; auto 10 |].
    intros w Hw. apply list_elem_of_singleton in Hw as ->.
    eexists. split; [reflexivity |]. cbn. auto 10.
Qed.

(** X16. Whatever the request and the store: the caller gets a result
    exactly when there is no error, and the result is the caller's own
    object; [updated] is reported only without error and with one write;
    there is never more than one write; a success that reports no update
    has written nothing. A write can be followed by an error, and then
    [updated] is false: this is the case when the document has been put
    and [FindAppVersions] fails. *)
Theorem CreateOrUpdateApp_outcome (app : App) (editorName : string) (now : Z) :
  let o := CreateOrUpdateApp url_Parse_err st app editorName now in
  (result o = None <-> err o <> None) /\
  (forall r, result o = Some r -> app_after o = r) /\
  (updated o = true -> err o = None /\ exists w, writes o = [w]) /\
  (length (writes o) <= 1)%nat /\
  (err o = None -> updated o = false -> writes o = []) /\
  (forall e, err o = Some e -> writes o <> [] ->
     updated o = false /\
     exists old, FindApp st (app_Slug app) = inr old /\
                 FindAppVersions st (app_Slug old) = inl e).
Proof.
  unfold CreateOrUpdateApp.
  assert (F : forall e a,
             let o := failed e a [] in
             (result o = None <-> err o <> None) /\
             (forall r, result o = Some r -> app_after o = r) /\
             (updated o = true -> err o = None /\ exists w, writes o = [w]) /\
             (length (writes o) <= 1)%nat /\
             (err o = None -> updated o = false -> writes o = []) /\
             (forall e', err o = Some e' -> writes o <> [] ->
                updated o = false /\
                exists old, FindApp st (app_Slug app) = inr old /\
                            FindAppVersions st (app_Slug old) = inl e')).
  { intros e a. cbn. repeat split; try discriminate; auto.
    intros; contradiction. }
  destruct (IsValidApp url_Parse_err app) as [e|]; [apply F |].
  destruct (client_DB st AppsDB) as [e|]; [apply F |].
  destruct (FindApp st (app_Slug app)) as [e|old] eqn:Hf.
  - destruct (is_ErrAppNotFound e); [| apply F].
    unfold createApp.
    match goal with |- context [AppsDB_CreateDoc st ?d] =>
      destruct (AppsDB_CreateDoc st d) as [e'|] end; [apply F |].
    cbn. repeat split; try discriminate; eauto;
      try (intros r [= <-]; reflexivity); intros H; now contradiction H.
  - unfold updateApp.
    destruct (DeepEqual (merged app old editorName) (blanked old)).
    { cbn. repeat split; try discriminate; eauto;
        try (intros r [= <-]; reflexivity); intros H; now contradiction H. }
    cbn [app_ID app_Slug with_UpdatedAt merged].
    match goal with |- context [AppsDB_Put st ?i ?d] =>
      destruct (AppsDB_Put st i d) as [e|] end; [apply F |].
    destruct (FindAppVersions st (app_Slug old)) as [e|versions] eqn:Hv.
    + cbn. repeat split; try discriminate; eauto.
      match goal with H : Some _ = Some _ |- _ => injection H as <- end.
      now exists old.
    + cbn. repeat split; try discriminate; eauto;
        try (intros r [= <-]; reflexivity); intros H; now contradiction H.
Qed.

End WithStore.

Lemma merged_written (app doc : App) (editorName rev : string) :
  app_UpdatedAt app = zeroTime ->
  app_ID doc = app_ID doc ->
  app_Editor doc = editorName ->
  app_Versions doc = None ->
  app_Name doc = or_else (app_Name app) (app_Name doc) ->
  app_Developer doc = or_else (app_Developer app) (app_Developer doc) ->
  app_Description doc = or_else (app_Description app) (app_Description doc) ->
  app_Category doc = (if String.eqb (app_Category app) ""
                      then app_Category doc else app_Category app) ->
  app_Repository doc = (if String.eqb (app_Repository app) ""
                        then app_Repository doc else app_Repository app) ->
  app_Locales doc = or_else (app_Locales app) (app_Locales doc) ->
  app_Tags doc = or_else (app_Tags app) (app_Tags doc) ->
  app_LogoURL doc = app_LogoURL app ->
  app_ScreenshotURLs doc
    = or_else (app_ScreenshotURLs app) (app_ScreenshotURLs doc) ->
  merged app (with_Rev doc rev) editorName = blanked (with_Rev doc rev).
Proof.
  intros HU _ HE HV HN HD HDe HC HR HL HT HLo HS.
  unfold merged, blanked, with_Rev. cbn.
  rewrite <- HN, <- HD, <- HDe, <- HC, <- HR, <- HL, <- HT, <- HS, HU, HE, HLo.
  reflexivity.
Qed.

Lemma if_empty_idem (a b : string) :
  (if String.eqb a "" then b else a)
  = (if String.eqb a "" then (if String.eqb a "" then b else a) else a).
Proof. destruct (String.eqb a ""); reflexivity. Qed.

Lemma if_empty_self (a : string) :
  a = (if String.eqb a "" then a else a).
Proof. destruct (String.eqb a ""); reflexivity. Qed.

(** X17. Sending the same request again changes nothing: when a call has
    written a document and the store then holds it, under whatever
    revision, a second call with the same request by the same editor
    reports no update and writes nothing. The request carries no update
    date, as one decoded from a body without [updated_at]. *)
Theorem CreateOrUpdateApp_again (url_Parse_err : string -> bool)
    (st1 st2 : Store) (app : App) (editorName : string) (now1 now2 : Z)
    (w : Write) (doc : App) (rev : string) :
  app_UpdatedAt app = zeroTime ->
  writes (CreateOrUpdateApp url_Parse_err st1 app editorName now1) = [w] ->
  written_app w = Some doc ->
  client_DB st2 AppsDB = None ->
  FindApp st2 (app_Slug app) = inr (with_Rev doc rev) ->
  let o := CreateOrUpdateApp url_Parse_err st2 app editorName now2 in
  updated o = false /\ err o = None /\ writes o = [] /\
  result o = Some (blanked (with_Rev doc rev)).
Proof.
  intros HU Hw Hdoc Hdb Hf.
  assert (Hm : merged app (with_Rev doc rev) editorName
               = blanked (with_Rev doc rev) /\
               IsValidApp url_Parse_err app = None).
  { unfold CreateOrUpdateApp in Hw.
    destruct (IsValidApp url_Parse_err app) as [e|]; [discriminate Hw |].
    split; [| reflexivity].
    destruct (client_DB st1 AppsDB) as [e|]; [discriminate Hw |].
    destruct (FindApp st1 (app_Slug app)) as [e|old].
    - destruct (is_ErrAppNotFound e); [| discriminate Hw].
      unfold createApp in Hw.
      match type of Hw with context [AppsDB_CreateDoc st1 ?d] =>
        destruct (AppsDB_CreateDoc st1 d) as [e'|] end; [discriminate Hw |].
      cbn in Hw. injection Hw as <-. cbn in Hdoc. injection Hdoc as <-.
      apply merged_written; cbn; try reflexivity; try exact HU;
        try (symmetry; apply or_else_idem); try apply if_empty_self;
        symmetry; apply or_else_same.
    - unfold updateApp in Hw.
      destruct (DeepEqual (merged app old editorName) (blanked old));
        [discriminate Hw |].
      cbn [app_ID app_Slug with_UpdatedAt merged] in Hw.
      match type of Hw with context [AppsDB_Put st1 ?i ?d] =>
        destruct (AppsDB_Put st1 i d) as [e|] end; [discriminate Hw |].
      destruct (FindAppVersions st1 (app_Slug old)) as [e|versions];
        cbn in Hw; injection Hw as <-; cbn in Hdoc; injection Hdoc as <-;
        (apply merged_written; cbn; try reflexivity; try exact HU;
         try (symmetry; apply or_else_idem); apply if_empty_idem). }
  destruct Hm as [Hm Hv].
  unfold CreateOrUpdateApp. rewrite Hv, Hdb, Hf. unfold updateApp.
  unfold DeepEqual. rewrite bool_decide_eq_true_2 by exact Hm.
  cbn. rewrite Hm. auto.
Qed.

(** X18. [CreateVersion] never writes over a version: when the store
    holds the version it returns [ErrVersionAlreadyExists], writes
    nothing and leaves [ver] as it was. What it writes, when the store
    reports [ErrVersionNotFound], is [ver] under the identifier it came
    with, with the slug, the type and the editor of the application in
    place of its own; no other error of the lookup leads to a write, and
    there is a write exactly when no error is returned. *)
Theorem CreateVersion_writes (st : Store) (ver : Registry.Version) (app : App) :
  let '(e, ver', ws) := CreateVersion st ver app in
  (forall found,
      FindVersion st (Registry.ver_Slug ver) (Registry.ver_Version ver)
        = inr found ->
      e = Some ErrVersionAlreadyExists /\ ver' = ver /\ ws = []) /\
  (e = None <-> ws <> []) /\
  (forall w, w ∈ ws ->
     w = CreatedVersion ver' /\ ws = [w] /\
     FindVersion st (Registry.ver_Slug ver) (Registry.ver_Version ver)
       = inl ErrVersionNotFound /\
     Registry.ver_ID ver' = Registry.ver_ID ver /\
     Registry.ver_Version ver' = Registry.ver_Version ver /\
     Registry.ver_Slug ver' = app_Slug app /\
     Registry.ver_Type ver' = app_Type app /\
     Registry.ver_Editor ver' = app_Editor app).
Proof.
  unfold CreateVersion.
  destruct (FindVersion st (Registry.ver_Slug ver) (Registry.ver_Version ver))
    as [e|found] eqn:Hf.
  - assert (N : forall (e' : error) (v : Registry.Version),
               (forall found : Registry.Version,
                   @inl error Registry.Version e = inr found ->
                   Some e' = Some ErrVersionAlreadyExists /\ v = ver /\
                   @nil Write = []) /\
               (Some e' = None <-> @nil Write <> []) /\
               (forall w, w ∈ @nil Write ->
                  w = CreatedVersion v /\ @nil Write = [w] /\
                  @inl error Registry.Version e = inl ErrVersionNotFound /\
                  Registry.ver_ID v = Registry.ver_ID ver /\
                  Registry.ver_Version v = Registry.ver_Version ver /\
                  Registry.ver_Slug v = app_Slug app /\
                  Registry.ver_Type v = app_Type app /\
                  Registry.ver_Editor v = app_Editor app)).
    { intros e' v. split; [discriminate |].
      split; [split; [discriminate | intros H; now contradiction H] |].
      intros w Hw. now apply not_elem_of_nil in Hw. }
    destruct e; cbn [is_ErrVersionNotFound negb]; try apply N.
    destruct (client_DB st VersDB) as [e|]; [apply N |].
    destruct (VersDB_CreateDoc st (with_owner ver app)) as [e|]; [apply N |].
    split; [discriminate |]. split; [split; [discriminate | reflexivity] |].
    intros w Hw. apply list_elem_of_singleton in Hw as ->. cbn. auto 10.
  - split; [intros f _; auto |].
    split; [split; [discriminate | intros H; now contradiction H] |].
    intros w Hw. now apply not_elem_of_nil in Hw.
Qed.

Lemma CreateOrUpdateApp_creates_witness :
  exists doc,
    writes (CreateOrUpdateApp PublishSamples.parses (PublishSamples.storeOf [])
              (PublishSamples.request "webapp" "tools") "Cozy" 100)
      = [CreatedApp doc] /\
    app_ID doc = "drive" /\ app_Slug doc = "drive" /\
    with_Rev doc "1-a" = PublishSamples.stored.
Proof.
  destruct (CreateOrUpdateApp_creates PublishSamples.parses
              (PublishSamples.storeOf [])
              (PublishSamples.request "webapp" "tools") "Cozy" 100)
    as (doc & Hw & _); try reflexivity.
  exists doc. split; [exact Hw |].
  vm_compute in Hw. injection Hw as <-. repeat split; reflexivity.
Defined.

Lemma CreateOrUpdateApp_update_keeps_witness :
  let o := CreateOrUpdateApp PublishSamples.parses
             (PublishSamples.storeOf [PublishSamples.stored])
             (PublishSamples.request "konnector" "misc") "Other" 200 in
  (forall r, result o = Some r ->
     app_ID r = "drive" /\ app_Rev r = "1-a" /\ app_Slug r = "drive" /\
     app_Type r = "webapp" /\ app_CreatedAt r = UTC 100 /\
     app_Editor r = "Other") /\
  exists doc, writes o = [PutApp "drive" doc] /\ app_Category doc = "misc".
Proof.
  intros o.
  destruct (CreateOrUpdateApp_update_keeps PublishSamples.parses
              (PublishSamples.storeOf [PublishSamples.stored])
              (PublishSamples.request "konnector" "misc")
              PublishSamples.stored "Other" 200 eq_refl) as [H _].
  split; [exact H |].
  eexists. split; [vm_compute; reflexivity | reflexivity].
Defined.

Lemma CreateOrUpdateApp_again_witness :
  let o := CreateOrUpdateApp PublishSamples.parses
             (PublishSamples.storeOf [PublishSamples.stored])
             (PublishSamples.request "webapp" "tools") "Cozy" 200 in
  updated o = false /\ err o = None /\ writes o = [] /\
  result o = Some (blanked PublishSamples.stored).
Proof.
  assert (Hw : exists doc,
             writes (CreateOrUpdateApp PublishSamples.parses
                       (PublishSamples.storeOf [])
                       (PublishSamples.request "webapp" "tools") "Cozy" 100)
               = [CreatedApp doc] /\
             with_Rev doc "1-a" = PublishSamples.stored).
  { eexists. split; [vm_compute; reflexivity | reflexivity]. }
  destruct Hw as (doc & Hw & Hs).
  pose proof (CreateOrUpdateApp_again PublishSamples.parses
                (PublishSamples.storeOf [])
                (PublishSamples.storeOf [PublishSamples.stored])
                (PublishSamples.request "webapp" "tools") "Cozy" 100 200
                (CreatedApp doc) doc "1-a" eq_refl Hw eq_refl eq_refl) as H.
  rewrite Hs in H. apply H. reflexivity.
Defined.

End PublishFacts.


(** ** More on the finders *)

Module FindersMore.
Import GoStrings Regexp VersionGrammar Lru Registry Samples FindersSamples.
Import LruFacts FindersFacts.

Section WithDecoders.

Variable jma : AppVersions -> option (list byte).
Variable jua : list byte -> option AppVersions.

(** X19. [FindAppVersions] answers from its cache: after a call that has
    read the view and stored the list, a call for the same slug and
    channel within the TTL returns the same list without asking the
    store, whatever the store holds by then. The decoder is taken to
    read back what the encoder wrote. *)
Theorem FindAppVersions_memoized (c c' : Space) (cs : Caches)
    (appSlug : string) (channel : Channel) (t0 t1 : Z) (rs : Rows)
    (values : list string) (data : list byte) :
  let key := appSlug ++ "/" ++ channelToStr channel in
  let versions :=
    composeVersions channel (repeat "" (TotalRows rs) ++ values)%list in
  mu (cacheVersionsList cs) = false ->
  cache (cacheVersionsList cs) !! key = None ->
  MaxEntries (cacheVersionsList cs) = 0 \/
    Z.of_nat (length (ll (cacheVersionsList cs))) < MaxEntries (cacheVersionsList cs) ->
  TTL (cacheVersionsList cs) = 0 \/ t1 - t0 <= TTL (cacheVersionsList cs) ->
  versionViewQuery c (versViewDocName appSlug) (channelToStr channel)
    {| q_limit := 2000; q_descending := false; q_include_docs := false |}
    = inr rs ->
  scanValues (rows rs) = inr values ->
  jma versions = Some data ->
  jua data = Some versions ->
  exists cs1 cs2,
    FindAppVersions jma jua c cs appSlug channel t0
      = Returns (Ok versions, cs1) /\
    FindAppVersions jma jua c' cs1 appSlug channel t1
      = Returns (Ok versions, cs2).
Proof.
  intros key versions Hmu Hmiss Hroom Httl Hq Hs Hm Hu.
  unfold FindAppVersions. fold key.
  rewrite (Get_miss _ _ _ Hmu Hmiss).
  cbn [mbind Run_bind with_list cacheVersionsList cacheVersionsLatest].
  rewrite Hq, Hs. fold versions. rewrite Hm.
  rewrite (Add_room (Unlock (cacheVersionsList cs)) key data t0);
    [| reflexivity | exact Hmiss | exact Hroom].
  cbn [mbind Run_bind with_list cacheVersionsList cacheVersionsLatest].
  eexists. eexists. split; [reflexivity |].
  cbn [with_list cacheVersionsList cacheVersionsLatest].
  erewrite (LruMore.Get_hit _ key {| key := key; value := data; date := t0 |} t1);
    [| reflexivity | cbn; apply lookup_insert_eq | exact Httl].
  cbn [mbind Run_bind Lru.value]. rewrite Hu. reflexivity.
Qed.

End WithDecoders.

Lemma FindAppVersions_memoized_witness :
  exists cs1 cs2,
    FindAppVersions sample_Marshal_AppVersions sample_Unmarshal_AppVersions
      (sampleSpace 0) initialCaches "notes" Dev 1000
      = Returns (Ok notesDevResult, cs1) /\
    FindAppVersions sample_Marshal_AppVersions sample_Unmarshal_AppVersions
      downSpace cs1 "notes" Dev 2000
      = Returns (Ok notesDevResult, cs2).
Proof.
  apply (FindAppVersions_memoized sample_Marshal_AppVersions
           sample_Unmarshal_AppVersions (sampleSpace 0) downSpace
           initialCaches "notes" Dev 1000 2000
           {| TotalRows := 0; rows := List.map valueRow notesVersions |}
           notesVersions
           (default [] (sample_Marshal_AppVersions notesDevResult)));
    try reflexivity.
  - right. reflexivity.
  - right. vm_compute. discriminate.
Defined.

(** X20. Whatever the options hold, the request that [GetAppsList] sends
    to the store names one of the six sort fields, the index of that
    field, which is one of [appsIndexes], and the order [asc] or [desc],
    with the slug as second sort key; its selector starts with the sort
    field and then holds only fields of [validFilters], each with the
    value given for it; a filter of another name never reaches the
    store. *)
Theorem findRequest_whitelisted (opts : AppsListOptions) :
  exists f order sel,
    f ∈ validSorts /\ (order = "asc" \/ order = "desc") /\
    use_index (findRequest opts) = "apps-index-by-" ++ f /\
    ("by-" ++ f) ∈ appsIndexes /\
    sort (findRequest opts)
      = ((f, order) :: (if String.eqb f "slug" then [] else [("slug", order)]))%list /\
    selector (findRequest opts) = (f, GtNull) :: sel /\
    (forall name cond, (name, cond) ∈ sel ->
       name ∈ validFilters /\
       exists val, (name, val) ∈ Filters opts /\
                   (cond = Equals val \/ cond = All (Split val ","))) /\
    skip (findRequest opts) = Cursor opts.
Proof.
  unfold findRequest.
  assert (HS : forall s, exists f order,
               sortOf s = (f, order) /\ f ∈ validSorts /\
               (order = "asc" \/ order = "desc")).
  { intros s. unfold sortOf.
    assert (G : forall order field,
               (order = "asc" \/ order = "desc") ->
               exists f o,
                 (let sortField :=
                    if String.eqb field "" || negb (stringInArray field validSorts)
                    then "slug" else field in (sortField, order)) = (f, o) /\
                 f ∈ validSorts /\ (o = "asc" \/ o = "desc")).
    { intros order field Ho. cbv zeta.
      destruct (String.eqb field "" || negb (stringInArray field validSorts)) eqn:E.
      - exists "slug", order. split; [reflexivity |]. split; [| exact Ho].
        apply list_elem_of_here.
      - exists field, order. split; [reflexivity |]. split; [| exact Ho].
        apply orb_false_iff in E as [_ E]. apply negb_false_iff in E.
        unfold stringInArray in E. apply existsb_exists in E as (x & Hx & Ex).
        apply String.eqb_eq in Ex as ->. now apply list_elem_of_In. }
    destruct s as [|a rest]; [apply G; auto |].
    destruct (Ascii.eqb_spec a "-") as [->|N].
    - apply (G "desc" rest). auto.
    - assert (E : (match String a rest with
                   | String "-" r => ("desc", r)
                   | _ => ("asc", String a rest)
                   end) = ("asc", String a rest)).
      { destruct a as [[] [] [] [] [] [] [] []]; try reflexivity.
        now contradiction N. }
      rewrite E. apply (G "asc" (String a rest)). auto. }
  destruct (HS (Sort opts)) as (f & order & -> & Hf & Ho).
  exists f, order, (selectorOf (Filters opts)).
  split; [exact Hf |]. split; [exact Ho |]. split; [reflexivity |].
  split.
  { unfold validSorts in Hf. unfold appsIndexes.
    repeat (apply elem_of_cons in Hf as [->|Hf];
            [cbn; repeat (first [apply list_elem_of_here | apply list_elem_of_further]) |]).
    now apply not_elem_of_nil in Hf. }
  split.
  { cbn [sort]. destruct (String.eqb f "slug"); reflexivity. }
  split; [reflexivity |]. split; [| reflexivity].
  induction (Filters opts) as [|[n v] l IH]; intros name cond Hin.
  - now apply not_elem_of_nil in Hin.
  - cbn [selectorOf] in Hin.
    destruct (stringInArray n validFilters) eqn:Hn; cbn [negb] in Hin.
    + assert (Hv : n ∈ validFilters).
      { unfold stringInArray in Hn. apply existsb_exists in Hn as (x & Hx & Ex).
        apply String.eqb_eq in Ex as ->. now apply list_elem_of_In. }
      destruct (String.eqb n "tags" || String.eqb n "locales");
        apply elem_of_cons in Hin as [[= -> ->]|Hin].
      * split; [exact Hv |]. exists v. split; [apply list_elem_of_here | auto].
      * destruct (IH _ _ Hin) as (A & val & B & C). split; [exact A |].
        exists val. split; [now apply list_elem_of_further | exact C].
      * split; [exact Hv |]. exists v. split; [apply list_elem_of_here | auto].
      * destruct (IH _ _ Hin) as (A & val & B & C). split; [exact A |].
        exists val. split; [now apply list_elem_of_further | exact C].
    + destruct (IH _ _ Hin) as (A & val & B & C). split; [exact A |].
      exists val. split; [now apply list_elem_of_further | exact C].
Qed.

End FindersMore.


(** ** The lookups by identifier *)

Module LookupFacts.
Import GoStrings Regexp VersionGrammar Lru Registry Chars Lookup.
Import PublishFacts.

(** X21. [FindVersion] looks in the published versions first and in the
    pending ones only when the version is not published: its answer is
    that of [FindPublishedVersion], unless that is [ErrVersionNotFound],
    and then it is that of [FindPendingVersion]. An error of the
    published database ends the search, even when the version is
    pending. A slug or a version of the wrong form is refused before any
    database is read. *)
Theorem FindVersion_published_first (d : Dbs) (appSlug version : string) :
  FindVersion d appSlug version
    = match FindPublishedVersion d appSlug version with
      | inl ErrVersionNotFound => FindPendingVersion d appSlug version
      | r => r
      end /\
  (forall what, dbVers d (getVersionID appSlug version) = Failed what ->
     MatchString validSlugReg appSlug = true ->
     MatchString validVersionReg version = true ->
     FindVersion d appSlug version = inl (ErrStore what)) /\
  (MatchString validSlugReg appSlug = false ->
     forall dbs, findVersion appSlug version dbs = inl ErrAppSlugInvalid) /\
  (MatchString validSlugReg appSlug = true ->
   MatchString validVersionReg version = false ->
     forall dbs, findVersion appSlug version dbs = inl ErrVersionInvalid).
Proof.
  unfold FindVersion, FindPublishedVersion, FindPendingVersion, findVersion.
  destruct (MatchString validSlugReg appSlug) eqn:Hs; cbn [negb].
  - destruct (MatchString validVersionReg version) eqn:Hv; cbn [negb].
    + cbn [findVersion_in].
      destruct (dbVers d (getVersionID appSlug version)) as [doc| |what] eqn:Hd.
      * repeat split; try discriminate; auto.
      * repeat split; try discriminate; auto.
      * repeat split; try discriminate; auto.
        intros w [= ->] _ _. reflexivity.
    + repeat split; try discriminate; auto.
  - repeat split; try discriminate; auto.
Qed.

Lemma getAppID_ToLower (s : string) : getAppID (ToLower s) = getAppID s.
Proof. apply ToLower_idem. Qed.

(** X22. The lookups do not tell the case of the letters of a slug: two
    slugs of the valid form that are the same up to the case of their
    letters name the same application and the same versions. *)
Theorem lookups_ignore_case (d : Dbs) (a b version : string)
    (dbs : list (string -> Got Version)) :
  MatchString validSlugReg a = true ->
  MatchString validSlugReg b = true ->
  ToLower a = ToLower b ->
  findApp d a = findApp d b /\
  findVersion a version dbs = findVersion b version dbs /\
  findApp d (ToLower a) = findApp d a.
Proof.
  intros Ha Hb E. unfold findApp, findVersion, getVersionID, getAppID.
  assert (Hl : MatchString validSlugReg (ToLower a) = true).
  { rewrite validSlugReg_is_slug in *. now apply is_slug_ToLower. }
  rewrite Ha, Hb, Hl, E, ToLower_idem. auto.
Qed.

Lemma lookups_ignore_case_witness :
  findApp LookupSamples.sampleDbs "Drive"
    = findApp LookupSamples.sampleDbs "drive" /\
  findVersion "Drive" "1.0.0" [dbPendingVers LookupSamples.sampleDbs]
    = findVersion "drive" "1.0.0" [dbPendingVers LookupSamples.sampleDbs] /\
  findApp LookupSamples.sampleDbs (ToLower "Drive")
    = findApp LookupSamples.sampleDbs "Drive".
Proof.
  apply (lookups_ignore_case LookupSamples.sampleDbs "Drive" "drive");
    reflexivity.
Defined.

Lemma scanVersions_iff (rs : list VersionRow) : forall vs : list Version,
  scanVersions rs = inr vs <->
  Forall2 (fun r v => vrow_Doc r = Some v)
    (List.filter (fun r => negb (HasPrefix (vrow_ID r) "_design")) rs) vs.
Proof.
  induction rs as [|r rs IH]; intros vs; cbn [scanVersions List.filter].
  - split; [intros [= <-]; constructor | intros H; inversion H; reflexivity].
  - destruct (HasPrefix (vrow_ID r) "_design"); cbn [negb]; [apply IH |].
    destruct (vrow_Doc r) as [v|] eqn:Hd.
    + destruct (scanVersions rs) as [e|vs'] eqn:Hs; cbn.
      * split; [discriminate |]. intros H. inversion H as [|? ? ? ? _ H2]; subst.
        apply IH in H2. discriminate.
      * split.
        -- intros [= <-]. constructor; [exact Hd | now apply IH].
        -- intros H. inversion H as [|? v' ? vs'' H1 H2]; subst.
           apply IH in H2. injection H2 as <-. congruence.
    + split; [discriminate |]. intros H. inversion H; congruence.
Qed.

Lemma scanApps_iff (rs : list AppRow) : forall res : list App,
  scanApps rs = inr res <->
  Forall2 (fun r doc => arow_Doc r = Some doc)
    (List.filter (fun r => negb (HasPrefix (arow_ID r) "_design")) rs) res.
Proof.
  induction rs as [|r rs IH]; intros vs; cbn [scanApps List.filter].
  - split; [intros [= <-]; constructor | intros H; inversion H; reflexivity].
  - destruct (HasPrefix (arow_ID r) "_design"); cbn [negb]; [apply IH |].
    destruct (arow_Doc r) as [v|] eqn:Hd.
    + destruct (scanApps rs) as [e|vs'] eqn:Hs; cbn.
      * split; [discriminate |]. intros H. inversion H as [|? ? ? ? _ H2]; subst.
        apply IH in H2. discriminate.
      * split.
        -- intros [= <-]. constructor; [exact Hd | now apply IH].
        -- intros H. inversion H as [|? v' ? vs'' H1 H2]; subst.
           apply IH in H2. injection H2 as <-. congruence.
    + split; [discriminate |]. intros H. inversion H; congruence.
Qed.

(** X23. [GetPendingVersions] and [GetMaintainanceApps] return the
    documents of the rows whose identifier does not start with
    [_design], one for one and in the order of the rows, and nothing
    else; they succeed exactly when each of those rows decodes, and a
    design document is skipped without being decoded. *)
Theorem listings_skip_design_documents (d : Dbs) :
  (forall rows vs,
      dbPendingVers_AllDocs d = inr rows ->
      (GetPendingVersions d = inr vs <->
       Forall2 (fun r v => vrow_Doc r = Some v)
         (List.filter (fun r => negb (HasPrefix (vrow_ID r) "_design")) rows)
         vs)) /\
  (forall rows apps,
      dbApps_Find_maintenance d = inr rows ->
      (GetMaintainanceApps d = inr apps <->
       Forall2 (fun r doc => arow_Doc r = Some doc)
         (List.filter (fun r => negb (HasPrefix (arow_ID r) "_design")) rows)
         apps)) /\
  (forall e, dbPendingVers_AllDocs d = inl e -> GetPendingVersions d = inl e) /\
  (forall e, dbApps_Find_maintenance d = inl e -> GetMaintainanceApps d = inl e).
Proof.
  unfold GetPendingVersions, GetMaintainanceApps.
  split; [| split; [| split]].
  - intros rows vs H. rewrite H. cbn. apply scanVersions_iff.
  - intros rows apps H. rewrite H. cbn. apply scanApps_iff.
  - intros e H. rewrite H. reflexivity.
  - intros e H. rewrite H. reflexivity.
Qed.

Lemma listings_skip_design_documents_witness :
  GetPendingVersions LookupSamples.sampleDbs
    = inr [LookupSamples.pendingVersion].
Proof.
  destruct (listings_skip_design_documents LookupSamples.sampleDbs) as [H _].
  apply (H _ [LookupSamples.pendingVersion] eq_refl).
  repeat constructor.
Defined.

Lemma versionViewQuery_from_more (s : ViewStore) (fuel : nat) :
  forall (i : nat) (r : error + Rows) (extra : nat),
    versionViewQuery_from fuel s i = Some r ->
    versionViewQuery_from (fuel + extra) s i = Some r.
Proof.
  induction fuel as [|fuel IH]; intros i r extra H; [discriminate |].
  cbn [versionViewQuery_from Nat.add] in *.
  destruct (db_Query s i); try exact H.
  destruct (createVersionsViews s i); [exact H |]. now apply IH.
Qed.

Lemma versionViewQuery_from_loops (s : ViewStore) (fuel : nat) :
  forall i : nat,
    (forall j, (j < fuel)%nat ->
               db_Query s (i + j) = Q404 /\ createVersionsViews s (i + j) = None) ->
    versionViewQuery_from fuel s i = None.
Proof.
  induction fuel as [|fuel IH]; intros i H; [reflexivity |].
  cbn [versionViewQuery_from].
  destruct (H O) as [Hq Hc]; [lia |]. rewrite Nat.add_0_r in Hq, Hc.
  rewrite Hq, Hc. apply IH. intros j Hj.
  replace (S i + j)%nat with (i + S j)%nat by lia. apply H. lia.
Qed.

Lemma versionViewQuery_from_stops (s : ViewStore) (k : nat) :
  forall i : nat,
    (forall j, (j < k)%nat ->
               db_Query s (i + j) = Q404 /\ createVersionsViews s (i + j) = None) ->
    (db_Query s (i + k) <> Q404 \/ createVersionsViews s (i + k) <> None) ->
    exists r, versionViewQuery_from (S k) s i = Some r.
Proof.
  induction k as [|k IH]; intros i Hloop Hstop.
  - rewrite Nat.add_0_r in Hstop. cbn [versionViewQuery_from].
    destruct (db_Query s i); eauto.
    destruct (createVersionsViews s i); eauto.
    destruct Hstop as [H|H]; now contradiction H.
  - cbn [versionViewQuery_from].
    destruct (Hloop O) as [Hq Hc]; [lia |]. rewrite Nat.add_0_r in Hq, Hc.
    rewrite Hq, Hc. apply IH.
    + intros j Hj. replace (S i + j)%nat with (i + S j)%nat by lia.
      apply Hloop. lia.
    + replace (S i + k)%nat with (i + S k)%nat by lia. exact Hstop.
Qed.

(** Among the first [n] calls, either none ends the recursion or there
    is a first one that does. *)
Lemma first_stop (s : ViewStore) (n : nat) :
  (forall j, (j < n)%nat ->
             db_Query s j = Q404 /\ createVersionsViews s j = None) \/
  exists m, (m < n)%nat /\
    (forall j, (j < m)%nat ->
               db_Query s j = Q404 /\ createVersionsViews s j = None) /\
    (db_Query s m <> Q404 \/ createVersionsViews s m <> None).
Proof.
  induction n as [|n [IH|(m & Hm & IH)]].
  - left. intros j Hj. lia.
  - destruct (db_Query s n) eqn:Hq;
      try (right; exists n; split; [lia |]; split; [exact IH |];
           left; rewrite Hq; discriminate).
    destruct (createVersionsViews s n) eqn:Hc;
      try (right; exists n; split; [lia |]; split; [exact IH |];
           right; rewrite Hc; discriminate).
    left. intros j Hj. destruct (Nat.eq_dec j n) as [->|Hne]; [auto |].
    apply IH. lia.
  - right. exists m. split; [lia | exact IH].
Qed.

(** X24. [versionViewQuery] returns exactly when the store, asked again
    after each creation of the views, once answers something else than
    [404] or once refuses the creation: a store that keeps answering
    [404] after creations that succeed keeps the function calling itself
    for ever. When the first answer after a creation is not [404], the
    views are created once and the second answer is the result. *)
Theorem versionViewQuery_returns_iff (s : ViewStore) :
  ((exists fuel r, versionViewQuery_from fuel s 0 = Some r) <->
   (exists k, db_Query s k <> Q404 \/ createVersionsViews s k <> None)) /\
  (forall rs, db_Query s 0 = Q404 -> createVersionsViews s 0 = None ->
              db_Query s 1 = QRows rs ->
              forall fuel, (2 <= fuel)%nat ->
                           versionViewQuery_from fuel s 0 = Some (inr rs)).
Proof.
  split; [split |].
  - intros (fuel & r & H).
    destruct (first_stop s fuel) as [Hloop|(m & _ & _ & Hstop)]; [| eauto].
    rewrite (versionViewQuery_from_loops s fuel 0) in H; [discriminate |].
    intros j Hj. cbn [Nat.add]. apply Hloop. exact Hj.
  - intros (k & Hk).
    destruct (first_stop s (S k)) as [Hloop|(m & _ & Hloop & Hstop)].
    + destruct (Hloop k) as [Hq Hc]; [lia |].
      destruct Hk as [Hk|Hk]; now contradiction Hk.
    + destruct (versionViewQuery_from_stops s m 0) as [r Hr]; eauto.
  - intros rs Hq Hc Hq1 fuel Hf.
    destruct fuel as [|[|fuel]]; try lia.
    cbn [versionViewQuery_from]. now rewrite Hq, Hc, Hq1.
Qed.

Lemma versionViewQuery_returns_iff_witness :
  let rs := {| TotalRows := 1; rows := [Samples.valueRow "1.0.0"] |} in
  versionViewQuery_from 1 (LookupSamples.lazyViews rs) 0 = None /\
  versionViewQuery_from 2 (LookupSamples.lazyViews rs) 0 = Some (inr rs).
Proof.
  intros rs. split; [reflexivity |].
  destruct (versionViewQuery_returns_iff (LookupSamples.lazyViews rs)) as [_ H].
  apply (H rs); auto.
Defined.

Section WithDecoders.

Variable jv : list byte -> option Version.
Variable jma : AppVersions -> option (list byte).
Variable jua : list byte -> option AppVersions.
Variable ddc : App -> string * string.
Variable cal : App -> option Version -> string.

(** X25. [FindApp] completes the document it has found as [GetAppsList]
    completes each application of a page: the commitment, the versions
    of the channel asked for, the latest version, here always of the
    stable channel, and the label; an application without a stable
    version is returned without latest version, not refused. *)
Theorem FindApp_completes_like_GetAppsList (c : Space) (d : Dbs) (cs : Caches)
    (appSlug : string) (channel : Channel) (now : Z) (opts : AppsListOptions)
    (doc : App) :
  findApp d appSlug = inr doc ->
  VersionsChannel opts = channel ->
  LatestVersionChannel opts = Stable ->
  enrich jv jma jua ddc cal c opts now cs [doc]
  = match FindApp jv jma jua ddc cal c d cs appSlug channel now with
    | Returns (r, cs') => Returns (single r, cs')
    | Blocked => Blocked
    end.
Proof.
  intros Hf Hc Hl. unfold FindApp. rewrite Hf. cbn [enrich]. rewrite Hc, Hl.
  cbn [set_commitment app_Slug].
  destruct (FindAppVersions jma jua c cs (app_Slug doc) channel now)
    as [[rv cs1]|]; [| reflexivity].
  cbn [mbind Run_bind].
  destruct rv as [versions|e|]; try reflexivity.
  destruct (FindLatestVersion jv c cs1 (app_Slug doc) Stable now)
    as [[rl cs2]|]; [| reflexivity].
  cbn [mbind Run_bind].
  destruct rl as [latest|e|]; try reflexivity.
  destruct (is_ErrVersionNotFound e); reflexivity.
Qed.

End WithDecoders.

Lemma FindApp_completes_like_GetAppsList_witness :
  exists app cs',
    FindApp Samples.sample_Unmarshal_Version Samples.sample_Marshal_AppVersions
      Samples.sample_Unmarshal_AppVersions
      Samples.sample_defaultDataUserCommitment Samples.sample_calculateAppLabel
      (Samples.sampleSpace 0) LookupSamples.sampleDbs initialCaches "Drive"
      Beta 1000
    = Returns (Ok app, cs') /\
    app_ID app = "drive" /\ app_LatestVersion app = None /\
    enrich Samples.sample_Unmarshal_Version Samples.sample_Marshal_AppVersions
      Samples.sample_Unmarshal_AppVersions
      Samples.sample_defaultDataUserCommitment Samples.sample_calculateAppLabel
      (Samples.sampleSpace 0)
      {| Limit := 0; Cursor := 0; Sort := ""; Filters := [];
         LatestVersionChannel := Stable; VersionsChannel := Beta |}
      1000 initialCaches [Samples.sampleApp "drive"]
    = Returns (Ok [app], cs').
Proof.
  pose proof (FindApp_completes_like_GetAppsList
                Samples.sample_Unmarshal_Version
                Samples.sample_Marshal_AppVersions
                Samples.sample_Unmarshal_AppVersions
                Samples.sample_defaultDataUserCommitment
                Samples.sample_calculateAppLabel
                (Samples.sampleSpace 0) LookupSamples.sampleDbs initialCaches
                "Drive" Beta 1000
                {| Limit := 0; Cursor := 0; Sort := ""; Filters := [];
                   LatestVersionChannel := Stable; VersionsChannel := Beta |}
                (Samples.sampleApp "drive") eq_refl eq_refl eq_refl) as H.
  destruct (FindApp _ _ _ _ _ _ _ _ _ _ _) as [[[app|e|] cs']|] eqn:HF;
    try (vm_compute in HF; discriminate HF).
  exists app, cs'. split; [reflexivity |].
  split; [vm_compute in HF; now injection HF as <- _ |].
  split; [vm_compute in HF; now injection HF as <- _ |].
  exact H.
Defined.

End LookupFacts.


(** ** More on [downloadVersion] *)

Module DownloadMore.
Import GoStrings Regexp VersionGrammar Lru Registry Samples Archive.
Import DownloadFacts.

Lemma asString_true (m : gmap string JSONValue) (field s : string) :
  asString m field = (s, true) <-> m !! field = Some (JString s).
Proof.
  unfold asString. destruct (m !! field) as [[]|]; split; congruence.
Qed.

Lemma asString_false (m : gmap string JSONValue) (field : string) :
  snd (asString m field) = false -> fst (asString m field) = "".
Proof.
  unfold asString. destruct (m !! field) as [[]|]; cbn; congruence.
Qed.

Section WithDecoders.

Variable jm : list byte -> option (gmap string JSONValue).
Variable jp : list byte -> option string.

Lemma scan_entry_typed (st st' : scan) (e : TarEntry) :
  typed st -> scan_entry jp st e = inr st' -> typed st'.
Proof.
  unfold scan_entry, typed. intros Ht.
  destruct (negb (Ascii.eqb (Typeflag (hdr e)) TypeReg)
            && negb (Ascii.eqb (Typeflag (hdr e)) TypeDir));
    [now intros [= <-] |].
  destruct (track_prefix (prefix st) (Name (hdr e))) as [p' name].
  destruct (String.eqb name "manifest.webapp") eqn:Hw;
    destruct (String.eqb name "manifest.konnector") eqn:Hk;
    cbn [orb];
    destruct (content e) as [body|]; cbn [mbind error_bind];
    try discriminate;
    destruct (String.eqb name "package.json");
    try discriminate;
    try destruct (jp body);
    try discriminate;
    intros [= <-]; cbn; auto.
Qed.

Lemma scan_entries_typed (es : list TarEntry) : forall st st' : scan,
  typed st -> scan_entries jp st es = inr st' -> typed st'.
Proof.
  induction es as [|e es IH]; intros st st' Ht H.
  - now injection H as <-.
  - cbn [scan_entries] in H.
    destruct (scan_entry jp st e) as [err|st1] eqn:He; [discriminate |].
    cbn [mbind error_bind] in H.
    exact (IH _ _ (scan_entry_typed _ _ _ Ht He) H).
Qed.

Lemma reconcile_nil (optsVersion packVersion : string)
    (manifest : gmap string JSONValue) :
  reconcile optsVersion manifest packVersion = Some [] ->
  (exists editor, manifest !! "editor" = Some (JString editor) /\ editor <> "") /\
  (exists slug, manifest !! "slug" = Some (JString slug) /\ slug <> "") /\
  (exists version,
      manifest !! "version" = Some (JString version) /\
      (if Channel_eqb (GetVersionChannel optsVersion) Dev
       then VersionMatch optsVersion version = Some true
       else version = optsVersion)).
Proof.
  unfold reconcile.
  destruct (asString manifest "editor") as [editorName ok1] eqn:He.
  destruct (asString manifest "slug") as [slug ok2] eqn:Hs.
  destruct (check_versions optsVersion manifest packVersion) as [errm|] eqn:Hc;
    [| discriminate].
  cbn [mbind option_bind]. intros [= H].
  apply app_eq_nil in H as [H1 H]. apply app_eq_nil in H as [H2 H3]. subst errm.
  split; [| split].
  - destruct ok1; cbn [negb orb] in H1; [| discriminate].
    destruct (String.eqb_spec editorName "") as [|N]; [discriminate |].
    exists editorName. split; [now apply asString_true | exact N].
  - destruct ok2; cbn [negb orb] in H2; [| discriminate].
    destruct (String.eqb_spec slug "") as [|N]; [discriminate |].
    exists slug. split; [now apply asString_true | exact N].
  - unfold check_versions in Hc.
    destruct (asString manifest "version") as [version ok] eqn:Hv.
    destruct ok; cbn [negb] in Hc.
    + exists version. split; [now apply asString_true |].
      destruct (Channel_eqb (GetVersionChannel optsVersion) Dev); cbn [negb] in *.
      * destruct (VersionMatch optsVersion version) as [[]|]; cbn in Hc;
          try reflexivity; try discriminate.
        destruct (negb (String.eqb packVersion "")); [| discriminate].
        destruct (VersionMatch optsVersion packVersion) as [[]|]; discriminate.
      * cbn [mbind option_bind] in Hc.
        destruct (String.eqb_spec optsVersion version) as [->|N]; [reflexivity |].
        cbn [negb] in Hc.
        destruct (negb (String.eqb packVersion "")); discriminate.
    + cbn [mbind option_bind negb] in Hc.
      destruct (negb (String.eqb packVersion "")); [| discriminate].
      destruct (if negb (Channel_eqb (GetVersionChannel optsVersion) Dev)
                then Some (negb (String.eqb optsVersion packVersion))
                else VersionMatch optsVersion packVersion) as [[]|];
        discriminate.
Qed.

(** X26. A version that [downloadVersion] accepts was fetched with status
    200, carries the slug and the editor of the manifest, neither empty,
    the type that goes with the name of the manifest file, the version,
    the URL and the checksum of the request, the identifier made of the
    lower-case slug and the version, no revision, and the time of the
    call; the version of the manifest is the one asked for, or on the
    dev channel one with the same three numbers. *)
Theorem downloadVersion_Ok_fields (opts : VersionOptions) (f : Fetch)
    (now : Z) (ver : Version) :
  downloadVersion jm jp opts f now = Ok ver ->
  requestErr f = false /\ StatusCode f = 200 /\
  ver_Slug ver <> "" /\ ver_Editor ver <> "" /\
  (ver_Type ver = "webapp" \/ ver_Type ver = "konnector") /\
  ver_ID ver = ToLower (ver_Slug ver) ++ "-" ++ opt_Version opts /\
  ver_Rev ver = "" /\ ver_CreatedAt ver = now /\
  ver_Version ver = opt_Version opts /\ ver_URL ver = opt_URL opts /\
  ver_Sha256 ver = opt_Sha256 opts /\ ver_Manifest ver <> [] /\
  exists manifest version,
    jm (ver_Manifest ver) = Some manifest /\
    manifest !! "slug" = Some (JString (ver_Slug ver)) /\
    manifest !! "editor" = Some (JString (ver_Editor ver)) /\
    manifest !! "version" = Some (JString version) /\
    (if Channel_eqb (GetVersionChannel (opt_Version opts)) Dev
     then VersionMatch (opt_Version opts) version = Some true
     else version = opt_Version opts).
Proof.
  unfold downloadVersion.
  destruct (requestErr f); [discriminate |].
  destruct (Z.eqb_spec (StatusCode f) 200) as [Hc|]; [| discriminate].
  cbn [negb].
  match goal with
  | |- context [if ?b then _ else _] => destruct b; [discriminate |]
  end.
  destruct (scan_entries jp scan0 (entries f)) as [err|st] eqn:Es; [discriminate |].
  destruct (ending f) eqn:Ee; try discriminate.
  destruct (bytes_Equal (fst (GoHex.DecodeString (opt_Sha256 opts))) (sum f)) eqn:Eh;
    [| discriminate]. cbn [negb].
  destruct (manifestContent st) as [|b0 body] eqn:Em; [discriminate |].
  cbn [length Nat.eqb].
  destruct (jm (b0 :: body)) as [manifest|] eqn:Ej; [| discriminate].
  destruct (reconcile (opt_Version opts) manifest (packVersion st)) as [[|x l]|] eqn:Er;
    try discriminate.
  intros [= <-]. cbn.
  destruct (reconcile_nil _ _ _ Er)
    as ((editor & He & Ne) & (slug & Hs & Ns) & (version & Hv & Hm)).
  assert (Ht : typed st).
  { apply (scan_entries_typed (entries f) scan0); [| exact Es].
    right. right. split; reflexivity. }
  rewrite (proj2 (asString_true manifest "slug" slug) Hs).
  rewrite (proj2 (asString_true manifest "editor" editor) He). cbn [fst].
  split; [reflexivity |]. split; [exact Hc |].
  split; [exact Ns |]. split; [exact Ne |].
  split.
  { destruct Ht as [Ht|[Ht|[_ Ht]]]; [now left | now right |].
    rewrite Em in Ht. discriminate. }
  unfold getVersionID, getAppID.
  repeat (split; [first [reflexivity | discriminate] |]).
  exists manifest, version. rewrite Ej. auto.
Qed.

Lemma scan_entries_filter (es : list TarEntry) : forall st : scan,
  scan_entries jp st (List.filter Spec.isRegOrDir es) = scan_entries jp st es.
Proof.
  induction es as [|e es IH]; intros st; [reflexivity |].
  cbn [List.filter scan_entries].
  destruct (scan_entry_cases jp st e) as [[Hk He]|[Hk _]]; rewrite Hk.
  - rewrite He. cbn [mbind error_bind]. apply IH.
  - cbn [scan_entries]. destruct (scan_entry jp st e); [reflexivity |].
    cbn [mbind error_bind]. apply IH.
Qed.

(** X27. Entries of the archive that are neither regular files nor
    directories (links, devices and the like) do not count, whatever
    their name and content: [downloadVersion] gives the same result on
    the archive without them. *)
Theorem downloadVersion_ignores_other_entries (opts : VersionOptions)
    (f : Fetch) (now : Z) :
  downloadVersion jm jp opts
    (with_entries f (List.filter Spec.isRegOrDir (entries f))) now
  = downloadVersion jm jp opts f now.
Proof.
  unfold downloadVersion, with_entries.
  cbn [requestErr StatusCode ContentType gzipErr entries ending written sum].
  now rewrite scan_entries_filter.
Qed.

Lemma check_versions_not_Dev (optsVersion packVersion : string)
    (manifest : gmap string JSONValue) :
  Channel_eqb (GetVersionChannel optsVersion) Dev = false ->
  check_versions optsVersion manifest packVersion <> None.
Proof.
  intros Hc. unfold check_versions.
  destruct (asString manifest "version") as [version ok]. rewrite Hc.
  cbn [negb]. destruct ok; cbn [negb mbind option_bind];
    destruct (negb (String.eqb packVersion "")); discriminate.
Qed.

(** X28. [downloadVersion] can panic only on a request for the dev
    channel, and only after the archive has been read to its end, the
    checksum has matched and the manifest has been decoded: then one of
    the versions handed to [VersionMatch] has fewer than three parts.
    Requests for the other channels never panic. *)
Theorem downloadVersion_Panic_inv (opts : VersionOptions) (f : Fetch)
    (now : Z) :
  downloadVersion jm jp opts f now = Panic ->
  GetVersionChannel (opt_Version opts) = Dev /\
  exists st manifest,
    scan_entries jp scan0 (entries f) = inr st /\
    ending f = EOF /\
    bytes_Equal (fst (GoHex.DecodeString (opt_Sha256 opts))) (sum f) = true /\
    jm (manifestContent st) = Some manifest /\
    (SplitVersion (opt_Version opts) = None \/
     SplitVersion (fst (asString manifest "version")) = None \/
     (packVersion st <> "" /\ SplitVersion (packVersion st) = None)).
Proof.
  unfold downloadVersion.
  destruct (requestErr f); [discriminate |].
  destruct (negb (StatusCode f =? 200)); [discriminate |].
  match goal with
  | |- context [if ?b then _ else _] => destruct b; [discriminate |]
  end.
  destruct (scan_entries jp scan0 (entries f)) as [err|st] eqn:Es; [discriminate |].
  destruct (ending f) eqn:Ee; try discriminate.
  destruct (bytes_Equal (fst (GoHex.DecodeString (opt_Sha256 opts))) (sum f)) eqn:Eh;
    [| discriminate]. cbn [negb].
  destruct (length (manifestContent st) =? 0)%nat; [discriminate |].
  destruct (jm (manifestContent st)) as [manifest|] eqn:Ej; [| discriminate].
  destruct (reconcile (opt_Version opts) manifest (packVersion st)) as [[|x l]|] eqn:Er;
    try discriminate.
  intros _.
  assert (Hc : check_versions (opt_Version opts) manifest (packVersion st) = None).
  { unfold reconcile in Er.
    destruct (asString manifest "editor") as [e1 o1].
    destruct (asString manifest "slug") as [e2 o2].
    destruct (check_versions (opt_Version opts) manifest (packVersion st));
      [discriminate | reflexivity]. }
  destruct (Channel_eqb (GetVersionChannel (opt_Version opts)) Dev) eqn:Hd.
  - split; [destruct (GetVersionChannel (opt_Version opts)); try discriminate; reflexivity |].
    exists st, manifest. repeat (split; [first [reflexivity | assumption] |]).
    unfold check_versions in Hc.
    destruct (asString manifest "version") as [version ok]. rewrite Hd in Hc.
    cbn [negb fst] in *.
    assert (HM : forall a b, VersionMatch a b = None ->
                             SplitVersion a = None \/ SplitVersion b = None).
    { intros a b. unfold VersionMatch.
      destruct (SplitVersion a) as [[[a0 a1] a2]|]; [| auto].
      destruct (SplitVersion b) as [[[b0 b1] b2]|]; [discriminate | auto]. }
    destruct ok; cbn [negb mbind option_bind] in Hc.
    + destruct (VersionMatch (opt_Version opts) version) as [m|] eqn:Hm.
      * destruct (String.eqb_spec (packVersion st) "") as [|N]; [discriminate |].
        cbn [negb] in Hc.
        destruct (VersionMatch (opt_Version opts) (packVersion st)) eqn:Hp;
          [discriminate |].
        destruct (HM _ _ Hp); auto.
      * destruct (HM _ _ Hm); auto.
    + destruct (String.eqb_spec (packVersion st) "") as [|N]; [discriminate |].
      cbn [negb] in Hc.
      destruct (VersionMatch (opt_Version opts) (packVersion st)) eqn:Hp;
        [discriminate |].
      destruct (HM _ _ Hp); auto.
  - now apply check_versions_not_Dev in Hc.
Qed.

End WithDecoders.

Lemma downloadVersion_Ok_fields_witness :
  exists ver,
    downloadVersion sample_Unmarshal_manifest sample_Unmarshal_package
      (sampleOptions "1.2.3") (gzipFetch (notesArchive "1.2.4") 345) 1000
    = Ok ver /\
    ver_Slug ver = "notes" /\
    (ver_Type ver = "webapp" \/ ver_Type ver = "konnector") /\
    ver_ID ver = ToLower (ver_Slug ver) ++ "-" ++ "1.2.3" /\
    ver_CreatedAt ver = 1000.
Proof.
  eexists. split; [reflexivity |].
  destruct (downloadVersion_Ok_fields sample_Unmarshal_manifest
              sample_Unmarshal_package (sampleOptions "1.2.3")
              (gzipFetch (notesArchive "1.2.4") 345) 1000 _ eq_refl)
    as (_ & _ & _ & _ & Ht & Hi & _ & Hc & _).
  split; [reflexivity |]. split; [exact Ht |]. split; [exact Hi | exact Hc].
Defined.

Lemma downloadVersion_Panic_inv_witness :
  downloadVersion sample_Unmarshal_manifest sample_Unmarshal_package
    shortDevOptions (gzipFetch (notesArchive "1.2.4") 345) 1000 = Panic /\
  GetVersionChannel (opt_Version shortDevOptions) = Dev /\
  SplitVersion (opt_Version shortDevOptions) = None.
Proof.
  assert (H : downloadVersion sample_Unmarshal_manifest sample_Unmarshal_package
                shortDevOptions (gzipFetch (notesArchive "1.2.4") 345) 1000
              = Panic) by reflexivity.
  split; [exact H |].
  destruct (downloadVersion_Panic_inv _ _ _ _ _ H) as [Hd _].
  split; [exact Hd | reflexivity].
Defined.

End DownloadMore.
